(** * GoSeC: a small PKI whose private keys only persist as Shamir shares

    Shallow embedding of [internal/utils/utils.go], of the command-line
    front-end ([cmd/cli]) and of the graphical front-end ([cmd/gui/gui.go]),
    with the properties of the key-custody workflow stated over it.

    Conventions.
    - A Go [string] is a Rocq [string]: a sequence of bytes ([ascii]).
    - A Go [[]byte] is a [list ascii].
    - A Go [int], [int64] or [time.Duration] is a [Z]; the 64-bit wrap-around
      of the arithmetic is written out with [wrap64].
    - Effects (entropy, clock, file system) are threaded through an explicit
      [World]; fallible functions return a [result]. *)

From Stdlib Require Import List String Ascii Bool Arith ZArith NArith Lia.
From Stdlib Require Import Ring FinFun.
Import ListNotations.

Local Open Scope string_scope.
Local Open Scope list_scope.

(* ================================================================== *)
(** ** Go strings: the fragment of package [strings] that is used      *)
(* ================================================================== *)

Module GoStrings.

Definition bytes := list ascii.

Definition byte_of (n : N) : ascii := ascii_of_N n.

(** [unicode.IsSpace], as the UTF-8 encodings of the runes it accepts:
    the six ASCII blanks of [asciiSpace], U+0085, U+00A0 and the
    [White_Space] range table above Latin-1. *)
Definition space_encodings : list bytes :=
  map (map byte_of)
    [ [0x09]; [0x0A]; [0x0B]; [0x0C]; [0x0D]; [0x20];
      [0xC2; 0x85]; [0xC2; 0xA0];
      [0xE1; 0x9A; 0x80];
      [0xE2; 0x80; 0x80]; [0xE2; 0x80; 0x81]; [0xE2; 0x80; 0x82];
      [0xE2; 0x80; 0x83]; [0xE2; 0x80; 0x84]; [0xE2; 0x80; 0x85];
      [0xE2; 0x80; 0x86]; [0xE2; 0x80; 0x87]; [0xE2; 0x80; 0x88];
      [0xE2; 0x80; 0x89]; [0xE2; 0x80; 0x8A];
      [0xE2; 0x80; 0xA8]; [0xE2; 0x80; 0xA9]; [0xE2; 0x80; 0xAF];
      [0xE2; 0x81; 0x9F];
      [0xE3; 0x80; 0x80] ]%N.

(** [strip_prefix p s] is the rest of [s] after the prefix [p], if any. *)
Fixpoint strip_prefix (p s : bytes) : option bytes :=
  match p, s with
  | [], _ => Some s
  | _ :: _, [] => None
  | a :: p', b :: s' => if Ascii.eqb a b then strip_prefix p' s' else None
  end.

(** The rest of [s] after one leading rune among [encs]. *)
Fixpoint strip_one (encs : list bytes) (s : bytes) : option bytes :=
  match encs with
  | [] => None
  | e :: encs' =>
      match strip_prefix e s with
      | Some r => Some r
      | None => strip_one encs' s
      end
  end.

(** The loop of [strings.TrimLeftFunc]: decode one rune, stop at the first
    one that is not accepted. *)
Fixpoint trim_loop (encs : list bytes) (fuel : nat) (s : bytes) : bytes :=
  match fuel with
  | O => s
  | S fuel' =>
      match strip_one encs s with
      | Some r => trim_loop encs fuel' r
      | None => s
      end
  end.

Definition trimLeft (encs : list bytes) (s : bytes) : bytes :=
  trim_loop encs (List.length s) s.

(** [strings.TrimRightFunc] walks backwards with [DecodeLastRuneInString]:
    the same loop on the reversed string and the reversed encodings. *)
Definition trimRight (encs : list bytes) (s : bytes) : bytes :=
  rev (trimLeft (map (@rev ascii) encs) (rev s)).

Definition TrimSpaceBytes (s : bytes) : bytes :=
  trimRight space_encodings (trimLeft space_encodings s).

(** [strings.TrimSpace]. *)
Definition TrimSpace (s : string) : string :=
  string_of_list_ascii (TrimSpaceBytes (list_ascii_of_string s)).

Definition comma : ascii := ","%char.

(** [strings.Split(s, ",")] on the bytes of [s]: one more field than there
    are commas, so the empty string gives one empty field. *)
Fixpoint split_comma (s : bytes) : list bytes :=
  match s with
  | [] => [[]]
  | c :: r =>
      if Ascii.eqb c comma then [] :: split_comma r
      else match split_comma r with
           | h :: t => (c :: h) :: t
           | [] => [[c]]
           end
  end.

Definition SplitComma (s : string) : list string :=
  map string_of_list_ascii (split_comma (list_ascii_of_string s)).

(** A string starts (ends) with a blank rune. *)
Definition leading_space (s : string) : bool :=
  match strip_one space_encodings (list_ascii_of_string s) with
  | Some _ => true
  | None => false
  end.

Definition trailing_space (s : string) : bool :=
  match strip_one (map (@rev ascii) space_encodings)
                  (rev (list_ascii_of_string s)) with
  | Some _ => true
  | None => false
  end.

(** A string made of blank runes only (the empty string included). *)
Definition blank (s : string) : Prop := TrimSpace s = "".

End GoStrings.

(* ================================================================== *)
(** ** [ParseCommaSeparatedPaths]                                      *)
(* ================================================================== *)

Definition nonempty (s : string) : bool :=
  match s with EmptyString => false | _ => true end.

(** The loop body of [ParseCommaSeparatedPaths]: trim, keep if not empty. *)
Fixpoint keep_trimmed (parts : list string) : list string :=
  match parts with
  | [] => []
  | p :: rest =>
      let p' := GoStrings.TrimSpace p in
      if nonempty p' then p' :: keep_trimmed rest else keep_trimmed rest
  end.

(** [nil] and the empty slice are both the empty list. *)
Definition ParseCommaSeparatedPaths (input : string) : list string :=
  if nonempty (GoStrings.TrimSpace input) then
    keep_trimmed (GoStrings.SplitComma input)
  else [].

(* ================================================================== *)
(** ** Results and errors                                              *)
(* ================================================================== *)

(** The failure kinds of the secret-sharing engine. *)
Inductive ShamirError :=
| InvalidParameters
| RandomnessUnavailable
| MalformedShare
| DuplicateShareIdentity
| InvalidShareIdentity.

(** Go [error] values, one constructor per place that creates one;
    [Wrapped] is [fmt.Errorf("<context>: %w", err)]. *)
Inductive error :=
| CommonNameRequired
| MustSpecify (what : string)
| NoValidPaths (flag : string)
| ShareCountMismatch (have : nat) (n : Z)
| InvalidNumber (field : string)
| KeyGenerationFailed
| SerialNumberFailed
| CreateCertificateFailed
| CannotReadFile (path : string)
| PEMDecodeFailed
| CorruptBase64 (path : string)
| ShamirFailed (e : ShamirError)
| MarshalKeyFailed
| ParseKeyFailed
| WriteFileFailed (path : string)
| IndexOutOfRange
| Wrapped (context : string) (e : error).

Inductive result (A : Type) :=
| Ok (a : A)
| Err (e : error).
Arguments Ok {A} a.
Arguments Err {A} e.

(** [wrap ctx r] is the Go idiom
    [if err != nil { return fmt.Errorf(ctx + ": %w", err) }]. *)
Definition wrap {A} (context : string) (r : result A) : result A :=
  match r with
  | Ok a => Ok a
  | Err e => Err (Wrapped context e)
  end.

(** The innermost error of a chain of wrappers ([errors.Unwrap] iterated). *)
Fixpoint root_cause (e : error) : error :=
  match e with
  | Wrapped _ e' => root_cause e'
  | _ => e
  end.

(** The error taxonomy of the specification, where the code has it. *)
Definition is_SubjectInvalid (e : error) : bool :=
  match root_cause e with CommonNameRequired => true | _ => false end.

Definition is_ShareTargetMismatch (e : error) : bool :=
  match root_cause e with ShareCountMismatch _ _ => true | _ => false end.

(* ================================================================== *)
(** ** [encoding/base64], [StdEncoding]                                *)
(* ================================================================== *)

Module Base64.

Definition encodeStd : list ascii :=
  list_ascii_of_string
    "ABCDEFGHIJKLMNOPQRSTUVWXYZabcdefghijklmnopqrstuvwxyz0123456789+/".

Definition padChar : ascii := "="%char.

(** [enc.encode[v]] for a 6-bit value [v]. *)
Definition encode_char (v : ascii) : ascii :=
  nth (nat_of_ascii v) encodeStd padChar.

Fixpoint index_of (c : ascii) (l : list ascii) : option nat :=
  match l with
  | [] => None
  | a :: l' =>
      if Ascii.eqb a c then Some O
      else match index_of c l' with
           | Some i => Some (S i)
           | None => None
           end
  end.

(** [enc.decodeMap[c]], [None] standing for the invalid marker 0xFF. *)
Definition decode_char (c : ascii) : option ascii :=
  match index_of c encodeStd with
  | Some i => Some (ascii_of_nat i)
  | None => None
  end.

(** The four 6-bit groups of [val = b0<<16 | b1<<8 | b2]:
    [val>>18&0x3F], [val>>12&0x3F], [val>>6&0x3F], [val&0x3F],
    written on the bits ([Ascii] lists the least significant bit first). *)
Definition sextet0 (a : ascii) : ascii :=
  let '(Ascii _ _ a2 a3 a4 a5 a6 a7) := a in
  Ascii a2 a3 a4 a5 a6 a7 false false.

Definition sextet1 (a b : ascii) : ascii :=
  let '(Ascii a0 a1 _ _ _ _ _ _) := a in
  let '(Ascii _ _ _ _ b4 b5 b6 b7) := b in
  Ascii b4 b5 b6 b7 a0 a1 false false.

Definition sextet2 (b c : ascii) : ascii :=
  let '(Ascii b0 b1 b2 b3 _ _ _ _) := b in
  let '(Ascii _ _ _ _ _ _ c6 c7) := c in
  Ascii c6 c7 b0 b1 b2 b3 false false.

Definition sextet3 (c : ascii) : ascii :=
  let '(Ascii c0 c1 c2 c3 c4 c5 _ _) := c in
  Ascii c0 c1 c2 c3 c4 c5 false false.

(** [Encoding.Encode]: whole 3-byte groups, then the 1 or 2 remaining
    bytes with padding. *)
Fixpoint encode (src : list ascii) : list ascii :=
  match src with
  | [] => []
  | [a] =>
      [encode_char (sextet0 a); encode_char (sextet1 a zero);
       padChar; padChar]
  | [a; b] =>
      [encode_char (sextet0 a); encode_char (sextet1 a b);
       encode_char (sextet2 b zero); padChar]
  | a :: b :: c :: rest =>
      encode_char (sextet0 a) :: encode_char (sextet1 a b)
      :: encode_char (sextet2 b c) :: encode_char (sextet3 c)
      :: encode rest
  end.

Definition EncodeToString (src : list ascii) : string :=
  string_of_list_ascii (encode src).

(** The bytes of [val = s0<<18 | s1<<12 | s2<<6 | s3]:
    [val>>16], [val>>8], [val], again on the bits. *)
Definition octet0 (s0 s1 : ascii) : ascii :=
  let '(Ascii p0 p1 p2 p3 p4 p5 _ _) := s0 in
  let '(Ascii _ _ _ _ q4 q5 _ _) := s1 in
  Ascii q4 q5 p0 p1 p2 p3 p4 p5.

Definition octet1 (s1 s2 : ascii) : ascii :=
  let '(Ascii q0 q1 q2 q3 _ _ _ _) := s1 in
  let '(Ascii _ _ r2 r3 r4 r5 _ _) := s2 in
  Ascii r2 r3 r4 r5 q0 q1 q2 q3.

Definition octet2 (s2 s3 : ascii) : ascii :=
  let '(Ascii r0 r1 _ _ _ _ _ _) := s2 in
  let '(Ascii t0 t1 t2 t3 t4 t5 _ _) := s3 in
  Ascii t0 t1 t2 t3 t4 t5 r0 r1.

Definition is_pad (c : ascii) : bool := Ascii.eqb c padChar.

Definition is_newline (c : ascii) : bool :=
  Ascii.eqb c (ascii_of_N 10) || Ascii.eqb c (ascii_of_N 13).

Definition no_more (rest : list ascii) : bool :=
  match rest with [] => true | _ => false end.

(** [Encoding.decodeQuantum] over the input without its newlines: four
    characters at a time; padding only closes the last quantum; trailing
    bits are not checked (the encoding is not [Strict]). *)
Fixpoint decode_quanta (s : list ascii) : option (list ascii) :=
  match s with
  | [] => Some []
  | c0 :: c1 :: c2 :: c3 :: rest =>
      match decode_char c0, decode_char c1 with
      | Some s0, Some s1 =>
          if is_pad c2 then
            if is_pad c3 && no_more rest then Some [octet0 s0 s1] else None
          else
            match decode_char c2 with
            | Some s2 =>
                if is_pad c3 then
                  if no_more rest
                  then Some [octet0 s0 s1; octet1 s1 s2] else None
                else
                  match decode_char c3, decode_quanta rest with
                  | Some s3, Some out =>
                      Some (octet0 s0 s1 :: octet1 s1 s2 :: octet2 s2 s3
                            :: out)
                  | _, _ => None
                  end
            | None => None
            end
      | _, _ => None
      end
  | _ => None
  end.

(** A 6-bit value. *)
Definition is_sextet (v : ascii) : bool :=
  let '(Ascii _ _ _ _ _ _ b6 b7) := v in negb b6 && negb b7.

(** [Encoding.DecodeString]: carriage returns and line feeds are skipped. *)
Definition DecodeString (s : string) : option (list ascii) :=
  decode_quanta
    (filter (fun c => negb (is_newline c)) (list_ascii_of_string s)).

End Base64.

(* ================================================================== *)
(** ** The field GF(2^8)                                               *)
(* ================================================================== *)

Module GF256.

(** Modelled from the spec: the elements of the field of the
    secret-sharing engine (the imported package [shamir] is not part of the
    sources).  They are 8-bit values, read as polynomials over GF(2) modulo
    the irreducible polynomial x^8 + x^4 + x^3 + x + 1; [Ascii] lists the
    least significant bit first. *)
Abbreviation elt := ascii (only parsing).

Definition one : elt := Ascii true false false false false false false false.

(** Modelled from the spec: the addition of the field, missing with the
    package [shamir]; it is the bitwise exclusive-or. *)
Definition add (a b : elt) : elt :=
  let '(Ascii a0 a1 a2 a3 a4 a5 a6 a7) := a in
  let '(Ascii b0 b1 b2 b3 b4 b5 b6 b7) := b in
  Ascii (xorb a0 b0) (xorb a1 b1) (xorb a2 b2) (xorb a3 b3)
        (xorb a4 b4) (xorb a5 b5) (xorb a6 b6) (xorb a7 b7).

(** Multiplication by x: shift left, and reduce by 0x1B when the bit that
    falls out is set. *)
Definition xtime (a : elt) : elt :=
  let '(Ascii a0 a1 a2 a3 a4 a5 a6 a7) := a in
  Ascii a7 (xorb a0 a7) a1 (xorb a2 a7) (xorb a3 a7) a4 a5 a6.

Definition scale (p : bool) (a : elt) : elt := if p then a else zero.

Definition bits (a : elt) : list bool :=
  let '(Ascii a0 a1 a2 a3 a4 a5 a6 a7) := a in
  [a0; a1; a2; a3; a4; a5; a6; a7].

(** Modelled from the spec: the multiplication of the field, missing with
    the package [shamir]: shift-and-add, the multiplier given by its bits,
    least significant first. *)
Fixpoint mul_bits (a : elt) (bs : list bool) : elt :=
  match bs with
  | [] => zero
  | b :: bs' => add (scale b a) (xtime (mul_bits a bs'))
  end.

Definition mul (a b : elt) : elt := mul_bits a (bits b).

Definition sqr (a : elt) : elt := mul a a.

(** Modelled from the spec: the multiplicative inverse of the field,
    missing with the package [shamir], as the 254th power; the inverse of 0
    is 0. *)
Definition inv (a : elt) : elt :=
  let a2 := sqr a in
  let a4 := sqr a2 in
  let a8 := sqr a4 in
  let a16 := sqr a8 in
  let a32 := sqr a16 in
  let a64 := sqr a32 in
  let a128 := sqr a64 in
  mul a2 (mul a4 (mul a8 (mul a16 (mul a32 (mul a64 a128))))).

Definition div (a b : elt) : elt := mul a (inv b).

Definition is_zero (a : elt) : bool := Ascii.eqb a zero.

(** Value at [x] of the polynomial with coefficients [cs], constant term
    first (Horner's rule). *)
Fixpoint eval (cs : list elt) (x : elt) : elt :=
  match cs with
  | [] => zero
  | c :: cs' => add c (mul x (eval cs' x))
  end.

(** Exhaustive tests over the field, as boolean functions. *)
Definition forall_bool (P : bool -> bool) : bool := P false && P true.

Definition forall_elt (P : elt -> bool) : bool :=
  forall_bool (fun b0 => forall_bool (fun b1 => forall_bool (fun b2 =>
  forall_bool (fun b3 => forall_bool (fun b4 => forall_bool (fun b5 =>
  forall_bool (fun b6 => forall_bool (fun b7 =>
    P (Ascii b0 b1 b2 b3 b4 b5 b6 b7))))))))).

End GF256.

(* ================================================================== *)
(** ** The secret-sharing engine                                       *)
(* ================================================================== *)

Module Shamir.

Import GF256.

(** Modelled from the spec: the shares of the secret-sharing engine
    (section 4.1); the sources only call the imported package [shamir].
    A share is its identity byte followed by one evaluation per byte of
    the secret. *)
Abbreviation share := (list ascii) (only parsing).

(** The secure random source: unavailable, or the coefficient it draws for
    the byte position [i] and the degree [k]. *)
Inductive Entropy :=
| Unavailable
| Draws (coeff : nat -> nat -> elt).

(** The polynomial for the secret byte [s] at position [i]: constant term
    [s], then [t - 1] random coefficients. *)
Definition polynomial (coeff : nat -> nat -> elt) (t i : nat) (s : elt)
  : list elt :=
  s :: map (coeff i) (seq 1 (t - 1)).

Fixpoint evaluations (coeff : nat -> nat -> elt) (t i : nat)
    (secret : list ascii) (x : elt) : list elt :=
  match secret with
  | [] => []
  | s :: rest =>
      eval (polynomial coeff t i s) x :: evaluations coeff t (S i) rest x
  end.

Definition make_share (coeff : nat -> nat -> elt) (t : nat)
    (secret : list ascii) (x : elt) : share :=
  x :: evaluations coeff t 0 secret x.

(** The share identities: the byte values 1..n. *)
Definition identities (n : nat) : list elt := map ascii_of_nat (seq 1 n).

Definition valid_parameters (secret : list ascii) (n t : Z) : bool :=
  ((1 <=? t) && (t <=? n) && (n <=? 255))%Z
  && negb (Nat.eqb (List.length secret) 0).

(** Modelled from the spec: [Split(secret, n, t)] of section 4.1, missing
    with the package [shamir].  It fails with [InvalidParameters] unless
    1 <= t <= n <= 255 and the secret is not empty, and with
    [RandomnessUnavailable] without entropy; share [j] is the identity [j]
    followed by the value at [j] of one polynomial per byte of the secret. *)
Definition Split (rnd : Entropy) (secret : list ascii) (n t : Z)
  : ShamirError + list share :=
  if valid_parameters secret n t then
    match rnd with
    | Unavailable => inl RandomnessUnavailable
    | Draws coeff =>
        inr (map (make_share coeff (Z.to_nat t) secret)
                 (identities (Z.to_nat n)))
    end
  else inl InvalidParameters.

(** The Lagrange basis polynomial of the point [xj] at 0: the product of
    [xm / (xm - xj)] over the other points (subtraction is addition). *)
Fixpoint basis_at_zero (xj : elt) (others : list elt) : elt :=
  match others with
  | [] => one
  | xm :: rest => mul (div xm (add xm xj)) (basis_at_zero xj rest)
  end.

(** The sum, over the points from [pts] on, of [y * basis]; [before] holds
    the abscissas already passed. *)
Fixpoint interpolate_from (before : list elt) (pts : list (elt * elt))
  : elt :=
  match pts with
  | [] => zero
  | (x, y) :: rest =>
      add (mul y (basis_at_zero x (before ++ map fst rest)))
          (interpolate_from (before ++ [x]) rest)
  end.

Definition interpolate_at_zero (pts : list (elt * elt)) : elt :=
  interpolate_from [] pts.

Definition identity (s : share) : elt := hd zero s.

(** The point that share [s] gives for the byte position [i]. *)
Definition point (i : nat) (s : share) : elt * elt :=
  (identity s, nth (S i) s zero).

Definition same_lengths (shares : list share) : bool :=
  match shares with
  | [] => true
  | s :: rest =>
      forallb (fun s' => Nat.eqb (List.length s') (List.length s)) rest
  end.

Fixpoint distinct (xs : list elt) : bool :=
  match xs with
  | [] => true
  | x :: rest => negb (existsb (Ascii.eqb x) rest) && distinct rest
  end.

(** Modelled from the spec: [Combine(shares)] of section 4.1, missing with
    the package [shamir].  It wants at least one share, shares of equal
    length and pairwise distinct non-zero identities, and interpolates each
    byte position at 0. *)
Definition Combine (shares : list share) : ShamirError + list ascii :=
  match shares with
  | [] => inl InvalidParameters
  | first :: _ =>
      if negb (same_lengths shares) || Nat.eqb (List.length first) 0
      then inl MalformedShare
      else if existsb is_zero (map identity shares)
      then inl InvalidShareIdentity
      else if negb (distinct (map identity shares))
      then inl DuplicateShareIdentity
      else
        inr (map (fun i => interpolate_at_zero (map (point i) shares))
                 (seq 0 (List.length first - 1)))
  end.

End Shamir.

(* ================================================================== *)
(** ** Polynomials over GF(2^8), for the proofs                        *)
(* ================================================================== *)

Module Poly.

Import GF256.

(** A polynomial by its coefficients, constant term first. *)
Definition poly := list elt.

Fixpoint padd (p q : poly) : poly :=
  match p, q with
  | [], _ => q
  | _, [] => p
  | a :: p', b :: q' => add a b :: padd p' q'
  end.

Definition pscale (c : elt) (p : poly) : poly := map (mul c) p.

(** The product of [p] by the linear factor [z + a]. *)
Definition plinear (a : elt) (p : poly) : poly :=
  padd (zero :: p) (pscale a p).

(** The Lagrange basis polynomial of the point [xj] at [z]:
    [Shamir.basis_at_zero] is its value at 0. *)
Fixpoint basis_at (z xj : elt) (others : list elt) : elt :=
  match others with
  | [] => one
  | xm :: rest => mul (div (add z xm) (add xm xj)) (basis_at z xj rest)
  end.

(** The interpolating polynomial at [z]: [Shamir.interpolate_from] is its
    value at 0. *)
Fixpoint interpolate_at (z : elt) (before : list elt)
    (pts : list (elt * elt)) : elt :=
  match pts with
  | [] => zero
  | (x, y) :: rest =>
      add (mul y (basis_at z x (before ++ map fst rest)))
          (interpolate_at z (before ++ [x]) rest)
  end.

End Poly.

(* ================================================================== *)
(** ** Certificates, keys and the world around one invocation          *)
(* ================================================================== *)

(** [pkix.Name], the attributes that are set. *)
Record Name := {
  CommonName : string;
  Organization : list string;
  OrganizationalUnit : list string;
  Locality : list string;
  Province : list string;
  Country : list string
}.

(** An ECDSA P-256 key pair, by its private scalar; the public half is
    determined by it. *)
Record PrivateKey := { D : Z }.

Inductive PublicKey := PublicOf (d : Z).

Definition Public (k : PrivateKey) : PublicKey := PublicOf (D k).

(** [x509.KeyUsage] is an [int] bit set. *)
Definition KeyUsageDigitalSignature : Z := Z.shiftl 1 0.
Definition KeyUsageContentCommitment : Z := Z.shiftl 1 1.
Definition KeyUsageKeyEncipherment : Z := Z.shiftl 1 2.
Definition KeyUsageDataEncipherment : Z := Z.shiftl 1 3.
Definition KeyUsageKeyAgreement : Z := Z.shiftl 1 4.
Definition KeyUsageCertSign : Z := Z.shiftl 1 5.
Definition KeyUsageCRLSign : Z := Z.shiftl 1 6.
Definition KeyUsageEncipherOnly : Z := Z.shiftl 1 7.
Definition KeyUsageDecipherOnly : Z := Z.shiftl 1 8.

(** [x509.Certificate]: the fields of the template, and what
    [x509.CreateCertificate] adds (issuer, subject key, signing key). *)
Record Certificate := {
  SerialNumber : Z;
  Subject : Name;
  NotBefore : Z;
  NotAfter : Z;
  IsCA : bool;
  BasicConstraintsValid : bool;
  MaxPathLen : Z;
  MaxPathLenZero : bool;
  KeyUsage : Z;
  Issuer : Name;
  SubjectKey : PublicKey;
  SignedBy : PublicKey
}.

(** What a file holds: a PEM container of a certificate, a PEM container
    of a private key (its marshalled bytes), or plain bytes. *)
Inductive FileData :=
| CertificatePEM (c : Certificate)
| ECPrivateKeyPEM (der : list ascii)
| Bytes (raw : string).

Inductive Event :=
| KeyGenerated (k : PrivateKey)
| Wrote (path : string) (data : FileData)
| WriteFailed (path : string).

(** What one invocation finds around it and cannot influence: the clock,
    the entropy source, the certificate library, and which of its writes
    the file system accepts (by attempt number and path). *)
Record Env := {
  now : Z;
  rand_key : option PrivateKey;
  rand_serial : option Z;
  rand_split : Shamir.Entropy;
  x509_create_ok : bool;
  x509_marshal : PrivateKey -> option (list ascii);
  x509_parse_key : list ascii -> option PrivateKey;
  write_ok : nat -> string -> bool
}.

(** What one invocation changes: the files, and the trace of its effects
    in the order they happen. *)
Record State := {
  files : string -> option FileData;
  trace : list Event
}.

(** Computations of one invocation: state passing with errors. *)
Definition M (A : Type) : Type := State -> State * result A.

Definition ret {A} (a : A) : M A := fun st => (st, Ok a).

Definition fail {A} (e : error) : M A := fun st => (st, Err e).

Definition bindM {A B} (m : M A) (f : A -> M B) : M B :=
  fun st =>
    match m st with
    | (st', Ok a) => f a st'
    | (st', Err e) => (st', Err e)
    end.

Definition lift {A} (r : result A) : M A := fun st => (st, r).

Definition wrapM {A} (context : string) (m : M A) : M A :=
  fun st => let (st', r) := m st in (st', wrap context r).

Notation "x <-- m ;;; k" := (bindM m (fun x => k))
  (at level 61, m at next level, right associativity).
Notation "m ;;; k" := (bindM m (fun _ => k))
  (at level 61, right associativity).

Definition log (e : Event) : M unit :=
  fun st => ({| files := files st; trace := trace st ++ [e] |}, Ok tt).

Definition is_write (e : Event) : bool :=
  match e with
  | Wrote _ _ | WriteFailed _ => true
  | KeyGenerated _ => false
  end.

(** The number of writes attempted so far. *)
Definition attempts (st : State) : nat :=
  List.length (filter is_write (trace st)).

Definition update (fs : string -> option FileData) (path : string)
    (d : FileData) : string -> option FileData :=
  fun p => if String.eqb p path then Some d else fs p.

(** [os.WriteFile]: the file is replaced, or the write fails and the
    error names the path. *)
Definition WriteFile (env : Env) (path : string) (d : FileData) : M unit :=
  fun st =>
    if write_ok env (attempts st) path then
      ({| files := update (files st) path d;
          trace := trace st ++ [Wrote path d] |}, Ok tt)
    else
      ({| files := files st; trace := trace st ++ [WriteFailed path] |},
       Err (WriteFileFailed path)).

(** [os.ReadFile]. *)
Definition ReadFile (path : string) : M FileData :=
  fun st =>
    match files st path with
    | Some d => (st, Ok d)
    | None => (st, Err (CannotReadFile path))
    end.

(** The destinations written so far, in order. *)
Fixpoint written (tr : list Event) : list string :=
  match tr with
  | [] => []
  | Wrote p _ :: tr' => p :: written tr'
  | _ :: tr' => written tr'
  end.

(** 64-bit two's complement wrap-around. *)
Definition wrap64 (z : Z) : Z :=
  ((z + 2 ^ 63) mod 2 ^ 64 - 2 ^ 63)%Z.

(** [time.Hour], in nanoseconds. *)
Definition Hour : Z := (60 * 60 * 1000000000)%Z.

(* ================================================================== *)
(** ** [internal/utils/utils.go]                                       *)
(* ================================================================== *)

(** The flags of the three commands ([cmd.Flags()]); a flag that a command
    does not define reads as its zero value. *)
Record Flags := {
  flag_cn : string;
  flag_org : string;
  flag_ou : string;
  flag_locality : string;
  flag_province : string;
  flag_country : string;
  flag_days : Z;
  flag_n : Z;
  flag_t : Z;
  flag_pem_out : string;
  flag_shares_out : string;
  flag_issuing : bool;
  flag_parent_pem : string;
  flag_parent_shares_in : string;
  flag_ca_pem : string;
  flag_shares_in : string;
  flag_cert_out : string;
  flag_key_out : string;
  flag_digital_signature : bool;
  flag_key_encipherment : bool;
  flag_data_encipherment : bool;
  flag_key_agreement : bool;
  flag_crl_sign : bool;
  flag_encipher_only : bool;
  flag_decipher_only : bool
}.

Definition NewSerialNumber (env : Env) : M Z :=
  match rand_serial env with
  | Some serialNumber => ret serialNumber
  | None => fail (Wrapped "failed to generate serial number"
                          SerialNumberFailed)
  end.

(** [if v != "" { field = []string{v} }]. *)
Definition attribute (v : string) : list string :=
  if String.eqb v "" then [] else [v].

Definition BuildSubject (f : Flags) : result Name :=
  if String.eqb (flag_cn f) "" then Err CommonNameRequired
  else Ok {| CommonName := flag_cn f;
             Organization := attribute (flag_org f);
             OrganizationalUnit := attribute (flag_ou f);
             Locality := attribute (flag_locality f);
             Province := attribute (flag_province f);
             Country := attribute (flag_country f) |}.

(** [ecdsa.GenerateKey(elliptic.P256(), rand.Reader)]. *)
Definition GenerateKey (env : Env) : M PrivateKey :=
  match rand_key env with
  | Some priv => log (KeyGenerated priv) ;;; ret priv
  | None => fail KeyGenerationFailed
  end.

(** [x509.CreateCertificate(rand.Reader, template, parent, pub, priv)]
    followed by the PEM encoding: the template, issued under the parent's
    subject name and signed with [signer]. *)
Definition CreateCertificate (env : Env) (template : Certificate)
    (parentSubject : Name) (pub : PublicKey) (signer : PrivateKey)
  : M Certificate :=
  if x509_create_ok env then
    ret {| SerialNumber := SerialNumber template;
           Subject := Subject template;
           NotBefore := NotBefore template;
           NotAfter := NotAfter template;
           IsCA := IsCA template;
           BasicConstraintsValid := BasicConstraintsValid template;
           MaxPathLen := MaxPathLen template;
           MaxPathLenZero := MaxPathLenZero template;
           KeyUsage := KeyUsage template;
           Issuer := parentSubject;
           SubjectKey := pub;
           SignedBy := Public signer |}
  else fail CreateCertificateFailed.

Definition GenerateKeyAndCert (env : Env) (subject : Name)
    (parentCert : option Certificate) (parentKey : option PrivateKey)
    (isCA : bool) (validityDays : Z) (keyUsage : Z)
  : M (Certificate * PrivateKey) :=
  priv <-- wrapM "failed to generate ECDSA key" (GenerateKey env) ;;;
  serialNumber <--
    wrapM "failed to generate serial number" (NewSerialNumber env) ;;;
  let notBefore := now env in
  let notAfter :=
    (notBefore + wrap64 (wrap64 (validityDays * 24) * Hour))%Z in
  let keyUsage' :=
    if isCA then Z.lor keyUsage KeyUsageCertSign else keyUsage in
  let template :=
    {| SerialNumber := serialNumber;
       Subject := subject;
       NotBefore := notBefore;
       NotAfter := notAfter;
       IsCA := isCA;
       BasicConstraintsValid := true;
       MaxPathLen := if isCA then 1%Z else 0%Z;
       MaxPathLenZero := false;
       KeyUsage := keyUsage';
       Issuer := subject;
       SubjectKey := Public priv;
       SignedBy := Public priv |} in
  certPEM <--
    match parentCert, parentKey with
    | Some parent, Some key =>
        wrapM "failed to create certificate"
          (CreateCertificate env template (Subject parent) (Public priv) key)
    | _, _ =>
        wrapM "failed to create self-signed certificate"
          (CreateCertificate env template (Subject template) (Public priv)
             priv)
    end ;;;
  ret (certPEM, priv).

(** A file that is not a PEM container of a certificate gives no
    ["CERTIFICATE"] block. *)
Definition ParseCertificateFromFile (path : string) : M Certificate :=
  data <--
    wrapM ("unable to read certificate file '" ++ path ++ "'")
      (ReadFile path) ;;;
  match data with
  | CertificatePEM cert => ret cert
  | _ => fail PEMDecodeFailed
  end.

Definition WriteCertificateToFile (env : Env) (certPEM : Certificate)
    (outPath : string) : M unit :=
  WriteFile env outPath (CertificatePEM certPEM).

Definition MarshalECPrivateKey (env : Env) (privKey : PrivateKey)
  : M (list ascii) :=
  match x509_marshal env privKey with
  | Some keyBytes => ret keyBytes
  | None => fail (Wrapped "failed to marshal ECDSA private key"
                          MarshalKeyFailed)
  end.

Definition WriteECPrivateKeyToFile (env : Env) (privKey : PrivateKey)
    (outPath : string) : M unit :=
  keyBytes <-- MarshalECPrivateKey env privKey ;;;
  WriteFile env outPath (ECPrivateKeyPEM keyBytes).

Definition of_shamir {A} (r : ShamirError + A) : M A :=
  match r with
  | inr a => ret a
  | inl e => fail (ShamirFailed e)
  end.

(** The loop of [CombineSharesFromFiles]: read and decode each file in
    turn.  The text of a PEM container is not base64 (its delimiter lines
    are outside the alphabet). *)
Fixpoint read_shares (paths : list string) : M (list (list ascii)) :=
  match paths with
  | [] => ret []
  | path :: rest =>
      raw <--
        wrapM ("cannot read share file '" ++ path ++ "'")
          (ReadFile path) ;;;
      decoded <--
        wrapM ("failed to decode base64 from '" ++ path ++ "'")
          (match raw with
           | Bytes text =>
               match Base64.DecodeString text with
               | Some decoded => ret decoded
               | None => fail (CorruptBase64 path)
               end
           | _ => fail (CorruptBase64 path)
           end) ;;;
      shares <-- read_shares rest ;;;
      ret (decoded :: shares)
  end.

Definition CombineSharesFromFiles (paths : list string) : M (list ascii) :=
  shares <-- read_shares paths ;;;
  wrapM "shamir combine error" (of_shamir (Shamir.Combine shares)).

(** The loop of [SplitKeyAndWriteShares]: share [i] goes to
    [sharePaths[i]]; [paths] is what is left of [sharePaths].  Indexing
    past the end of the slice panics. *)
Fixpoint write_shares (env : Env) (shares : list (list ascii))
    (paths : list string) : M unit :=
  match shares with
  | [] => ret tt
  | s :: shares' =>
      match paths with
      | [] => fail IndexOutOfRange
      | path :: paths' =>
          wrapM ("failed to write share file '" ++ path ++ "'")
            (WriteFile env path (Bytes (Base64.EncodeToString s))) ;;;
          write_shares env shares' paths'
      end
  end.

Definition SplitKeyAndWriteShares (env : Env) (privKey : PrivateKey)
    (n t : Z) (sharePaths : list string) : M unit :=
  if negb (Z.of_nat (List.length sharePaths) =? n)%Z then
    fail (ShareCountMismatch (List.length sharePaths) n)
  else
    keyBytes <-- MarshalECPrivateKey env privKey ;;;
    shares <--
      wrapM "shamir split error"
        (of_shamir (Shamir.Split (rand_split env) keyBytes n t)) ;;;
    write_shares env shares sharePaths.

(* ================================================================== *)
(** ** The command-line front-end ([cmd/cli])                          *)
(* ================================================================== *)

Definition when (b : bool) (e : error) : M unit :=
  if b then fail e else ret tt.

Definition is_empty (s : string) : bool := String.eqb s "".

Definition createRootCmd (env : Env) (f : Flags) : M unit :=
  subject <-- lift (BuildSubject f) ;;;
  let days := flag_days f in
  let n := flag_n f in
  let t := flag_t f in
  let pemOut := flag_pem_out f in
  let sharesOutStr := flag_shares_out f in
  when (is_empty pemOut)
    (MustSpecify "--pem-out for the root CA certificate") ;;;
  when (is_empty sharesOutStr)
    (MustSpecify "--shares-out for storing the key shares") ;;;
  let sharePaths := ParseCommaSeparatedPaths sharesOutStr in
  when (Nat.eqb (List.length sharePaths) 0) (NoValidPaths "--shares-out") ;;;
  when (negb (n =? Z.of_nat (List.length sharePaths))%Z)
    (ShareCountMismatch (List.length sharePaths) n) ;;;
  let defaultRootKU :=
    Z.lor KeyUsageKeyEncipherment KeyUsageDigitalSignature in
  generated <--
    wrapM "failed to generate root CA"
      (GenerateKeyAndCert env subject None None true days defaultRootKU) ;;;
  let '(certPEM, privKey) := generated in
  wrapM ("failed to write root CA cert to '" ++ pemOut ++ "'")
    (WriteCertificateToFile env certPEM pemOut) ;;;
  wrapM "failed to split root key"
    (SplitKeyAndWriteShares env privKey n t sharePaths).

(** [x509.ParseECPrivateKey]. *)
Definition ParseECPrivateKey (env : Env) (der : list ascii) : M PrivateKey :=
  match x509_parse_key env der with
  | Some key => ret key
  | None => fail ParseKeyFailed
  end.

Definition createSubCACmd (env : Env) (f : Flags) : M unit :=
  subject <-- lift (BuildSubject f) ;;;
  let days := flag_days f in
  let parentPemPath := flag_parent_pem f in
  when (is_empty parentPemPath)
    (MustSpecify "--parent-pem for the parent CA certificate") ;;;
  parentCert <--
    wrapM "failed to parse parent CA certificate"
      (ParseCertificateFromFile parentPemPath) ;;;
  let parentSharePaths := ParseCommaSeparatedPaths (flag_parent_shares_in f) in
  when (Nat.eqb (List.length parentSharePaths) 0)
    (NoValidPaths "--parent-shares-in") ;;;
  parentKeyBytes <--
    wrapM "failed to combine parent CA shares"
      (CombineSharesFromFiles parentSharePaths) ;;;
  parentKey <--
    wrapM "failed to parse parent CA private key"
      (ParseECPrivateKey env parentKeyBytes) ;;;
  let defaultSubCAKU :=
    Z.lor KeyUsageDigitalSignature KeyUsageKeyEncipherment in
  generated <--
    wrapM "failed to generate subCA"
      (GenerateKeyAndCert env subject (Some parentCert) (Some parentKey)
         true days defaultSubCAKU) ;;;
  let '(subCACertPEM, subCAKey) := generated in
  let subCAPemOut := flag_pem_out f in
  when (is_empty subCAPemOut)
    (MustSpecify "--pem-out to store the subCA certificate") ;;;
  wrapM ("failed to write subCA certificate to '" ++ subCAPemOut ++ "'")
    (WriteCertificateToFile env subCACertPEM subCAPemOut) ;;;
  let n := flag_n f in
  let t := flag_t f in
  let sharePaths := ParseCommaSeparatedPaths (flag_shares_out f) in
  when (negb (n =? Z.of_nat (List.length sharePaths))%Z)
    (ShareCountMismatch (List.length sharePaths) n) ;;;
  wrapM "failed to split subCA key"
    (SplitKeyAndWriteShares env subCAKey n t sharePaths).

(** [ku |= bit] under [if flag]. *)
Definition usage_bit (flag : bool) (bit : Z) (ku : Z) : Z :=
  if flag then Z.lor ku bit else ku.

Definition signCmd (env : Env) (f : Flags) : M unit :=
  subject <-- lift (BuildSubject f) ;;;
  let days := flag_days f in
  let caPem := flag_ca_pem f in
  when (is_empty caPem)
    (MustSpecify "--ca-pem for the signing CA certificate") ;;;
  caCert <--
    wrapM ("failed to parse CA certificate from '" ++ caPem ++ "'")
      (ParseCertificateFromFile caPem) ;;;
  let sharesInPaths := ParseCommaSeparatedPaths (flag_shares_in f) in
  when (Nat.eqb (List.length sharesInPaths) 0) (NoValidPaths "--shares-in") ;;;
  caKeyBytes <--
    wrapM "failed to combine CA shares"
      (CombineSharesFromFiles sharesInPaths) ;;;
  caKey <--
    wrapM "failed to parse CA private key"
      (ParseECPrivateKey env caKeyBytes) ;;;
  let ku :=
    usage_bit (flag_decipher_only f) KeyUsageDecipherOnly
      (usage_bit (flag_encipher_only f) KeyUsageEncipherOnly
        (usage_bit (flag_crl_sign f) KeyUsageCRLSign
          (usage_bit (flag_key_agreement f) KeyUsageKeyAgreement
            (usage_bit (flag_data_encipherment f) KeyUsageDataEncipherment
              (usage_bit (flag_key_encipherment f) KeyUsageKeyEncipherment
                (usage_bit (flag_digital_signature f)
                   KeyUsageDigitalSignature 0%Z)))))) in
  generated <--
    wrapM "failed to sign leaf certificate"
      (GenerateKeyAndCert env subject (Some caCert) (Some caKey)
         false days ku) ;;;
  let '(certPEM, leafPrivKey) := generated in
  let certOut := flag_cert_out f in
  when (is_empty certOut)
    (MustSpecify "--cert-out for the signed certificate") ;;;
  wrapM ("failed to write signed certificate to '" ++ certOut ++ "'")
    (WriteCertificateToFile env certPEM certOut) ;;;
  let keyOut := flag_key_out f in
  if negb (is_empty keyOut) then
    wrapM ("failed to write leaf private key to '" ++ keyOut ++ "'")
      (WriteECPrivateKeyToFile env leafPrivKey keyOut)
  else ret tt.

(* ================================================================== *)
(** ** The graphical front-end ([cmd/gui/gui.go])                      *)
(* ================================================================== *)

(** The text of the entries and the state of the check boxes when a
    button is pressed. *)
Record Form := {
  cnEntry : string;
  orgEntry : string;
  ouEntry : string;
  localityEntry : string;
  provinceEntry : string;
  countryEntry : string;
  daysEntry : string;
  nEntry : string;
  tEntry : string;
  pemOutEntry : string;
  sharesOutEntry : string;
  issuingCheck : bool;
  parentPemEntry : string;
  parentSharesEntry : string;
  caPemEntry : string;
  sharesInEntry : string;
  certOutEntry : string;
  keyOutEntry : string;
  dsCheck : bool;
  keCheck : bool;
  deCheck : bool;
  kaCheck : bool;
  crlCheck : bool;
  eoCheck : bool;
  doCheck : bool
}.

Definition digit (c : ascii) : option Z :=
  let k := nat_of_ascii c in
  if (48 <=? k)%nat && (k <=? 57)%nat then Some (Z.of_nat (k - 48))
  else None.

Fixpoint digits (acc : Z) (s : list ascii) : option Z :=
  match s with
  | [] => Some acc
  | c :: rest =>
      match digit c with
      | Some d => digits (10 * acc + d)%Z rest
      | None => None
      end
  end.

(** [strconv.Atoi]: an optional sign, then at least one decimal digit; the
    value has to fit an [int] (64 bits). *)
Definition Atoi (s : string) : option Z :=
  let parse (negative : bool) (body : list ascii) :=
    match body with
    | [] => None
    | _ =>
        match digits 0%Z body with
        | Some v =>
            let v' := if negative then (- v)%Z else v in
            if ((- 2 ^ 63 <=? v') && (v' <? 2 ^ 63))%Z then Some v'
            else None
        | None => None
        end
    end in
  match list_ascii_of_string s with
  | [] => None
  | c :: rest =>
      if Ascii.eqb c "-"%char then parse true rest
      else if Ascii.eqb c "+"%char then parse false rest
      else parse false (c :: rest)
  end.

Definition atoi (context : string) (field : string) (text : string) : M Z :=
  match Atoi text with
  | Some v => ret v
  | None => fail (Wrapped context (InvalidNumber field))
  end.

Definition createSubjectFromInputs
    (cn org ou locality province country : string) : Name :=
  {| CommonName := cn;
     Organization := attribute org;
     OrganizationalUnit := attribute ou;
     Locality := attribute locality;
     Province := attribute province;
     Country := attribute country |}.

Definition subject_of_form (w : Form) : Name :=
  createSubjectFromInputs (cnEntry w) (orgEntry w) (ouEntry w)
    (localityEntry w) (provinceEntry w) (countryEntry w).

(** [strings.Split(strings.TrimSpace(text), ",")]. *)
Definition split_entry (text : string) : list string :=
  GoStrings.SplitComma (GoStrings.TrimSpace text).

(** The "Create Root CA" button of [createRootTab]; an error is what
    [showError] displays. *)
Definition createRootTab (env : Env) (w : Form) : M unit :=
  let subject := subject_of_form w in
  days <-- atoi "invalid days value" "days" (daysEntry w) ;;;
  n <-- atoi "invalid n" "n" (nEntry w) ;;;
  t <-- atoi "invalid t" "t" (tEntry w) ;;;
  when (is_empty (pemOutEntry w))
    (MustSpecify "output path for root cert (PEM Out)") ;;;
  let sharePaths := split_entry (sharesOutEntry w) in
  when (negb (Z.of_nat (List.length sharePaths) =? n)%Z)
    (ShareCountMismatch (List.length sharePaths) n) ;;;
  let ku := Z.lor KeyUsageKeyEncipherment KeyUsageDigitalSignature in
  generated <--
    wrapM "failed to generate root CA"
      (GenerateKeyAndCert env subject None None true days ku) ;;;
  let '(certPEM, privKey) := generated in
  wrapM "failed to write root CA cert"
    (WriteCertificateToFile env certPEM (pemOutEntry w)) ;;;
  wrapM "failed to split key"
    (SplitKeyAndWriteShares env privKey n t sharePaths).

(** The "Create SubCA" button of [createSubCATab]. *)
Definition createSubCATab (env : Env) (w : Form) : M unit :=
  let subject := subject_of_form w in
  days <-- atoi "invalid days" "days" (daysEntry w) ;;;
  when (is_empty (parentPemEntry w)) (MustSpecify "parent-pem") ;;;
  parentCert <--
    wrapM "failed to parse parent cert"
      (ParseCertificateFromFile (parentPemEntry w)) ;;;
  let parentSharePaths := split_entry (parentSharesEntry w) in
  when (Nat.eqb (List.length parentSharePaths) 0)
    (NoValidPaths "parent shares") ;;;
  parentKeyBytes <--
    wrapM "failed to combine parent shares"
      (CombineSharesFromFiles parentSharePaths) ;;;
  parentKey <--
    wrapM "failed to parse parent key"
      (ParseECPrivateKey env parentKeyBytes) ;;;
  let ku := Z.lor KeyUsageDigitalSignature KeyUsageKeyEncipherment in
  generated <--
    wrapM "failed to generate subCA"
      (GenerateKeyAndCert env subject (Some parentCert) (Some parentKey)
         true days ku) ;;;
  let '(subCertPEM, subKey) := generated in
  when (is_empty (pemOutEntry w))
    (MustSpecify "output path for subCA cert") ;;;
  wrapM "failed to write subCA cert"
    (WriteCertificateToFile env subCertPEM (pemOutEntry w)) ;;;
  n <-- atoi "invalid n" "n" (nEntry w) ;;;
  t <-- atoi "invalid t" "t" (tEntry w) ;;;
  let subSharePaths := split_entry (sharesOutEntry w) in
  when (negb (Z.of_nat (List.length subSharePaths) =? n)%Z)
    (ShareCountMismatch (List.length subSharePaths) n) ;;;
  wrapM "failed to split subCA key"
    (SplitKeyAndWriteShares env subKey n t subSharePaths).

(** The "Sign Leaf Certificate" button of [signTab]. *)
Definition signTab (env : Env) (w : Form) : M unit :=
  let subject := subject_of_form w in
  days <-- atoi "invalid days" "days" (daysEntry w) ;;;
  when (is_empty (caPemEntry w)) (MustSpecify "CA PEM path") ;;;
  caCert <--
    wrapM "failed to parse CA cert"
      (ParseCertificateFromFile (caPemEntry w)) ;;;
  let sharePaths := split_entry (sharesInEntry w) in
  when (Nat.eqb (List.length sharePaths) 0) (NoValidPaths "CA key shares") ;;;
  caKeyBytes <--
    wrapM "failed to combine CA shares"
      (CombineSharesFromFiles sharePaths) ;;;
  caKey <--
    wrapM "failed to parse CA key" (ParseECPrivateKey env caKeyBytes) ;;;
  let ku :=
    usage_bit (doCheck w) KeyUsageDecipherOnly
      (usage_bit (eoCheck w) KeyUsageEncipherOnly
        (usage_bit (crlCheck w) KeyUsageCRLSign
          (usage_bit (kaCheck w) KeyUsageKeyAgreement
            (usage_bit (deCheck w) KeyUsageDataEncipherment
              (usage_bit (keCheck w) KeyUsageKeyEncipherment
                (usage_bit (dsCheck w) KeyUsageDigitalSignature 0%Z)))))) in
  generated <--
    wrapM "failed to sign leaf"
      (GenerateKeyAndCert env subject (Some caCert) (Some caKey)
         false days ku) ;;;
  let '(certPEM, leafKey) := generated in
  when (is_empty (certOutEntry w)) (MustSpecify "leaf cert output path") ;;;
  wrapM "failed to write leaf cert"
    (WriteCertificateToFile env certPEM (certOutEntry w)) ;;;
  if negb (is_empty (keyOutEntry w)) then
    wrapM "failed to write leaf key"
      (WriteECPrivateKeyToFile env leafKey (keyOutEntry w))
  else ret tt.

(* ================================================================== *)
(** ** Sample inputs                                                    *)
(* ================================================================== *)

Module Sample.

(** A toy key codec standing for the ASN.1 encoding: one byte. *)
Definition marshal (k : PrivateKey) : option (list ascii) :=
  Some [ascii_of_N (Z.to_N (D k))].

Definition parse_key (der : list ascii) : option PrivateKey :=
  match der with
  | [b] => Some {| D := Z.of_N (N_of_ascii b) |}
  | _ => None
  end.

Definition coeff (i k : nat) : ascii := ascii_of_nat (17 * i + 29 * k + 3).

Definition key : PrivateKey := {| D := 42%Z |}.

(** All writes succeed. *)
Definition env : Env :=
  {| now := 1700000000000000000%Z;
     rand_key := Some key;
     rand_serial := Some 271828%Z;
     rand_split := Shamir.Draws coeff;
     x509_create_ok := true;
     x509_marshal := marshal;
     x509_parse_key := parse_key;
     write_ok := fun _ _ => true |}.

(** The write with attempt number [k] fails, the others succeed. *)
Definition env_failing_at (k : nat) : Env :=
  {| now := now env;
     rand_key := rand_key env;
     rand_serial := rand_serial env;
     rand_split := rand_split env;
     x509_create_ok := true;
     x509_marshal := marshal;
     x509_parse_key := parse_key;
     write_ok := fun i _ => negb (Nat.eqb i k) |}.

Definition empty : State := {| files := fun _ => None; trace := [] |}.

Definition subject : Name :=
  {| CommonName := "MyRootCA";
     Organization := ["MyOrganization"];
     OrganizationalUnit := [];
     Locality := [];
     Province := [];
     Country := [] |}.

(** The flags of one command line. *)
Definition flags (cn : string) (n t : Z)
    (pem_out shares_out parent_pem parent_shares_in : string)
    (ca_pem shares_in cert_out key_out : string) : Flags :=
  {| flag_cn := cn; flag_org := "MyOrg"; flag_ou := ""; flag_locality := "";
     flag_province := ""; flag_country := ""; flag_days := 365%Z;
     flag_n := n; flag_t := t; flag_pem_out := pem_out;
     flag_shares_out := shares_out;
     flag_issuing := true; flag_parent_pem := parent_pem;
     flag_parent_shares_in := parent_shares_in; flag_ca_pem := ca_pem;
     flag_shares_in := shares_in;
     flag_cert_out := cert_out; flag_key_out := key_out;
     flag_digital_signature := true; flag_key_encipherment := true;
     flag_data_encipherment := false; flag_key_agreement := false;
     flag_crl_sign := false; flag_encipher_only := false;
     flag_decipher_only := false |}.

(** [create-root --cn RootCA --n 3 --t 2 --pem-out rootCA.pem
     --shares-out root-share1.txt,root-share2.txt,root-share3.txt]. *)
Definition create_root : Flags :=
  flags "RootCA" 3 2 "rootCA.pem"
    "root-share1.txt,root-share2.txt,root-share3.txt" "" "" "" "" "" "".

(** The files after [create_root]. *)
Definition with_root : State :=
  {| files := files (fst (createRootCmd env create_root empty));
     trace := [] |}.

(** [sign --ca-pem rootCA.pem --shares-in root-share1.txt,root-share3.txt
     --cn myserver.local --cert-out myserver.pem --key-out <key_out>]. *)
Definition sign (key_out : string) : Flags :=
  flags "myserver.local" 0 0 "" "" "" "" "rootCA.pem"
    "root-share1.txt,root-share3.txt" "myserver.pem" key_out.

(** [create-subca] under that root, with [n] and the share destinations
    given. *)
Definition create_subca (n : Z) (shares_out : string) : Flags :=
  flags "IntermediateCA" n 2 "subCA.pem" shares_out "rootCA.pem"
    "root-share2.txt,root-share3.txt" "" "" "" "".

(** [create-root] with one share destination named twice. *)
Definition create_root_twice : Flags :=
  flags "RootCA" 3 2 "rootCA.pem" "a.txt,b.txt,a.txt" "" "" "" "" "" "".

(** The entries of one tab of the window. *)
Definition form (cn n : string)
    (pem_out shares_out parent_pem parent_shares : string)
    (ca_pem shares_in cert_out key_out : string) : Form :=
  {| cnEntry := cn; orgEntry := ""; ouEntry := ""; localityEntry := "";
     provinceEntry := ""; countryEntry := ""; daysEntry := "365";
     nEntry := n; tEntry := "2"; pemOutEntry := pem_out;
     sharesOutEntry := shares_out; issuingCheck := false;
     parentPemEntry := parent_pem; parentSharesEntry := parent_shares;
     caPemEntry := ca_pem; sharesInEntry := shares_in;
     certOutEntry := cert_out; keyOutEntry := key_out;
     dsCheck := true; keCheck := false; deCheck := false;
     kaCheck := false; crlCheck := false; eoCheck := false;
     doCheck := false |}.

(** The "Create Root CA" tab, three shares. *)
Definition root_form (cn : string) : Form :=
  form cn "3" "rootCA.pem" "s1.txt,s2.txt,s3.txt" "" "" "" "" "" "".

(** The "Create SubCA" tab under the root of [with_root]. *)
Definition subca_form (cn n shares_out : string) : Form :=
  form cn n "subCA.pem" shares_out "rootCA.pem"
    "root-share1.txt,root-share2.txt" "" "" "" "".

(** The "Sign Leaf" tab under the root of [with_root]. *)
Definition sign_form (cn key_out : string) : Form :=
  form cn "" "" "" "" "" "rootCA.pem" "root-share2.txt,root-share3.txt"
    "leaf.pem" key_out.

(** One run of each handler that follows [create_root]. *)
Definition subca : Flags := create_subca 3 "sub1.txt,sub2.txt,sub3.txt".

Definition leaf : Flags := sign "myserver-key.pem".

Definition root_tab : Form := root_form "RootCA".

Definition subca_tab : Form :=
  subca_form "IntermediateCA" "3" "g1.txt,g2.txt,g3.txt".

Definition leaf_tab : Form := sign_form "leaf.local" "leaf-key.pem".

(** [create-subca] under that root, without [--pem-out]. *)
Definition subca_without_pem_out : Flags :=
  flags "IntermediateCA" 3 2 "" "sub1.txt,sub2.txt,sub3.txt" "rootCA.pem"
    "root-share2.txt,root-share3.txt" "" "" "" "".

(** The "Create SubCA" tab with the parent shares entry left empty. *)
Definition subca_tab_without_shares : Form :=
  form "IntermediateCA" "3" "subCA.pem" "g1.txt,g2.txt,g3.txt" "rootCA.pem"
    "" "" "" "" "".

End Sample.

(* ================================================================== *)
(** ** Predicates of the properties                                     *)
(* ================================================================== *)

(** What Issue-Leaf may do with the new private key, for the key-export
    destination [keyOut]: every file written by the invocation is the
    certificate or the key in its PEM container at [keyOut], which is then
    not empty; and an invocation that succeeds with a destination has
    written the key there. *)
Definition leaf_key_custody (env : Env) (keyOut : string)
    (st st' : State) (r : result unit) : Prop :=
  exists evs,
    trace st' = trace st ++ evs
    /\ (forall p d, In (Wrote p d) evs ->
          (exists c, d = CertificatePEM c)
          \/ (keyOut <> "" /\ p = keyOut
              /\ exists k der,
                   In (KeyGenerated k) evs
                   /\ x509_marshal env k = Some der
                   /\ d = ECPrivateKeyPEM der))
    /\ (r = Ok tt -> keyOut <> "" ->
          exists k der,
            In (KeyGenerated k) evs
            /\ x509_marshal env k = Some der
            /\ In (Wrote keyOut (ECPrivateKeyPEM der)) evs
            /\ files st' keyOut = Some (ECPrivateKeyPEM der)).

(** The events of writing the shares [shares] to the destinations
    [paths], one after the other. *)
Definition share_writes (paths : list string) (shares : list (list ascii))
  : list Event :=
  map (fun ps => Wrote (fst ps) (Bytes (Base64.EncodeToString (snd ps))))
      (combine paths shares).

(** A clean entry: not empty, no blank rune at either end. *)
Definition clean (p : string) : Prop :=
  p <> "" /\ GoStrings.leading_space p = false
  /\ GoStrings.trailing_space p = false.

(** A computation that leaves the state as it is. *)
Definition pure {A} (m : M A) : Prop :=
  forall st st' r, m st = (st', r) -> st' = st.

(** The share at a position of [paths] and of [shares]. *)
Definition share_of (paths : list string) (shares : list (list ascii))
    (p : string) (s : list ascii) : Prop :=
  exists j, nth_error paths j = Some p /\ nth_error shares j = Some s.

(* ================================================================== *)
(** ** The share entries of the form, and predicates on paths          *)
(* ================================================================== *)

(** The callback of the "Add Share File", "Add Parent Share", "Add Share
    Out" and "Add CA Share" buttons: the new path replaces an empty entry
    and is appended after a comma otherwise. *)
Definition appendPath (existing newPath : string) : string :=
  if String.eqb existing "" then newPath else existing ++ "," ++ newPath.

(** The text of an entry after the paths were added one by one. *)
Definition entry_after (paths : list string) : string :=
  fold_left appendPath paths "".

(** A string without a comma. *)
Definition comma_free (s : string) : Prop :=
  ~ In GoStrings.comma (list_ascii_of_string s).

(** Byte sequences joined with commas ([strings.Join(parts, ",")]). *)
Fixpoint joinb (parts : list GoStrings.bytes) : GoStrings.bytes :=
  match parts with
  | [] => []
  | p :: rest =>
      match rest with
      | [] => p
      | _ => p ++ GoStrings.comma :: joinb rest
      end
  end.

(** A byte sequence made of blank runes only. *)
Inductive all_blank (encs : list GoStrings.bytes) : GoStrings.bytes -> Prop :=
| all_blank_nil : all_blank encs []
| all_blank_rune e s :
    In e encs -> all_blank encs s -> all_blank encs (e ++ s).

(** A computation whose only effects are writes of base64 text (share
    files) to destinations among [paths]: no key is generated, and every
    other file is left as it is. *)
Definition shares_only {A} (paths : list string) (m : M A) : Prop :=
  forall st st' r, m st = (st', r) ->
    exists evs,
      trace st' = trace st ++ evs
      /\ (forall k, ~ In (KeyGenerated k) evs)
      /\ (forall p d, In (Wrote p d) evs ->
            In p paths /\ exists s, d = Bytes (Base64.EncodeToString s))
      /\ (forall p, ~ In p paths -> files st' p = files st p).

(** What [GenerateKeyAndCert] puts into the certificate [c] it issues for
    [subject] at the request of a command. *)
Definition issued (env : Env) (subject : Name)
    (parentCert : option Certificate) (parentKey : option PrivateKey)
    (isCA : bool) (validityDays ku : Z) (c : Certificate) : Prop :=
  Subject c = subject
  /\ IsCA c = isCA
  /\ KeyUsage c = (if isCA then Z.lor ku KeyUsageCertSign else ku)
  /\ MaxPathLen c = (if isCA then 1 else 0)%Z
  /\ NotBefore c = now env
  /\ NotAfter c
     = (now env + wrap64 (wrap64 (validityDays * 24) * Hour))%Z
  /\ exists k,
       rand_key env = Some k
       /\ SubjectKey c = Public k
       /\ match parentCert, parentKey with
          | Some parent, Some key =>
              Issuer c = Subject parent /\ SignedBy c = Public key
          | _, _ => Issuer c = subject /\ SignedBy c = Public k
          end.

(** A computation that generates no key and writes only files that
    satisfy [Q]. *)
Definition writes_only {A} (Q : string -> FileData -> Prop) (m : M A)
  : Prop :=
  forall st st' r, m st = (st', r) ->
    exists evs,
      trace st' = trace st ++ evs
      /\ (forall k, ~ In (KeyGenerated k) evs)
      /\ (forall p d, In (Wrote p d) evs -> Q p d).

(** What an issuance has done between [st] and [st']: it generated at most
    one key, the one the entropy source gives, before it wrote anything,
    and every file it wrote is the certificate at [certOut], satisfying
    [P], or a file that satisfies [Q]. *)
Definition issuance (env : Env) (certOut : string)
    (P : Certificate -> Prop) (Q : string -> FileData -> Prop)
    (st st' : State) : Prop :=
  exists keys writes,
    trace st' = trace st ++ keys ++ writes
    /\ (keys = []
        \/ exists k, rand_key env = Some k /\ keys = [KeyGenerated k])
    /\ (forall k, ~ In (KeyGenerated k) writes)
    /\ (forall p d, In (Wrote p d) writes ->
          (p = certOut /\ exists c, d = CertificatePEM c /\ P c) \/ Q p d).

(** A share file at one of [paths]. *)
Definition share_file (paths : list string) (p : string) (d : FileData)
  : Prop :=
  In p paths /\ exists s, d = Bytes (Base64.EncodeToString s).

(** The private key in its PEM container at [keyOut]. *)
Definition key_file (keyOut : string) (p : string) (d : FileData) : Prop :=
  keyOut <> "" /\ p = keyOut /\ exists der, d = ECPrivateKeyPEM der.

(** The key usage that [signCmd] and [signTab] build from their seven
    switches. *)
Definition leaf_usage (ds ke de ka crl eo do : bool) : Z :=
  usage_bit do KeyUsageDecipherOnly
    (usage_bit eo KeyUsageEncipherOnly
      (usage_bit crl KeyUsageCRLSign
        (usage_bit ka KeyUsageKeyAgreement
          (usage_bit de KeyUsageDataEncipherment
            (usage_bit ke KeyUsageKeyEncipherment
              (usage_bit ds KeyUsageDigitalSignature 0%Z)))))).

(** The subject that the command line asks for. *)
Definition subject_of_flags (f : Flags) : Name :=
  createSubjectFromInputs (flag_cn f) (flag_org f) (flag_ou f)
    (flag_locality f) (flag_province f) (flag_country f).

(** The key usage that the handlers give to a CA before
    [GenerateKeyAndCert] adds the certificate-signing bit. *)
Definition ca_usage : Z := Z.lor KeyUsageKeyEncipherment KeyUsageDigitalSignature.

(** What a handler has done when it stopped right after the generation
    of the key pair. *)
Definition generated_only (env : Env) (st st' : State) : Prop :=
  files st' = files st
  /\ exists k,
       rand_key env = Some k /\ trace st' = trace st ++ [KeyGenerated k].

(* ================================================================== *)
(** * Properties                                                        *)
(* ================================================================== *)

(** ** Facts about [strings.TrimSpace] and [ParseCommaSeparatedPaths]  *)

Module GoStringsFacts.

Import GoStrings.

Lemma strip_prefix_length p : forall s r,
  strip_prefix p s = Some r -> List.length s = List.length p + List.length r.
Proof.
  induction p as [|a p IH]; intros s r H; simpl in *.
  - now inversion H.
  - destruct s as [|b s]; [discriminate|].
    destruct (Ascii.eqb a b); [|discriminate].
    simpl. now rewrite (IH _ _ H).
Qed.

Lemma strip_prefix_app p : forall s r v,
  strip_prefix p s = Some r -> strip_prefix p (s ++ v) = Some (r ++ v).
Proof.
  induction p as [|a p IH]; intros s r v H; simpl in *.
  - now inversion H.
  - destruct s as [|b s]; [discriminate|]. simpl.
    destruct (Ascii.eqb a b); [|discriminate]. now apply IH.
Qed.

Lemma strip_prefix_split p : forall s r,
  strip_prefix p s = Some r -> s = p ++ r.
Proof.
  induction p as [|a p IH]; intros s r H; simpl in *.
  - now inversion H.
  - destruct s as [|b s]; [discriminate|].
    destruct (Ascii.eqb a b) eqn:E; [|discriminate].
    apply Ascii.eqb_eq in E. subst b. now rewrite (IH _ _ H).
Qed.

Section Trim.

Variable encs : list bytes.
Hypothesis encs_nonempty : Forall (fun e => e <> []) encs.

Lemma strip_one_shorter : forall s r,
  strip_one encs s = Some r -> List.length r < List.length s.
Proof.
  induction encs as [|e l IH]; intros s r H; simpl in H.
  - discriminate.
  - inversion encs_nonempty as [|? ? He Hl]; subst.
    destruct (strip_prefix e s) as [r'|] eqn:E.
    + inversion H; subst r'. apply strip_prefix_length in E.
      destruct e; [now elim He|]. simpl in E. lia.
    + now apply IH.
Qed.

Lemma strip_one_split : forall s r,
  strip_one encs s = Some r -> exists e, In e encs /\ s = e ++ r.
Proof.
  clear encs_nonempty.
  induction encs as [|e l IH]; intros s r H; simpl in H.
  - discriminate.
  - destruct (strip_prefix e s) as [r'|] eqn:E.
    + inversion H; subst r'. exists e. split; [now left|].
      now apply strip_prefix_split.
    + destruct (IH _ _ H) as (e' & Hin & Hs). exists e'. split; [now right|].
      exact Hs.
Qed.

Lemma strip_one_app : forall s v,
  strip_one encs (s ++ v) = None -> strip_one encs s = None.
Proof.
  clear encs_nonempty.
  induction encs as [|e l IH]; intros s v H; simpl in *.
  - reflexivity.
  - destruct (strip_prefix e s) as [r|] eqn:E.
    + rewrite (strip_prefix_app _ _ _ v E) in H. discriminate.
    + destruct (strip_prefix e (s ++ v)); [discriminate|]. now apply IH with v.
Qed.

Lemma trim_loop_done : forall fuel s,
  List.length s <= fuel -> strip_one encs (trim_loop encs fuel s) = None.
Proof.
  induction fuel as [|fuel IH]; intros s Hlen; simpl.
  - destruct (strip_one encs s) as [r|] eqn:E; [|reflexivity].
    apply strip_one_shorter in E. lia.
  - destruct (strip_one encs s) as [r|] eqn:E; [|exact E].
    apply IH. apply strip_one_shorter in E. lia.
Qed.

Lemma trim_loop_suffix : forall fuel s,
  exists pre, s = pre ++ trim_loop encs fuel s.
Proof.
  clear encs_nonempty.
  induction fuel as [|fuel IH]; intros s; simpl.
  - now exists [].
  - destruct (strip_one encs s) as [r|] eqn:E; [|now exists []].
    destruct (strip_one_split _ _ E) as (e & _ & ->).
    destruct (IH r) as (pre & Hpre). exists (e ++ pre).
    rewrite <- app_assoc. now rewrite <- Hpre.
Qed.

Lemma trimLeft_done s : strip_one encs (trimLeft encs s) = None.
Proof. apply trim_loop_done. apply Nat.le_refl. Qed.

Lemma trimLeft_suffix s : exists pre, s = pre ++ trimLeft encs s.
Proof. apply trim_loop_suffix. Qed.

End Trim.

Lemma space_encodings_nonempty : Forall (fun e => e <> []) space_encodings.
Proof. unfold space_encodings; simpl. repeat constructor; discriminate. Qed.

Lemma reversed_encodings_nonempty :
  Forall (fun e => e <> []) (map (@rev ascii) space_encodings).
Proof. unfold space_encodings; simpl. repeat constructor; discriminate. Qed.

Lemma TrimSpaceBytes_no_leading s :
  strip_one space_encodings (TrimSpaceBytes s) = None.
Proof.
  unfold TrimSpaceBytes, trimRight.
  set (l := trimLeft space_encodings s).
  destruct (trimLeft_suffix (map (@rev ascii) space_encodings) (rev l))
    as (pre & Hpre).
  apply strip_one_app with (v := rev pre).
  rewrite <- rev_app_distr, <- Hpre, rev_involutive.
  apply trimLeft_done, space_encodings_nonempty.
Qed.

Lemma TrimSpaceBytes_no_trailing s :
  strip_one (map (@rev ascii) space_encodings) (rev (TrimSpaceBytes s)) = None.
Proof.
  unfold TrimSpaceBytes, trimRight. rewrite rev_involutive.
  apply trimLeft_done, reversed_encodings_nonempty.
Qed.

Lemma TrimSpace_no_leading s : leading_space (TrimSpace s) = false.
Proof.
  unfold leading_space, TrimSpace.
  rewrite list_ascii_of_string_of_list_ascii.
  now rewrite TrimSpaceBytes_no_leading.
Qed.

Lemma TrimSpace_no_trailing s : trailing_space (TrimSpace s) = false.
Proof.
  unfold trailing_space, TrimSpace.
  rewrite list_ascii_of_string_of_list_ascii.
  now rewrite TrimSpaceBytes_no_trailing.
Qed.

End GoStringsFacts.

Lemma nonempty_true s : nonempty s = true <-> s <> "".
Proof. destruct s; simpl; split; congruence. Qed.

Lemma nonempty_false s : nonempty s = false <-> s = "".
Proof. destruct s; simpl; split; congruence. Qed.

(** What [keep_trimmed] keeps: the trimmed segments that are not empty,
    in order. *)
Lemma keep_trimmed_filter parts :
  keep_trimmed parts = filter nonempty (map GoStrings.TrimSpace parts).
Proof.
  induction parts as [|p rest IH]; simpl; [reflexivity|].
  destruct (nonempty (GoStrings.TrimSpace p)); now rewrite IH.
Qed.

(** C10. [ParseCommaSeparatedPaths] returns only entries that are not empty
    and neither start nor end with a blank rune; an input that is empty or
    blank gives the empty list; otherwise the result is the list of the
    trimmed comma-separated segments without the empty ones, in order: a
    segment that is empty or blank is dropped, and every entry is the
    trimmed form of a segment that is not blank. *)
Theorem ParseCommaSeparatedPaths_clean (input : string) :
  Forall clean (ParseCommaSeparatedPaths input)
  /\ (GoStrings.blank input -> ParseCommaSeparatedPaths input = [])
  /\ (~ GoStrings.blank input ->
      ParseCommaSeparatedPaths input
      = filter nonempty
          (map GoStrings.TrimSpace (GoStrings.SplitComma input)))
  /\ (forall p, In p (ParseCommaSeparatedPaths input) ->
        exists seg, In seg (GoStrings.SplitComma input)
                    /\ ~ GoStrings.blank seg /\ p = GoStrings.TrimSpace seg).
Proof.
  unfold ParseCommaSeparatedPaths, GoStrings.blank.
  destruct (nonempty (GoStrings.TrimSpace input)) eqn:E.
  - rewrite keep_trimmed_filter. apply nonempty_true in E.
    split; [|split; [|split]].
    + apply Forall_forall. intros p Hp. apply filter_In in Hp.
      destruct Hp as [Hin Hne]. apply in_map_iff in Hin.
      destruct Hin as (seg & <- & _). split; [now apply nonempty_true|].
      split; [apply GoStringsFacts.TrimSpace_no_leading
             |apply GoStringsFacts.TrimSpace_no_trailing].
    + intros H. contradiction.
    + reflexivity.
    + intros p Hp. apply filter_In in Hp. destruct Hp as [Hin Hne].
      apply in_map_iff in Hin. destruct Hin as (seg & <- & Hseg).
      exists seg. split; [exact Hseg|]. split; [|reflexivity].
      now apply nonempty_true.
  - apply nonempty_false in E. split; [constructor|].
    split; [reflexivity|]. split; [intros H; contradiction|intros p []].
Qed.

Lemma ParseCommaSeparatedPaths_clean_witness :
  ParseCommaSeparatedPaths "  " = []
  /\ ParseCommaSeparatedPaths " a.txt , ,b.txt,," = ["a.txt"; "b.txt"]
  /\ exists seg, In seg (GoStrings.SplitComma " a.txt , ,b.txt,,")
                 /\ ~ GoStrings.blank seg /\ "b.txt" = GoStrings.TrimSpace seg.
Proof.
  destruct (ParseCommaSeparatedPaths_clean "  ") as (_ & Hblank & _).
  destruct (ParseCommaSeparatedPaths_clean " a.txt , ,b.txt,,")
    as (_ & _ & Hlist & Hseg).
  split; [apply Hblank; reflexivity|].
  split; [rewrite Hlist; [reflexivity|vm_compute; discriminate]|].
  apply Hseg. rewrite Hlist; [|vm_compute; discriminate].
  vm_compute. tauto.
Defined.

(* ================================================================== *)
(** ** The state-and-error monad                                       *)
(* ================================================================== *)

Lemma bindM_inv {A B} (m : M A) (f : A -> M B) st st' r :
  bindM m f st = (st', r) ->
  (exists a st1, m st = (st1, Ok a) /\ f a st1 = (st', r))
  \/ (exists e, m st = (st', Err e) /\ r = Err e).
Proof.
  unfold bindM. destruct (m st) as [st1 [a|e]]; intros H.
  - left. now exists a, st1.
  - right. exists e. now inversion H.
Qed.

Lemma bindM_ok {A B} (m : M A) (f : A -> M B) st st' b :
  bindM m f st = (st', Ok b) ->
  exists a st1, m st = (st1, Ok a) /\ f a st1 = (st', Ok b).
Proof.
  intros H. apply bindM_inv in H. destruct H as [H|(e & _ & H)];
    [exact H|discriminate].
Qed.

Lemma wrapM_inv {A} context (m : M A) st st' r :
  wrapM context m st = (st', r) ->
  exists r0, m st = (st', r0) /\ r = wrap context r0.
Proof.
  unfold wrapM. destruct (m st) as [st1 r0]. intros H. inversion H.
  now exists r0.
Qed.

Lemma wrapM_ok {A} context (m : M A) st st' a :
  wrapM context m st = (st', Ok a) -> m st = (st', Ok a).
Proof.
  intros H. apply wrapM_inv in H. destruct H as (r0 & Hm & Hr).
  destruct r0; simpl in Hr; [now inversion Hr|discriminate].
Qed.

Lemma when_inv b e st st' r :
  when b e st = (st', r) ->
  st' = st /\ ((b = false /\ r = Ok tt) \/ (b = true /\ r = Err e)).
Proof.
  unfold when, fail, ret. destruct b; intros H; inversion H; auto.
Qed.

(* ================================================================== *)
(** ** [GenerateKeyAndCert]                                            *)
(* ================================================================== *)

(** What a successful call returns and does: the key is the one drawn, the
    only effect is its generation, and the certificate carries the fields
    of the template. *)
Lemma GenerateKeyAndCert_ok env subject parentCert parentKey isCA d ku
    st st' cert priv :
  GenerateKeyAndCert env subject parentCert parentKey isCA d ku st
  = (st', Ok (cert, priv)) ->
  rand_key env = Some priv
  /\ files st' = files st
  /\ trace st' = trace st ++ [KeyGenerated priv]
  /\ Subject cert = subject
  /\ NotBefore cert = now env
  /\ NotAfter cert = (now env + wrap64 (wrap64 (d * 24) * Hour))%Z
  /\ IsCA cert = isCA
  /\ KeyUsage cert = (if isCA then Z.lor ku KeyUsageCertSign else ku)
  /\ MaxPathLen cert = (if isCA then 1 else 0)%Z
  /\ MaxPathLenZero cert = false
  /\ SubjectKey cert = Public priv.
Proof.
  unfold GenerateKeyAndCert, bindM, wrapM, GenerateKey, NewSerialNumber,
    CreateCertificate, log, ret, fail.
  destruct (rand_key env) as [k|]; [|discriminate].
  destruct (rand_serial env) as [serial|]; [|discriminate].
  destruct parentCert as [pc|], parentKey as [pk|];
    destruct (x509_create_ok env); simpl; intros H; inversion H; subst;
    simpl; repeat split; reflexivity.
Qed.

(** Whatever the outcome, a call writes nothing and generates at most one
    key. *)
Lemma GenerateKeyAndCert_effects env subject parentCert parentKey isCA d ku
    st st' r :
  GenerateKeyAndCert env subject parentCert parentKey isCA d ku st
  = (st', r) ->
  files st' = files st
  /\ (trace st' = trace st
      \/ exists k, rand_key env = Some k
                   /\ trace st' = trace st ++ [KeyGenerated k]).
Proof.
  unfold GenerateKeyAndCert, bindM, wrapM, GenerateKey, NewSerialNumber,
    CreateCertificate, log, ret, fail.
  destruct (rand_key env) as [k|];
    [|simpl; intros H; inversion H; subst; auto].
  destruct (rand_serial env) as [serial|];
    [|simpl; intros H; inversion H; subst; simpl; eauto].
  destruct parentCert as [pc|], parentKey as [pk|];
    destruct (x509_create_ok env); simpl; intros H; inversion H; subst;
    simpl; eauto.
Qed.

Lemma wrap64_small z :
  (- 2 ^ 63 <= z < 2 ^ 63)%Z -> wrap64 z = z.
Proof.
  intros H. unfold wrap64. rewrite Z.mod_small; lia.
Qed.

(** C6, as the code has it: for a validity of [d] days with
    -106751 <= d <= 106751 (the day counts whose length in nanoseconds
    fits a 64-bit [time.Duration]), [NotBefore] is the issuance time and
    [NotAfter] is [NotBefore] plus exactly [d] times 24 hours. *)
Theorem GenerateKeyAndCert_validity env subject parentCert parentKey isCA
    d ku st st' cert priv :
  (-106751 <= d <= 106751)%Z ->
  GenerateKeyAndCert env subject parentCert parentKey isCA d ku st
  = (st', Ok (cert, priv)) ->
  NotBefore cert = now env
  /\ NotAfter cert = (NotBefore cert + d * (24 * Hour))%Z.
Proof.
  intros Hd H. apply GenerateKeyAndCert_ok in H.
  destruct H as (_ & _ & _ & _ & Hnb & Hna & _).
  split; [exact Hnb|]. rewrite Hna, Hnb. f_equal.
  unfold Hour in *.
  rewrite (wrap64_small (d * 24)) by lia.
  rewrite wrap64_small by lia. lia.
Qed.

Lemma GenerateKeyAndCert_validity_witness :
  exists st' cert priv,
    GenerateKeyAndCert Sample.env Sample.subject None None true 365%Z 5%Z
      Sample.empty = (st', Ok (cert, priv))
    /\ NotBefore cert = now Sample.env
    /\ (NotAfter cert - NotBefore cert = 365 * (24 * Hour))%Z.
Proof.
  eexists. eexists. eexists.
  assert (H : GenerateKeyAndCert Sample.env Sample.subject None None true
                365%Z 5%Z Sample.empty
              = (_, Ok (_, _))) by (vm_compute; reflexivity).
  split; [exact H|].
  destruct (GenerateKeyAndCert_validity _ _ _ _ _ 365%Z _ _ _ _ _
              ltac:(lia) H) as [Hnb Hna].
  split; [exact Hnb|]. rewrite Hna. lia.
Defined.

(** C6 as stated fails: 106752 days are more nanoseconds than a 64-bit
    [time.Duration] holds; the product wraps around and [NotAfter] is not
    [NotBefore] plus 106752 times 24 hours (it lies before [NotBefore]). *)
Lemma GenerateKeyAndCert_validity_overflow :
  exists st' cert priv,
    GenerateKeyAndCert Sample.env Sample.subject None None true 106752%Z 5%Z
      Sample.empty = (st', Ok (cert, priv))
    /\ NotAfter cert <> (NotBefore cert + 106752 * (24 * Hour))%Z
    /\ (NotAfter cert < NotBefore cert)%Z.
Proof.
  eexists. eexists. eexists.
  split; [vm_compute; reflexivity|].
  split; vm_compute; congruence.
Qed.

Lemma CertSign_bit : Z.testbit KeyUsageCertSign 5 = true.
Proof. reflexivity. Qed.

(** C7. A certificate generated with [isCA = true], self-signed or signed
    by a parent, is marked as a CA and its key usage is the caller's base
    bits OR-ed with the certificate-signing bit; that bit is set whatever
    the base bits are. *)
Theorem GenerateKeyAndCert_ca_key_usage env subject parentCert parentKey
    d ku st st' cert priv :
  GenerateKeyAndCert env subject parentCert parentKey true d ku st
  = (st', Ok (cert, priv)) ->
  IsCA cert = true
  /\ KeyUsage cert = Z.lor ku KeyUsageCertSign
  /\ Z.testbit (KeyUsage cert) 5 = true
  /\ Z.land (KeyUsage cert) KeyUsageCertSign = KeyUsageCertSign.
Proof.
  intros H. apply GenerateKeyAndCert_ok in H.
  destruct H as (_ & _ & _ & _ & _ & _ & Hca & Hku & _).
  split; [exact Hca|]. split; [exact Hku|]. rewrite Hku. split.
  - rewrite Z.lor_spec, CertSign_bit. apply orb_true_r.
  - apply Z.bits_inj'. intros i _. rewrite Z.land_spec, Z.lor_spec.
    destruct (Z.testbit ku i), (Z.testbit KeyUsageCertSign i); reflexivity.
Qed.

Lemma GenerateKeyAndCert_ca_key_usage_witness :
  exists st' cert priv,
    GenerateKeyAndCert Sample.env Sample.subject None None true 365%Z 0%Z
      Sample.empty = (st', Ok (cert, priv))
    /\ IsCA cert = true
    /\ KeyUsage cert = KeyUsageCertSign.
Proof.
  eexists. eexists. eexists.
  assert (H : GenerateKeyAndCert Sample.env Sample.subject None None true
                365%Z 0%Z Sample.empty
              = (_, Ok (_, _))) by (vm_compute; reflexivity).
  split; [exact H|].
  destruct (GenerateKeyAndCert_ca_key_usage _ _ _ _ _ _ _ _ _ _ H)
    as (Hca & Hku & _).
  split; [exact Hca|]. rewrite Hku. reflexivity.
Defined.

(** C3, as the code has it: a certificate issued under a parent with
    [isCA = true], as Issue-Subordinate does, is marked as a CA and carries
    the fixed path-length constraint 1 ([MaxPathLenZero] unset), whatever
    the constraint of the parent certificate. *)
Theorem GenerateKeyAndCert_subordinate_path_length env subject parentCert
    parentKey d ku st st' cert priv :
  GenerateKeyAndCert env subject (Some parentCert) (Some parentKey) true
    d ku st = (st', Ok (cert, priv)) ->
  IsCA cert = true
  /\ MaxPathLen cert = 1%Z
  /\ MaxPathLenZero cert = false
  /\ Issuer cert = Subject parentCert.
Proof.
  intros H. pose proof (GenerateKeyAndCert_ok _ _ _ _ _ _ _ _ _ _ _ H)
    as (_ & _ & _ & _ & _ & _ & Hca & _ & Hlen & Hzero & _).
  repeat (split; [assumption|]).
  revert H.
  unfold GenerateKeyAndCert, bindM, wrapM, GenerateKey, NewSerialNumber,
    CreateCertificate, log, ret, fail.
  destruct (rand_key env); [|discriminate].
  destruct (rand_serial env); [|discriminate].
  destruct (x509_create_ok env); simpl; intros H; inversion H; reflexivity.
Qed.

Lemma GenerateKeyAndCert_subordinate_path_length_witness :
  exists root st' cert priv,
    GenerateKeyAndCert Sample.env Sample.subject (Some root)
      (Some Sample.key) true 365%Z 5%Z Sample.empty = (st', Ok (cert, priv))
    /\ IsCA cert = true /\ MaxPathLen cert = 1%Z.
Proof.
  assert (R : exists st root key,
             GenerateKeyAndCert Sample.env Sample.subject None None true
               365%Z 5%Z Sample.empty = (st, Ok (root, key)))
    by (eexists; eexists; eexists; vm_compute; reflexivity).
  destruct R as (_ & root & _ & _). exists root.
  eexists. eexists. eexists.
  assert (H : GenerateKeyAndCert Sample.env Sample.subject (Some root)
                (Some Sample.key) true 365%Z 5%Z Sample.empty
              = (_, Ok (_, _))) by (vm_compute; reflexivity).
  split; [exact H|].
  destruct (GenerateKeyAndCert_subordinate_path_length _ _ _ _ _ _ _ _ _ _ H)
    as (Hca & Hlen & _).
  split; assumption.
Defined.

(** C3 as stated fails: a subordinate CA issued under a root of this tool
    (path-length constraint 1) carries the constraint 1 again, not 0. *)
Lemma GenerateKeyAndCert_path_length_not_decremented :
  exists st1 root rootKey st2 sub subKey,
    GenerateKeyAndCert Sample.env Sample.subject None None true 365%Z 5%Z
      Sample.empty = (st1, Ok (root, rootKey))
    /\ GenerateKeyAndCert Sample.env Sample.subject (Some root)
         (Some rootKey) true 365%Z 5%Z st1 = (st2, Ok (sub, subKey))
    /\ MaxPathLen root = 1%Z
    /\ MaxPathLen sub <> (MaxPathLen root - 1)%Z.
Proof.
  do 6 eexists.
  split; [vm_compute; reflexivity|].
  split; [vm_compute; reflexivity|].
  split; [reflexivity|]. vm_compute. discriminate.
Qed.

(* ================================================================== *)
(** ** Computations without effects                                    *)
(* ================================================================== *)

Lemma pure_ret {A} (a : A) : pure (ret a).
Proof. intros st st' r H. now inversion H. Qed.

Lemma pure_fail {A} e : pure (@fail A e).
Proof. intros st st' r H. now inversion H. Qed.

Lemma pure_lift {A} (x : result A) : pure (lift x).
Proof. intros st st' r H. now inversion H. Qed.

Lemma pure_when b e : pure (when b e).
Proof. intros st st' r H. now apply when_inv in H. Qed.

Lemma pure_wrapM {A} context (m : M A) : pure m -> pure (wrapM context m).
Proof.
  intros Hm st st' r H. apply wrapM_inv in H. destruct H as (r0 & H & _).
  now apply Hm in H.
Qed.

Lemma pure_bindM {A B} (m : M A) (f : A -> M B) :
  pure m -> (forall a, pure (f a)) -> pure (bindM m f).
Proof.
  intros Hm Hf st st' r H. apply bindM_inv in H.
  destruct H as [(a & st1 & H1 & H2)|(e & H1 & _)].
  - apply Hm in H1. subst st1. now apply Hf in H2.
  - now apply Hm in H1.
Qed.

Lemma pure_ReadFile path : pure (ReadFile path).
Proof.
  intros st st' r. unfold ReadFile.
  destruct (files st path); intros H; now inversion H.
Qed.

Lemma pure_atoi context field text : pure (atoi context field text).
Proof.
  unfold atoi. destruct (Atoi text); [apply pure_ret|apply pure_fail].
Qed.

Lemma pure_of_shamir {A} (x : ShamirError + A) : pure (of_shamir x).
Proof. destruct x; [apply pure_fail|apply pure_ret]. Qed.

Lemma pure_MarshalECPrivateKey env k : pure (MarshalECPrivateKey env k).
Proof.
  unfold MarshalECPrivateKey.
  destruct (x509_marshal env k); [apply pure_ret|apply pure_fail].
Qed.

Lemma pure_ParseECPrivateKey env der : pure (ParseECPrivateKey env der).
Proof.
  unfold ParseECPrivateKey.
  destruct (x509_parse_key env der); [apply pure_ret|apply pure_fail].
Qed.

Lemma pure_ParseCertificateFromFile path :
  pure (ParseCertificateFromFile path).
Proof.
  unfold ParseCertificateFromFile. apply pure_bindM.
  - apply pure_wrapM, pure_ReadFile.
  - intros [c|der|raw]; [apply pure_ret|apply pure_fail|apply pure_fail].
Qed.

Lemma pure_read_shares paths : pure (read_shares paths).
Proof.
  induction paths as [|path rest IH]; simpl; [apply pure_ret|].
  apply pure_bindM; [apply pure_wrapM, pure_ReadFile|]. intros raw.
  apply pure_bindM.
  - apply pure_wrapM. destruct raw as [c|der|text]; try apply pure_fail.
    destruct (Base64.DecodeString text); [apply pure_ret|apply pure_fail].
  - intros decoded. apply pure_bindM; [exact IH|]. intros shares.
    apply pure_ret.
Qed.

Lemma pure_CombineSharesFromFiles paths :
  pure (CombineSharesFromFiles paths).
Proof.
  unfold CombineSharesFromFiles. apply pure_bindM; [apply pure_read_shares|].
  intros shares. apply pure_wrapM, pure_of_shamir.
Qed.

Create HintDb pure_db.
#[export] Hint Resolve pure_ret pure_fail pure_lift pure_when pure_wrapM
  pure_ReadFile pure_atoi pure_of_shamir pure_MarshalECPrivateKey
  pure_ParseECPrivateKey pure_ParseCertificateFromFile pure_read_shares
  pure_CombineSharesFromFiles : pure_db.

(** [os.WriteFile] either replaces the file or fails, and says which. *)
Lemma WriteFile_inv env path d st st' r :
  WriteFile env path d st = (st', r) ->
  (r = Ok tt
   /\ write_ok env (attempts st) path = true
   /\ trace st' = trace st ++ [Wrote path d]
   /\ files st' = update (files st) path d)
  \/ (r = Err (WriteFileFailed path)
      /\ write_ok env (attempts st) path = false
      /\ trace st' = trace st ++ [WriteFailed path]
      /\ files st' = files st).
Proof.
  unfold WriteFile. destruct (write_ok env (attempts st) path);
    intros H; inversion H; subst; simpl; auto.
Qed.

(** One step of a sequence: the first computation returns and the rest
    runs, or it fails and so does the sequence. *)
Tactic Notation "step" hyp(H) "as" simple_intropattern(a) ident(st1)
    ident(H1) :=
  apply bindM_inv in H;
  destruct H as [(a & st1 & H1 & H)|(? & H1 & H)].

Ltac use_pure H1 :=
  match type of H1 with
  | ?m ?s = _ =>
      let P := fresh "P" in
      assert (P : pure m) by eauto 8 with pure_db;
      apply P in H1; clear P
  end.

(** A step without effects. *)
Tactic Notation "pure_step" hyp(H) "as" simple_intropattern(a) :=
  let st1 := fresh "st" in
  let H1 := fresh "Hpure" in
  apply bindM_inv in H;
  destruct H as [(a & st1 & H1 & H)|(? & H1 & H)];
  [ use_pure H1; subst st1 | use_pure H1; subst ].

(* ================================================================== *)
(** ** Issue-Leaf: what happens to the new private key                 *)
(* ================================================================== *)

Lemma update_same fs path d : update fs path d path = Some d.
Proof. unfold update. now rewrite String.eqb_refl. Qed.

Lemma is_empty_true s : is_empty s = true <-> s = "".
Proof. unfold is_empty. apply String.eqb_eq. Qed.

Lemma is_empty_false s : is_empty s = false <-> s <> "".
Proof. unfold is_empty. apply String.eqb_neq. Qed.

Lemma MarshalECPrivateKey_ok env k st st' der :
  MarshalECPrivateKey env k st = (st', Ok der) ->
  st' = st /\ x509_marshal env k = Some der.
Proof.
  unfold MarshalECPrivateKey, ret, fail.
  destruct (x509_marshal env k); intros H; inversion H; auto.
Qed.

(** The part of [signCmd] and of [signTab] from the generation of the
    leaf key on, whatever the texts of the error messages. *)
Lemma leaf_tail_custody env ctx1 msg ctx2 ctx3 subject caCert caKey days ku
    certOut keyOut st st' r :
  (generated <--
     wrapM ctx1
       (GenerateKeyAndCert env subject (Some caCert) (Some caKey)
          false days ku) ;;;
   let '(certPEM, leafPrivKey) := generated in
   when (is_empty certOut) (MustSpecify msg) ;;;
   wrapM ctx2 (WriteCertificateToFile env certPEM certOut) ;;;
   if negb (is_empty keyOut) then
     wrapM ctx3 (WriteECPrivateKeyToFile env leafPrivKey keyOut)
   else ret tt) st = (st', r) ->
  leaf_key_custody env keyOut st st' r.
Proof.
  intros H. unfold leaf_key_custody. step H as [cert priv] st0 Hgen.
  - apply wrapM_ok in Hgen. apply GenerateKeyAndCert_ok in Hgen.
    destruct Hgen as (Hkey & Hfiles & Htrace & _).
    pure_step H as [].
    + step H as [] st1 Hcert.
      * apply wrapM_ok in Hcert. apply WriteFile_inv in Hcert.
        destruct Hcert as [(_ & _ & Htr1 & Hf1)|(? & _)]; [|discriminate].
        destruct (is_empty keyOut) eqn:Hko; simpl in H.
        -- inversion H; subst st' r.
           exists [KeyGenerated priv; Wrote certOut (CertificatePEM cert)].
           split; [rewrite Htr1, Htrace, <- app_assoc; reflexivity|].
           split.
           ++ intros p d [E|[E|[]]]; inversion E; subst. left. eauto.
           ++ intros _ Hne. apply is_empty_true in Hko. contradiction.
        -- apply is_empty_false in Hko. apply wrapM_inv in H.
           destruct H as (r0 & H & ->). unfold WriteECPrivateKeyToFile in H.
           step H as der st2 Hder.
           ++ apply MarshalECPrivateKey_ok in Hder.
              destruct Hder as [-> Hder]. apply WriteFile_inv in H.
              destruct H as [(-> & _ & Htr2 & Hf2)|(-> & _ & Htr2 & Hf2)].
              ** exists [KeyGenerated priv;
                         Wrote certOut (CertificatePEM cert);
                         Wrote keyOut (ECPrivateKeyPEM der)].
                 split; [rewrite Htr2, Htr1, Htrace, <- !app_assoc;
                         reflexivity|].
                 split.
                 --- intros p d [E|[E|[E|[]]]]; inversion E; subst;
                       [left; eauto|right].
                     split; [exact Hko|]. split; [reflexivity|].
                     exists priv, der.
                     split; [left; reflexivity|].
                     split; [exact Hder|reflexivity].
                 --- intros _ _. exists priv, der.
                     split; [left; reflexivity|].
                     split; [exact Hder|].
                     split; [right; right; left; reflexivity|].
                     rewrite Hf2. apply update_same.
              ** exists [KeyGenerated priv;
                         Wrote certOut (CertificatePEM cert);
                         WriteFailed keyOut].
                 split; [rewrite Htr2, Htr1, Htrace, <- !app_assoc;
                         reflexivity|].
                 split; [|discriminate].
                 intros p d [E|[E|[E|[]]]]; inversion E; subst. left; eauto.
           ++ subst r0. apply pure_MarshalECPrivateKey in Hder.
              subst st'.
              exists [KeyGenerated priv; Wrote certOut (CertificatePEM cert)].
              split; [rewrite Htr1, Htrace, <- app_assoc; reflexivity|].
              split; [|discriminate].
              intros p d [E|[E|[]]]; inversion E; subst. left; eauto.
      * subst r. apply wrapM_inv in Hcert. destruct Hcert as (r0 & Hw & _).
        apply WriteFile_inv in Hw.
        destruct Hw as [(_ & _ & Htr1 & _)|(_ & _ & Htr1 & _)].
        -- exists [KeyGenerated priv; Wrote certOut (CertificatePEM cert)].
           split; [rewrite Htr1, Htrace, <- app_assoc; reflexivity|].
           split; [|discriminate].
           intros p d [E|[E|[]]]; inversion E; subst. left; eauto.
        -- exists [KeyGenerated priv; WriteFailed certOut].
           split; [rewrite Htr1, Htrace, <- app_assoc; reflexivity|].
           split; [|discriminate].
           intros p d [E|[E|[]]]; inversion E.
    + exists [KeyGenerated priv]. split; [exact Htrace|].
      split; [|discriminate]. intros p d [E|[]]; inversion E.
  - subst r. apply wrapM_inv in Hgen. destruct Hgen as (r0 & Hg & _).
    apply GenerateKeyAndCert_effects in Hg.
    destruct Hg as (_ & [Htr|(k & _ & Htr)]).
    + exists []. split; [now rewrite app_nil_r|].
      split; [intros p d []|discriminate].
    + exists [KeyGenerated k]. split; [exact Htr|].
      split; [|discriminate]. intros p d [E|[]]; inversion E.
Qed.

Lemma custody_nothing env keyOut st e :
  leaf_key_custody env keyOut st st (Err e).
Proof.
  exists []. split; [now rewrite app_nil_r|].
  split; [intros p d []|discriminate].
Qed.

Lemma signCmd_custody env f st st' r :
  signCmd env f st = (st', r) ->
  leaf_key_custody env (flag_key_out f) st st' r.
Proof.
  intros H. unfold signCmd in H.
  pure_step H as subject; [|apply custody_nothing].
  pure_step H as []; [|apply custody_nothing].
  pure_step H as caCert; [|apply custody_nothing].
  pure_step H as []; [|apply custody_nothing].
  pure_step H as caKeyBytes; [|apply custody_nothing].
  pure_step H as caKey; [|apply custody_nothing].
  now apply leaf_tail_custody in H.
Qed.

Lemma signTab_custody env w st st' r :
  signTab env w st = (st', r) ->
  leaf_key_custody env (keyOutEntry w) st st' r.
Proof.
  intros H. unfold signTab in H.
  pure_step H as days; [|apply custody_nothing].
  pure_step H as []; [|apply custody_nothing].
  pure_step H as caCert; [|apply custody_nothing].
  pure_step H as []; [|apply custody_nothing].
  pure_step H as caKeyBytes; [|apply custody_nothing].
  pure_step H as caKey; [|apply custody_nothing].
  now apply leaf_tail_custody in H.
Qed.



(* ================================================================== *)
(** ** Issuance: the subject and the count of share destinations       *)
(* ================================================================== *)

(** The command line refuses an empty common name before anything else:
    the three commands return the error of [BuildSubject] and leave the
    state as it is. *)
Lemma cli_requires_common_name env f st :
  flag_cn f = "" ->
  createRootCmd env f st = (st, Err CommonNameRequired)
  /\ createSubCACmd env f st = (st, Err CommonNameRequired)
  /\ signCmd env f st = (st, Err CommonNameRequired)
  /\ is_SubjectInvalid CommonNameRequired = true.
Proof.
  intros Hcn.
  unfold createRootCmd, createSubCACmd, signCmd, bindM, lift, BuildSubject.
  rewrite Hcn. simpl. auto.
Qed.

(** C4 at its failing input: the form has no such check.  With an empty
    "Common Name" entry the three buttons succeed, and the certificate
    they write has an empty common name. *)
Theorem gui_accepts_empty_common_name :
  (exists st' c,
     createRootTab Sample.env (Sample.root_form "") Sample.empty
     = (st', Ok tt)
     /\ files st' "rootCA.pem" = Some (CertificatePEM c)
     /\ CommonName (Subject c) = "")
  /\ (exists st' c,
       createSubCATab Sample.env
         (Sample.subca_form "" "2" "sub1.txt,sub2.txt") Sample.with_root
       = (st', Ok tt)
       /\ files st' "subCA.pem" = Some (CertificatePEM c)
       /\ CommonName (Subject c) = "")
  /\ (exists st' c,
       signTab Sample.env (Sample.sign_form "" "") Sample.with_root
       = (st', Ok tt)
       /\ files st' "leaf.pem" = Some (CertificatePEM c)
       /\ CommonName (Subject c) = "").
Proof.
  split; [|split]; do 2 eexists;
    (split; [vm_compute; reflexivity|]);
    (split; [vm_compute; reflexivity|reflexivity]).
Qed.

(** Issue-Root compares the count of share destinations with [n] before
    it generates anything: on a mismatch the command fails and the state
    (files and trace) is as before. *)
Lemma createRootCmd_count_checked_first env f st st' r :
  createRootCmd env f st = (st', r) ->
  flag_n f
  <> Z.of_nat (List.length (ParseCommaSeparatedPaths (flag_shares_out f))) ->
  st' = st /\ exists e, r = Err e.
Proof.
  intros H Hn. unfold createRootCmd in H.
  pure_step H as subject; [|eauto].
  pure_step H as []; [|eauto].
  pure_step H as []; [|eauto].
  pure_step H as []; [|eauto].
  step H as [] st1 Hcount; apply when_inv in Hcount;
    destruct Hcount as [-> [[Hb Hr]|[Hb Hr]]]; try discriminate.
  - apply negb_false_iff, Z.eqb_eq in Hb. contradiction.
  - subst r. eauto.
Qed.

Lemma createRootTab_count_checked_first env w st st' r n :
  createRootTab env w st = (st', r) ->
  Atoi (nEntry w) = Some n ->
  n <> Z.of_nat (List.length (split_entry (sharesOutEntry w))) ->
  st' = st /\ exists e, r = Err e.
Proof.
  intros H Hatoi Hn. unfold createRootTab in H.
  pure_step H as days; [|eauto].
  step H as n' st1 Hn'; [|unfold atoi in Hn'; rewrite Hatoi in Hn';
                           discriminate].
  unfold atoi in Hn'. rewrite Hatoi in Hn'. inversion Hn'; subst n' st1.
  pure_step H as t; [|eauto].
  pure_step H as []; [|eauto].
  step H as [] st1 Hcount; apply when_inv in Hcount;
    destruct Hcount as [-> [[Hb Hr]|[Hb Hr]]]; try discriminate.
  - apply negb_false_iff, Z.eqb_eq in Hb. symmetry in Hb. contradiction.
  - subst r. eauto.
Qed.

(** C2 at its failing input: Issue-Subordinate, from the command line and
    from the form, is given two share destinations for n = 3.  It fails
    with the count mismatch, but only after it has generated the key pair
    of the subordinate CA and written its certificate; the key is lost. *)
Theorem subordinate_key_generated_before_count_check :
  (exists st' c,
     createSubCACmd Sample.env (Sample.create_subca 3 "sub1.txt,sub2.txt")
       Sample.with_root = (st', Err (ShareCountMismatch 2 3))
     /\ trace st'
        = [KeyGenerated Sample.key; Wrote "subCA.pem" (CertificatePEM c)]
     /\ is_ShareTargetMismatch (ShareCountMismatch 2 3) = true)
  /\ (exists st' c,
       createSubCATab Sample.env
         (Sample.subca_form "IntermediateCA" "3" "sub1.txt,sub2.txt")
         Sample.with_root = (st', Err (ShareCountMismatch 2 3))
       /\ trace st'
          = [KeyGenerated Sample.key; Wrote "subCA.pem" (CertificatePEM c)]).
Proof.
  split; do 2 eexists.
  - split; [vm_compute; reflexivity|]. split; reflexivity.
  - split; [vm_compute; reflexivity|reflexivity].
Qed.

(* ================================================================== *)
(** ** Writing the shares                                              *)
(* ================================================================== *)

Lemma written_app tr1 tr2 : written (tr1 ++ tr2) = written tr1 ++ written tr2.
Proof.
  induction tr1 as [|[k|p d|p] tr1 IH]; simpl; [reflexivity|exact IH| |exact IH].
  now rewrite IH.
Qed.

Lemma written_share_writes : forall paths shares,
  List.length paths <= List.length shares ->
  written (share_writes paths shares) = paths.
Proof.
  unfold share_writes.
  induction paths as [|p paths IH]; intros [|s shares] Hlen; simpl in *;
    try reflexivity; try lia.
  rewrite IH by lia. reflexivity.
Qed.

(** A failed run of the loop: the slice of destinations is too short, or
    the write at some position [i] failed after the writes at the positions
    before it, and nothing else happened. *)
Lemma write_shares_error env : forall shares paths st st' e,
  write_shares env shares paths st = (st', Err e) ->
  e = IndexOutOfRange
  \/ exists i p,
       nth_error paths i = Some p
       /\ i < List.length shares
       /\ e = Wrapped ("failed to write share file '" ++ p ++ "'")
                      (WriteFileFailed p)
       /\ trace st'
          = trace st ++ share_writes (firstn i paths) (firstn i shares)
            ++ [WriteFailed p].
Proof.
  induction shares as [|s shares IH]; intros paths st st' e H; simpl in H.
  - discriminate.
  - destruct paths as [|path paths]; [left; now inversion H|].
    step H as [] st1 Hw.
    + apply wrapM_ok in Hw. apply WriteFile_inv in Hw.
      destruct Hw as [(_ & _ & Htr & _)|(? & _)]; [|discriminate].
      apply IH in H. destruct H as [H|(i & p & Hnth & Hi & He & Htr')];
        [now left|right].
      exists (S i), p. split; [exact Hnth|]. split; [simpl; lia|].
      split; [exact He|]. rewrite Htr', Htr. simpl.
      now rewrite <- app_assoc.
    + right. apply wrapM_inv in Hw. destruct Hw as (r0 & Hw & Hr).
      apply WriteFile_inv in Hw.
      destruct Hw as [(-> & _)|(-> & _ & Htr & _)]; [discriminate|].
      unfold wrap in Hr. exists 0, path. split; [reflexivity|].
      split; [simpl; lia|]. split; [|exact Htr].
      inversion H; subst. inversion Hr. reflexivity.
Qed.

Lemma of_shamir_ok {A} (x : ShamirError + A) st st' a :
  of_shamir x st = (st', Ok a) -> st' = st /\ x = inr a.
Proof.
  destruct x; simpl; unfold ret, fail; intros H; inversion H; auto.
Qed.

(** C9, as the code has it: when [SplitKeyAndWriteShares] fails on a write,
    the error names one destination, the one whose write failed.  The
    shares go to the destinations in the order of the list: the
    destinations before the failing position have been written, each with
    the base64 text of its share, and no write was attempted after it. *)
Theorem SplitKeyAndWriteShares_write_error env privKey n t sharePaths
    st st' e p :
  SplitKeyAndWriteShares env privKey n t sharePaths st = (st', Err e) ->
  root_cause e = WriteFileFailed p ->
  exists i shares,
    nth_error sharePaths i = Some p
    /\ e = Wrapped ("failed to write share file '" ++ p ++ "'")
                   (WriteFileFailed p)
    /\ trace st'
       = trace st ++ share_writes (firstn i sharePaths) (firstn i shares)
         ++ [WriteFailed p]
    /\ written (share_writes (firstn i sharePaths) (firstn i shares)
                ++ [WriteFailed p])
       = firstn i sharePaths.
Proof.
  intros H Hroot. unfold SplitKeyAndWriteShares in H.
  destruct (negb (Z.of_nat (List.length sharePaths) =? n)%Z).
  { inversion H; subst. discriminate Hroot. }
  step H as keyBytes st1 Hm.
  2:{ inversion H; subst. unfold MarshalECPrivateKey, ret, fail in Hm.
      destruct (x509_marshal env privKey); inversion Hm; subst.
      discriminate Hroot. }
  apply MarshalECPrivateKey_ok in Hm. destruct Hm as [-> _].
  step H as shares st1 Hs.
  2:{ inversion H; subst. apply wrapM_inv in Hs.
      destruct Hs as (r0 & Hs & Hr).
      destruct (Shamir.Split (rand_split env) keyBytes n t);
        simpl in Hs; unfold ret, fail in Hs; inversion Hs; subst;
        simpl in Hr; inversion Hr; subst. discriminate Hroot. }
  apply wrapM_ok, of_shamir_ok in Hs. destruct Hs as [-> _].
  apply write_shares_error in H.
  destruct H as [->|(i & q & Hnth & Hi & -> & Htr)]; [discriminate Hroot|].
  simpl in Hroot. inversion Hroot; subst q.
  exists i, shares. repeat (split; [assumption || reflexivity|]).
  rewrite written_app, written_share_writes; simpl.
  - apply app_nil_r.
  - rewrite !length_firstn. lia.
Qed.

Lemma SplitKeyAndWriteShares_write_error_witness :
  exists st' e i,
    SplitKeyAndWriteShares (Sample.env_failing_at 1) Sample.key 3 2
      ["a.txt"; "b.txt"; "c.txt"] Sample.empty = (st', Err e)
    /\ nth_error ["a.txt"; "b.txt"; "c.txt"] i = Some "b.txt"
    /\ written (trace st') = firstn i ["a.txt"; "b.txt"; "c.txt"].
Proof.
  assert (R : exists st' e,
             SplitKeyAndWriteShares (Sample.env_failing_at 1) Sample.key 3 2
               ["a.txt"; "b.txt"; "c.txt"] Sample.empty = (st', Err e)
             /\ root_cause e = WriteFileFailed "b.txt")
    by (do 2 eexists; split; vm_compute; reflexivity).
  destruct R as (st' & e & R & Hroot). exists st', e.
  destruct (SplitKeyAndWriteShares_write_error _ _ _ _ _ _ _ _ _ R Hroot)
    as (i & shares & Hnth & _ & Htr & Hw).
  exists i. split; [exact R|]. split; [exact Hnth|].
  rewrite Htr. exact Hw.
Defined.

(** C9 as stated fails: the error does not tell which destinations were
    written.  The same command line, with one destination named twice,
    fails with the same error when the first write of a share fails
    (no share written) and when the third one fails (two shares written);
    the certificate is persisted in both runs. *)
Lemma share_write_error_does_not_identify_written :
  exists e stA stB,
    createRootCmd (Sample.env_failing_at 1) Sample.create_root_twice
      Sample.empty = (stA, Err e)
    /\ createRootCmd (Sample.env_failing_at 3) Sample.create_root_twice
         Sample.empty = (stB, Err e)
    /\ root_cause e = WriteFileFailed "a.txt"
    /\ written (trace stA) = ["rootCA.pem"]
    /\ written (trace stB) = ["rootCA.pem"; "a.txt"; "b.txt"].
Proof.
  do 3 eexists.
  split; [vm_compute; reflexivity|].
  split; [vm_compute; reflexivity|].
  split; [reflexivity|]. split; reflexivity.
Qed.

(* ================================================================== *)
(** ** GF(2^8) is a field                                              *)
(* ================================================================== *)

Module GF256Facts.

Import GF256.

Lemma forall_bool_spec (P : bool -> bool) :
  forall_bool P = true -> forall b, P b = true.
Proof.
  unfold forall_bool. intros H b. apply andb_prop in H.
  destruct b; tauto.
Qed.

Lemma forall_elt_spec (P : elt -> bool) :
  forall_elt P = true -> forall a, P a = true.
Proof.
  unfold forall_elt. intros H [b0 b1 b2 b3 b4 b5 b6 b7].
  revert b7. apply forall_bool_spec. revert b6. apply forall_bool_spec.
  revert b5. apply forall_bool_spec. revert b4. apply forall_bool_spec.
  revert b3. apply forall_bool_spec. revert b2. apply forall_bool_spec.
  revert b1. apply forall_bool_spec. revert b0. apply forall_bool_spec.
  exact H.
Qed.

Lemma add_comm a b : add a b = add b a.
Proof.
  destruct a, b; simpl. f_equal; apply xorb_comm.
Qed.

Lemma add_assoc a b c : add a (add b c) = add (add a b) c.
Proof.
  destruct a, b, c; simpl. f_equal; symmetry; apply xorb_assoc.
Qed.

Lemma add_0_l a : add zero a = a.
Proof. destruct a; reflexivity. Qed.

Lemma add_0_r a : add a zero = a.
Proof. rewrite add_comm. apply add_0_l. Qed.

Lemma add_self a : add a a = zero.
Proof.
  destruct a; unfold add. simpl. now rewrite !xorb_nilpotent.
Qed.

(** In characteristic 2 a sum is zero exactly when its terms are equal. *)
Lemma add_eq_zero a b : add a b = zero <-> a = b.
Proof.
  split.
  - intros H. rewrite <- (add_0_r a), <- (add_self b), add_assoc, H.
    apply add_0_l.
  - intros ->. apply add_self.
Qed.

Lemma xtime_zero : xtime zero = zero.
Proof. reflexivity. Qed.

Lemma xtime_add a b : xtime (add a b) = add (xtime a) (xtime b).
Proof.
  destruct a as [a0 a1 a2 a3 a4 a5 a6 a7], b as [b0 b1 b2 b3 b4 b5 b6 b7].
  simpl. f_equal;
    repeat rewrite xorb_assoc; try reflexivity.
  - destruct a0, a7, b0, b7; reflexivity.
  - destruct a2, a7, b2, b7; reflexivity.
  - destruct a3, a7, b3, b7; reflexivity.
Qed.

Lemma scale_add p a b : scale p (add a b) = add (scale p a) (scale p b).
Proof. destruct p; reflexivity. Qed.

Lemma scale_xtime p a : scale p (xtime a) = xtime (scale p a).
Proof. destruct p; reflexivity. Qed.

(** [add] is associative and commutative: four terms, swapped in the
    middle. *)
Lemma add_swap a b c d : add (add a b) (add c d) = add (add a c) (add b d).
Proof.
  rewrite <- !add_assoc. f_equal. rewrite !add_assoc. f_equal.
  apply add_comm.
Qed.

Lemma mul_bits_zero bs : mul_bits zero bs = zero.
Proof.
  induction bs as [|b bs IH]; simpl; [reflexivity|].
  rewrite IH. now destruct b.
Qed.

Lemma mul_bits_add a b bs :
  mul_bits (add a b) bs = add (mul_bits a bs) (mul_bits b bs).
Proof.
  induction bs as [|p bs IH]; simpl; [reflexivity|].
  rewrite IH, xtime_add, scale_add. apply add_swap.
Qed.

Lemma mul_bits_xtime a bs : mul_bits (xtime a) bs = xtime (mul_bits a bs).
Proof.
  induction bs as [|p bs IH]; simpl; [reflexivity|].
  now rewrite IH, xtime_add, scale_xtime.
Qed.

Lemma mul_bits_scale p a bs : mul_bits (scale p a) bs = scale p (mul_bits a bs).
Proof.
  destruct p; simpl; [reflexivity|apply mul_bits_zero].
Qed.

(** Two multiplications commute, whatever the multipliers. *)
Lemma mul_bits_exchange a bs : forall cs,
  mul_bits (mul_bits a bs) cs = mul_bits (mul_bits a cs) bs.
Proof.
  induction bs as [|p bs IH]; intros cs; simpl.
  - apply mul_bits_zero.
  - now rewrite mul_bits_add, mul_bits_scale, mul_bits_xtime, IH.
Qed.

Lemma mul_1_l a : mul one a = a.
Proof.
  destruct a as [[] [] [] [] [] [] [] []]; reflexivity.
Qed.

Lemma mul_bits_one a : mul_bits a (bits one) = a.
Proof.
  change (mul_bits a (bits one)) with (add a zero). apply add_0_r.
Qed.

Lemma mul_comm a b : mul a b = mul b a.
Proof.
  unfold mul. rewrite <- (mul_1_l a) at 1. unfold mul.
  rewrite mul_bits_exchange. fold (mul one b). now rewrite mul_1_l.
Qed.

Lemma mul_1_r a : mul a one = a.
Proof. apply mul_bits_one. Qed.

Lemma mul_assoc a b c : mul a (mul b c) = mul (mul a b) c.
Proof.
  rewrite (mul_comm a (mul b c)). unfold mul at 1 2.
  rewrite mul_bits_exchange. fold (mul b a). fold (mul (mul b a) c).
  now rewrite (mul_comm b a).
Qed.

Lemma mul_add_distr_r a b c : mul (add a b) c = add (mul a c) (mul b c).
Proof. apply mul_bits_add. Qed.

Lemma mul_add_distr_l a b c : mul a (add b c) = add (mul a b) (mul a c).
Proof.
  rewrite mul_comm, mul_add_distr_r. now rewrite (mul_comm b), (mul_comm c).
Qed.

Lemma mul_0_l a : mul zero a = zero.
Proof. apply mul_bits_zero. Qed.

Lemma mul_0_r a : mul a zero = zero.
Proof. rewrite mul_comm. apply mul_0_l. Qed.

Lemma inv_test :
  forall_elt (fun a => is_zero a || Ascii.eqb (mul (inv a) a) one) = true.
Proof. vm_compute. reflexivity. Qed.

Lemma mul_inv_l a : a <> zero -> mul (inv a) a = one.
Proof.
  intros Ha. pose proof (forall_elt_spec _ inv_test a) as H.
  apply orb_prop in H. destruct H as [H|H].
  - apply Ascii.eqb_eq in H. contradiction.
  - now apply Ascii.eqb_eq in H.
Qed.

Lemma one_neq_zero : one <> zero.
Proof. discriminate. Qed.

(** No zero divisors. *)
Lemma mul_eq_zero a b : mul a b = zero -> a = zero \/ b = zero.
Proof.
  intros H. destruct (Ascii.eqb_spec a zero) as [Ha|Ha]; [now left|right].
  rewrite <- (mul_1_l b), <- (mul_inv_l a Ha), <- mul_assoc, H.
  apply mul_0_r.
Qed.

Definition ring_theory :
  Ring_theory.ring_theory zero one add mul add (fun a => a) eq.
Proof.
  constructor.
  - apply add_0_l.
  - apply add_comm.
  - apply add_assoc.
  - apply mul_1_l.
  - apply mul_comm.
  - apply mul_assoc.
  - apply mul_add_distr_r.
  - reflexivity.
  - apply add_self.
Qed.

Add Ring gf256 : ring_theory.

End GF256Facts.

(* ================================================================== *)
(** ** Interpolation                                                   *)
(* ================================================================== *)

Module PolyFacts.

Import GF256 GF256Facts Poly.

#[local] Arguments add : simpl never.
#[local] Arguments mul : simpl never.
#[local] Arguments inv : simpl never.

Lemma eval_padd p : forall q z,
  eval (padd p q) z = add (eval p z) (eval q z).
Proof.
  induction p as [|a p IH]; intros [|b q] z; simpl.
  - ring.
  - ring.
  - ring.
  - rewrite IH. ring.
Qed.

Lemma eval_pscale c p z : eval (pscale c p) z = mul c (eval p z).
Proof.
  induction p as [|a p IH]; simpl; [ring|]. fold (pscale c p).
  rewrite IH. ring.
Qed.

Lemma eval_plinear a p z : eval (plinear a p) z = mul (add z a) (eval p z).
Proof.
  unfold plinear. rewrite eval_padd, eval_pscale. simpl. ring.
Qed.

Lemma length_padd p : forall q,
  List.length (padd p q) = Nat.max (List.length p) (List.length q).
Proof.
  induction p as [|a p IH]; intros [|b q]; simpl; try reflexivity.
  now rewrite IH.
Qed.

Lemma length_pscale c p : List.length (pscale c p) = List.length p.
Proof. apply length_map. Qed.

Lemma length_plinear a p : List.length (plinear a p) = S (List.length p).
Proof.
  unfold plinear. rewrite length_padd, length_pscale.
  change (List.length (zero :: p)) with (S (List.length p)). lia.
Qed.

Lemma eval_zero cs : eval cs zero = hd zero cs.
Proof.
  destruct cs as [|c cs]; simpl; [reflexivity|]. ring.
Qed.

(** Division by a linear factor: [cs = (z + a) * q + r], with [q] one
    coefficient shorter. *)
Lemma divide_linear a : forall cs,
  cs <> [] ->
  exists q r,
    S (List.length q) = List.length cs
    /\ forall z, eval cs z = add (mul (add z a) (eval q z)) r.
Proof.
  induction cs as [|c cs IH]; intros Hne; [contradiction|].
  destruct cs as [|c' cs'].
  - exists [], c. split; [reflexivity|]. intros z. simpl. ring.
  - destruct IH as (q & r & Hlen & Hdiv); [discriminate|].
    exists (r :: q), (add c (mul a r)). split; [simpl; now rewrite Hlen|].
    intros z. change (eval (c :: c' :: cs') z)
      with (add c (mul z (eval (c' :: cs') z))).
    rewrite Hdiv. simpl.
    transitivity
      (add (add c (mul z (add (mul (add z a) (eval q z)) r)))
           (add (mul a r) (mul a r))).
    + rewrite add_self. ring.
    + ring.
Qed.

(** A polynomial with more distinct roots than coefficients vanishes
    everywhere. *)
Lemma roots_bound : forall xs cs,
  NoDup xs ->
  List.length cs <= List.length xs ->
  (forall x, In x xs -> eval cs x = zero) ->
  forall z, eval cs z = zero.
Proof.
  induction xs as [|a xs IH]; intros cs Hnd Hlen Hroot z.
  - destruct cs; [reflexivity|simpl in Hlen; lia].
  - destruct cs as [|c cs]; [reflexivity|].
    destruct (divide_linear a (c :: cs)) as (q & r & Hq & Hdiv);
      [discriminate|].
    assert (Hr : r = zero).
    { pose proof (Hroot a (or_introl eq_refl)) as Ha.
      rewrite Hdiv, add_self, mul_0_l, add_0_l in Ha. exact Ha. }
    subst r. inversion Hnd as [|? ? Hnotin Hnd']; subst.
    assert (Hq0 : forall w, eval q w = zero).
    { apply IH; [exact Hnd'|simpl in Hq, Hlen; lia|].
      intros x Hx. pose proof (Hroot x (or_intror Hx)) as Hx0.
      rewrite Hdiv, add_0_r in Hx0. apply mul_eq_zero in Hx0.
      destruct Hx0 as [Hx0|Hx0]; [|exact Hx0].
      apply (proj1 (add_eq_zero _ _)) in Hx0. rewrite Hx0 in Hx.
      contradiction. }
    rewrite Hdiv, Hq0. ring.
Qed.

Lemma basis_at_zero_eq xj others :
  Shamir.basis_at_zero xj others = basis_at zero xj others.
Proof.
  induction others as [|xm rest IH]; simpl; [reflexivity|].
  now rewrite IH, add_0_l.
Qed.

Lemma interpolate_from_eq : forall pts before,
  Shamir.interpolate_from before pts = interpolate_at zero before pts.
Proof.
  induction pts as [|[x y] rest IH]; intros before; simpl; [reflexivity|].
  now rewrite IH, basis_at_zero_eq.
Qed.

Lemma basis_at_poly xj others :
  exists q,
    List.length q = S (List.length others)
    /\ forall z, eval q z = basis_at z xj others.
Proof.
  induction others as [|xm rest (q & Hlen & Hq)].
  - exists [one]. split; [reflexivity|]. intros z. simpl. ring.
  - exists (pscale (inv (add xm xj)) (plinear xm q)). split.
    + rewrite length_pscale, length_plinear. now rewrite Hlen.
    + intros z. rewrite eval_pscale, eval_plinear, Hq. simpl.
      unfold div. ring.
Qed.

Lemma basis_at_other z xj others :
  In z others -> basis_at z xj others = zero.
Proof.
  induction others as [|xm rest IH]; intros Hin; [contradiction|].
  simpl. destruct Hin as [->|Hin].
  - unfold div. rewrite add_self. ring.
  - rewrite IH by exact Hin. ring.
Qed.

Lemma basis_at_self xj others :
  ~ In xj others -> basis_at xj xj others = one.
Proof.
  induction others as [|xm rest IH]; intros Hnotin; [reflexivity|].
  simpl. rewrite IH by (intros H; apply Hnotin; now right).
  unfold div. rewrite (add_comm xj xm), (mul_comm (add xm xj)).
  rewrite mul_inv_l; [ring|].
  intros H. apply (proj1 (add_eq_zero _ _)) in H. apply Hnotin. now left.
Qed.

Lemma interpolate_at_poly : forall pts before,
  exists q,
    List.length q <= List.length before + List.length pts
    /\ forall z, eval q z = interpolate_at z before pts.
Proof.
  induction pts as [|[x y] rest IH]; intros before.
  - exists []. split; [simpl; lia|]. reflexivity.
  - destruct (IH (before ++ [x])) as (q' & Hlen' & Hq').
    destruct (basis_at_poly x (before ++ map fst rest)) as (qb & Hlenb & Hqb).
    exists (padd (pscale y qb) q'). split.
    + rewrite length_padd, length_pscale, Hlenb, length_app, length_map.
      rewrite length_app in Hlen'. cbn [List.length] in *. lia.
    + intros z. rewrite eval_padd, eval_pscale, Hqb, Hq'. reflexivity.
Qed.

Lemma interpolate_at_before : forall pts before z,
  In z before -> interpolate_at z before pts = zero.
Proof.
  induction pts as [|[x y] rest IH]; intros before z Hin; simpl;
    [reflexivity|].
  rewrite basis_at_other by (apply in_or_app; now left).
  rewrite IH by (apply in_or_app; now left). ring.
Qed.

Lemma interpolate_at_point : forall pts before x y,
  NoDup (before ++ map fst pts) ->
  In (x, y) pts ->
  interpolate_at x before pts = y.
Proof.
  induction pts as [|[x1 y1] rest IH]; intros before x y Hnd Hin;
    [contradiction|].
  simpl in *. destruct Hin as [Heq|Hin].
  - inversion Heq; subst x1 y1.
    rewrite basis_at_self by (apply NoDup_remove_2 in Hnd; exact Hnd).
    rewrite interpolate_at_before by (apply in_or_app; right; now left).
    ring.
  - rewrite basis_at_other
      by (apply in_or_app; right; apply in_map_iff; now exists (x, y)).
    rewrite (IH (before ++ [x1]) x y);
      [ring|now rewrite <- app_assoc|exact Hin].
Qed.

(** Lagrange interpolation at 0 through at least as many distinct points
    of a polynomial as it has coefficients gives its constant term. *)
Lemma lagrange_at_zero cs xs :
  NoDup xs ->
  List.length cs <= List.length xs ->
  Shamir.interpolate_at_zero (map (fun x => (x, eval cs x)) xs)
  = hd zero cs.
Proof.
  intros Hnd Hlen. unfold Shamir.interpolate_at_zero.
  rewrite interpolate_from_eq, <- eval_zero.
  set (pts := map (fun x => (x, eval cs x)) xs).
  destruct (interpolate_at_poly pts []) as (q & Hq & Hqz).
  apply add_eq_zero. rewrite <- Hqz, <- eval_padd.
  apply roots_bound with xs; [exact Hnd| |].
  - rewrite length_padd. subst pts. rewrite length_map in Hq. simpl in Hq.
    lia.
  - intros x Hx. rewrite eval_padd, Hqz. apply add_eq_zero.
    apply interpolate_at_point.
    + subst pts. simpl. rewrite map_map. simpl. now rewrite map_id.
    + subst pts. apply in_map_iff. now exists x.
Qed.

End PolyFacts.

(* ================================================================== *)
(** ** [Split] and [Combine]                                           *)
(* ================================================================== *)

Module ShamirFacts.

Import GF256 GF256Facts Poly PolyFacts Shamir.

Lemma ascii_of_nat_inj a b :
  a < 256 -> b < 256 -> ascii_of_nat a = ascii_of_nat b -> a = b.
Proof.
  intros Ha Hb H. rewrite <- (nat_ascii_embedding a Ha).
  rewrite <- (nat_ascii_embedding b Hb). now rewrite H.
Qed.

Lemma identities_in n x :
  In x (identities n) -> exists k, 1 <= k <= n /\ x = ascii_of_nat k.
Proof.
  unfold identities. intros H. apply in_map_iff in H.
  destruct H as (k & <- & Hk). apply in_seq in Hk. exists k. split; [lia|].
  reflexivity.
Qed.

Lemma identities_nonzero n x : n <= 255 -> In x (identities n) -> x <> zero.
Proof.
  intros Hn H. apply identities_in in H. destruct H as (k & Hk & ->).
  intros H0. change zero with (ascii_of_nat 0) in H0.
  apply ascii_of_nat_inj in H0; lia.
Qed.

Lemma identities_NoDup n : n <= 255 -> NoDup (identities n).
Proof.
  intros Hn. unfold identities.
  assert (G : forall len start, start + len <= 256 ->
            NoDup (map ascii_of_nat (seq start len))).
  { induction len as [|len IH]; intros start Hs; simpl; constructor.
    - intros H. apply in_map_iff in H. destruct H as (k & Hk & Hin).
      apply in_seq in Hin. apply ascii_of_nat_inj in Hk; lia.
    - apply IH. lia. }
  apply G. lia.
Qed.

Lemma length_identities n : List.length (identities n) = n.
Proof. unfold identities. now rewrite length_map, length_seq. Qed.

Lemma length_evaluations coeff t secret x : forall i,
  List.length (evaluations coeff t i secret x) = List.length secret.
Proof.
  induction secret as [|s rest IH]; intros i; simpl; [reflexivity|].
  now rewrite IH.
Qed.

Lemma nth_evaluations coeff t x : forall secret k i,
  i < List.length secret ->
  nth i (evaluations coeff t k secret x) zero
  = eval (polynomial coeff t (k + i) (nth i secret zero)) x.
Proof.
  induction secret as [|s rest IH]; intros k i Hi; simpl in Hi; [lia|].
  destruct i as [|i]; simpl.
  - now rewrite Nat.add_0_r.
  - rewrite IH by lia. now rewrite Nat.add_succ_r.
Qed.

Lemma length_polynomial coeff t i s :
  1 <= t -> List.length (polynomial coeff t i s) = t.
Proof.
  intros Ht. unfold polynomial. simpl. rewrite length_map, length_seq. lia.
Qed.

Lemma identity_make_share coeff t secret x :
  identity (make_share coeff t secret x) = x.
Proof. reflexivity. Qed.

Lemma length_make_share coeff t secret x :
  List.length (make_share coeff t secret x) = S (List.length secret).
Proof. unfold make_share. simpl. now rewrite length_evaluations. Qed.

Lemma point_make_share coeff t secret x i :
  i < List.length secret ->
  point i (make_share coeff t secret x)
  = (x, eval (polynomial coeff t i (nth i secret zero)) x).
Proof.
  intros Hi. unfold point, make_share, identity. simpl.
  now rewrite nth_evaluations.
Qed.

Lemma distinct_NoDup xs : NoDup xs -> distinct xs = true.
Proof.
  induction 1 as [|x xs Hnotin _ IH]; simpl; [reflexivity|].
  rewrite IH, andb_true_r. apply negb_true_iff.
  destruct (existsb (Ascii.eqb x) xs) eqn:E; [|reflexivity].
  apply existsb_exists in E. destruct E as (y & Hy & Heq).
  apply Ascii.eqb_eq in Heq. subst y. contradiction.
Qed.

Lemma no_zero xs :
  (forall x, In x xs -> x <> zero) -> existsb is_zero xs = false.
Proof.
  intros H. destruct (existsb is_zero xs) eqn:E; [|reflexivity].
  apply existsb_exists in E. destruct E as (y & Hy & Heq).
  apply Ascii.eqb_eq in Heq. now apply H in Hy.
Qed.

Lemma map_nth_seq {A} (d : A) (l : list A) :
  map (fun i => nth i l d) (seq 0 (List.length l)) = l.
Proof.
  induction l as [|a l IH]; simpl; [reflexivity|].
  rewrite <- seq_shift, map_map. now rewrite IH.
Qed.

(** Shares of one secret at distinct non-zero identities, at least as many
    as the threshold, combine to the secret. *)
Lemma Combine_make_shares coeff t secret xs :
  1 <= t <= List.length xs ->
  NoDup xs ->
  (forall x, In x xs -> x <> zero) ->
  Combine (map (make_share coeff t secret) xs) = inr secret.
Proof.
  intros Ht Hnd Hnz.
  destruct xs as [|x0 xs']; [simpl in Ht; lia|].
  remember (x0 :: xs') as xs eqn:Exs.
  set (mk := make_share coeff t secret).
  assert (Hshape :
    Combine (map mk xs)
    = if negb (same_lengths (map mk xs)) || Nat.eqb (List.length (mk x0)) 0
      then inl MalformedShare
      else if existsb is_zero (map identity (map mk xs))
      then inl InvalidShareIdentity
      else if negb (distinct (map identity (map mk xs)))
      then inl DuplicateShareIdentity
      else inr (map (fun i => interpolate_at_zero (map (point i) (map mk xs)))
                    (seq 0 (List.length (mk x0) - 1))))
    by (subst xs; reflexivity).
  assert (Hsame : same_lengths (map mk xs) = true).
  { subst xs.
    change (forallb (fun s' => Nat.eqb (List.length s') (List.length (mk x0)))
              (map mk xs') = true).
    apply forallb_forall. intros s Hs.
    apply in_map_iff in Hs. destruct Hs as (x & <- & _). subst mk.
    rewrite !length_make_share. apply Nat.eqb_refl. }
  assert (Hids : map identity (map mk xs) = xs).
  { rewrite map_map. apply map_id. }
  rewrite Hshape, Hsame, Hids, (no_zero xs Hnz), (distinct_NoDup xs Hnd).
  subst mk. rewrite length_make_share.
  change (negb true || Nat.eqb (S (List.length secret)) 0) with false.
  change (negb true) with false. cbv iota. f_equal.
  replace (S (List.length secret) - 1) with (List.length secret) by lia.
  rewrite <- (map_nth_seq zero secret) at 2.
  apply map_ext_in. intros i Hi. apply in_seq in Hi.
  rewrite map_map.
  rewrite (map_ext_in _
             (fun x => (x, eval (polynomial coeff t i (nth i secret zero)) x)))
    by (intros x _; apply point_make_share; lia).
  rewrite lagrange_at_zero; [reflexivity|exact Hnd|].
  rewrite length_polynomial; lia.
Qed.

Lemma make_share_inj coeff t secret x y :
  make_share coeff t secret x = make_share coeff t secret y -> x = y.
Proof. intros H. now inversion H. Qed.

(** A duplicate-free selection among the shares of one split is the list
    of the shares at a duplicate-free selection of identities. *)
Lemma selection_identities coeff t secret ids : forall sel,
  NoDup sel ->
  incl sel (map (make_share coeff t secret) ids) ->
  exists xs,
    sel = map (make_share coeff t secret) xs /\ NoDup xs /\ incl xs ids.
Proof.
  induction sel as [|s sel IH]; intros Hnd Hincl.
  - exists []. split; [reflexivity|]. split; [constructor|intros x []].
  - inversion Hnd as [|? ? Hnotin Hnd']; subst.
    destruct IH as (xs & -> & Hxs & Hin); [exact Hnd'| |].
    { intros y Hy. apply Hincl. now right. }
    assert (Hs : In s (map (make_share coeff t secret) ids))
      by (apply Hincl; now left).
    apply in_map_iff in Hs. destruct Hs as (x & <- & Hx).
    exists (x :: xs). split; [reflexivity|]. split.
    + constructor; [|exact Hxs]. intros H. apply Hnotin.
      now apply in_map.
    + intros y [<-|Hy]; [exact Hx|now apply Hin].
Qed.

Lemma Split_ok rnd secret n t shares :
  Split rnd secret n t = inr shares ->
  (1 <= t <= n)%Z /\ (n <= 255)%Z /\ secret <> []
  /\ exists coeff,
       rnd = Draws coeff
       /\ shares = map (make_share coeff (Z.to_nat t) secret)
                       (identities (Z.to_nat n)).
Proof.
  unfold Split, valid_parameters.
  destruct ((1 <=? t)%Z) eqn:E1; [|discriminate].
  destruct ((t <=? n)%Z) eqn:E2; [|discriminate].
  destruct ((n <=? 255)%Z) eqn:E3; [|discriminate].
  destruct secret as [|s secret]; [discriminate|]. simpl.
  destruct rnd as [|coeff]; [discriminate|]. intros H. inversion H.
  apply Z.leb_le in E1, E2, E3.
  repeat split; try assumption; try discriminate. now exists coeff.
Qed.

(** Any duplicate-free selection of at least [t] shares of one split
    combines to the secret. *)
Lemma Combine_Split rnd secret n t shares sel :
  Split rnd secret n t = inr shares ->
  NoDup sel ->
  incl sel shares ->
  Z.to_nat t <= List.length sel ->
  Combine sel = inr secret.
Proof.
  intros Hsplit Hnd Hincl Hlen. apply Split_ok in Hsplit.
  destruct Hsplit as (Ht & Hn & _ & coeff & _ & ->).
  destruct (selection_identities _ _ _ _ _ Hnd Hincl) as (xs & -> & Hxs & Hin).
  rewrite length_map in Hlen.
  apply Combine_make_shares; [lia|exact Hxs|].
  intros x Hx. apply identities_nonzero with (Z.to_nat n); [lia|].
  now apply Hin.
Qed.

Lemma Split_NoDup rnd secret n t shares :
  Split rnd secret n t = inr shares ->
  NoDup shares /\ List.length shares = Z.to_nat n.
Proof.
  intros Hsplit. apply Split_ok in Hsplit.
  destruct Hsplit as (Ht & Hn & _ & coeff & _ & ->). split.
  - apply Injective_map_NoDup.
    + intros x y. apply make_share_inj.
    + apply identities_NoDup. lia.
  - now rewrite length_map, length_identities.
Qed.

End ShamirFacts.

(* ================================================================== *)
(** ** Base64: decoding undoes encoding                                *)
(* ================================================================== *)

Module Base64Facts.

Import Base64.

Lemma sextet0_is a : is_sextet (sextet0 a) = true.
Proof. now destruct a. Qed.

Lemma sextet1_is a b : is_sextet (sextet1 a b) = true.
Proof. now destruct a, b. Qed.

Lemma sextet2_is b c : is_sextet (sextet2 b c) = true.
Proof. now destruct b, c. Qed.

Lemma sextet3_is c : is_sextet (sextet3 c) = true.
Proof. now destruct c. Qed.

Lemma encode_char_spec v :
  is_sextet v = true ->
  decode_char (encode_char v) = Some v
  /\ is_pad (encode_char v) = false
  /\ is_newline (encode_char v) = false.
Proof.
  destruct v as [b0 b1 b2 b3 b4 b5 [] []]; try discriminate. intros _.
  destruct b0, b1, b2, b3, b4, b5; vm_compute; auto.
Qed.

Lemma decode_encode_char v :
  is_sextet v = true -> decode_char (encode_char v) = Some v.
Proof. intros H. now apply encode_char_spec. Qed.

Lemma encode_char_not_pad v :
  is_sextet v = true -> is_pad (encode_char v) = false.
Proof. intros H. now apply encode_char_spec. Qed.

Lemma encode_char_not_newline v :
  is_sextet v = true -> is_newline (encode_char v) = false.
Proof. intros H. now apply encode_char_spec. Qed.

Lemma octet0_sextets a b : octet0 (sextet0 a) (sextet1 a b) = a.
Proof. now destruct a, b. Qed.

Lemma octet1_sextets a b c : octet1 (sextet1 a b) (sextet2 b c) = b.
Proof. now destruct a, b, c. Qed.

Lemma octet2_sextets b c : octet2 (sextet2 b c) (sextet3 c) = c.
Proof. now destruct b, c. Qed.

(** Induction over a list three elements at a time. *)
Lemma list_ind3 {A} (P : list A -> Prop) :
  P [] -> (forall a, P [a]) -> (forall a b, P [a; b]) ->
  (forall a b c l, P l -> P (a :: b :: c :: l)) ->
  forall l, P l.
Proof.
  intros H0 H1 H2 H3 l.
  assert (G : P l /\ (forall a, P (a :: l)) /\ (forall a b, P (a :: b :: l))).
  { induction l as [|x l (IH0 & IH1 & IH2)]; [now auto|].
    split; [apply IH1|]. split; [intros a; apply IH2|].
    intros a b. now apply H3. }
  apply G.
Qed.

#[local] Hint Resolve sextet0_is sextet1_is sextet2_is sextet3_is : core.

Lemma decode_encode src : decode_quanta (encode src) = Some src.
Proof.
  induction src as [|a|a b|a b c rest IH] using list_ind3.
  - reflexivity.
  - cbn [encode decode_quanta].
    rewrite !decode_encode_char by auto.
    change (is_pad padChar) with true. cbn [no_more andb].
    now rewrite octet0_sextets.
  - cbn [encode decode_quanta].
    rewrite !decode_encode_char by auto.
    rewrite encode_char_not_pad by auto.
    change (is_pad padChar) with true. cbn [no_more].
    now rewrite octet0_sextets, octet1_sextets.
  - cbn [encode decode_quanta].
    rewrite !decode_encode_char by auto.
    rewrite !encode_char_not_pad by auto.
    rewrite IH. now rewrite octet0_sextets, octet1_sextets, octet2_sextets.
Qed.

Lemma encode_no_newline src :
  forallb (fun c => negb (is_newline c)) (encode src) = true.
Proof.
  induction src as [|a|a b|a b c rest IH] using list_ind3;
    cbn [encode forallb];
    rewrite ?encode_char_not_newline by auto;
    try rewrite IH; reflexivity.
Qed.

Lemma filter_all {A} (f : A -> bool) l : forallb f l = true -> filter f l = l.
Proof.
  induction l as [|a l IH]; simpl; [reflexivity|]. intros H.
  apply andb_prop in H. destruct H as [Ha Hl]. now rewrite Ha, IH.
Qed.

(** [DecodeString(EncodeToString(src)) = src]. *)
Lemma DecodeString_EncodeToString src :
  DecodeString (EncodeToString src) = Some src.
Proof.
  unfold DecodeString, EncodeToString.
  rewrite list_ascii_of_string_of_list_ascii.
  rewrite filter_all by apply encode_no_newline.
  apply decode_encode.
Qed.

End Base64Facts.

(* ================================================================== *)
(** ** Shares on disk                                                  *)
(* ================================================================== *)

Lemma update_other fs path d p : p <> path -> update fs path d p = fs p.
Proof.
  intros H. unfold update. apply String.eqb_neq in H. now rewrite H.
Qed.

(** The loop writes to its destinations only. *)
Lemma write_shares_other env p : forall shares paths st st' r,
  write_shares env shares paths st = (st', r) ->
  ~ In p paths ->
  files st' p = files st p.
Proof.
  induction shares as [|s shares IH]; intros paths st st' r H Hnotin;
    cbn [write_shares] in H.
  - now inversion H.
  - destruct paths as [|path paths]; [now inversion H|].
    step H as [] st1 Hw.
    + apply wrapM_ok, WriteFile_inv in Hw.
      destruct Hw as [(_ & _ & _ & Hf)|(? & _)]; [|discriminate].
      rewrite (IH _ _ _ _ H) by (intros Hin; apply Hnotin; now right).
      rewrite Hf. apply update_other. intros ->. apply Hnotin. now left.
    + apply wrapM_inv in Hw. destruct Hw as (r0 & Hw & _).
      apply WriteFile_inv in Hw.
      destruct Hw as [(_ & _ & _ & Hf)|(_ & _ & _ & Hf)]; rewrite Hf;
        [|reflexivity].
      apply update_other. intros ->. apply Hnotin. now left.
Qed.

(** After a successful loop each destination holds the base64 text of a
    share written to it (the last one, if it is named more than once). *)
Lemma write_shares_files env : forall shares paths st st',
  write_shares env shares paths st = (st', Ok tt) ->
  List.length paths = List.length shares ->
  forall p, In p paths ->
  exists s, share_of paths shares p s
            /\ files st' p = Some (Bytes (Base64.EncodeToString s)).
Proof.
  induction shares as [|s shares IH]; intros paths st st' H Hlen p Hin;
    cbn [write_shares] in H.
  - destruct paths; [contradiction|discriminate].
  - destruct paths as [|path paths]; [contradiction|].
    step H as [] st1 Hw; [|discriminate].
    apply wrapM_ok, WriteFile_inv in Hw.
    destruct Hw as [(_ & _ & _ & Hf)|(? & _)]; [|discriminate].
    destruct (in_dec string_dec p paths) as [Hp|Hp].
    + destruct (IH _ _ _ H ltac:(simpl in Hlen; lia) p Hp)
        as (s' & (j & Hj1 & Hj2) & Hfile).
      exists s'. split; [|exact Hfile]. now exists (S j).
    + destruct Hin as [->|Hin]; [|contradiction].
      exists s. split; [now exists 0|].
      rewrite (write_shares_other _ _ _ _ _ _ _ H Hp), Hf.
      apply update_same.
Qed.

(** With a file system that accepts every write the loop succeeds. *)
Lemma write_shares_succeeds env :
  (forall k p, write_ok env k p = true) ->
  forall shares paths st,
  List.length shares <= List.length paths ->
  exists st', write_shares env shares paths st = (st', Ok tt).
Proof.
  intros Hok. induction shares as [|s shares IH]; intros paths st Hlen;
    cbn [write_shares].
  - now exists st.
  - destruct paths as [|path paths]; [simpl in Hlen; lia|].
    unfold bindM, wrapM, WriteFile. rewrite Hok. cbn [wrap].
    apply IH. simpl in Hlen. lia.
Qed.

(** Reading back a selection of destinations that hold shares. *)
Lemma read_shares_selected paths shares st : forall sel,
  (forall p, In p sel ->
     exists s, share_of paths shares p s
               /\ files st p = Some (Bytes (Base64.EncodeToString s))) ->
  exists shs,
    read_shares sel st = (st, Ok shs)
    /\ Forall2 (share_of paths shares) sel shs.
Proof.
  induction sel as [|p sel IH]; intros Hfiles.
  - exists []. split; [reflexivity|constructor].
  - destruct (Hfiles p (or_introl eq_refl)) as (s & Hs & Hfile).
    destruct IH as (shs & Hread & Hall).
    { intros q Hq. apply Hfiles. now right. }
    exists (s :: shs). split; [|now constructor].
    cbn [read_shares]. unfold bindM, wrapM, ReadFile. rewrite Hfile.
    cbn [wrap]. rewrite Base64Facts.DecodeString_EncodeToString.
    unfold ret. cbn [wrap]. now rewrite Hread.
Qed.

Lemma Forall2_in_r {A B} (R : A -> B -> Prop) l1 l2 b :
  Forall2 R l1 l2 -> In b l2 -> exists a, In a l1 /\ R a b.
Proof.
  induction 1 as [|a0 b0 l1 l2 Hab _ IH]; intros Hin; [contradiction|].
  destruct Hin as [<-|Hin].
  - exists a0. split; [now left|exact Hab].
  - destruct (IH Hin) as (a & Ha & HR). exists a. split; [now right|exact HR].
Qed.

(** Distinct destinations hold distinct shares. *)
Lemma selected_shares_NoDup paths shares sel shs :
  NoDup shares ->
  NoDup sel ->
  Forall2 (share_of paths shares) sel shs ->
  NoDup shs /\ incl shs shares /\ List.length shs = List.length sel.
Proof.
  intros Hshares Hsel Hall.
  induction Hall as [|p s sel shs (j & Hj1 & Hj2) Hall IH].
  - split; [constructor|]. split; [intros x []|reflexivity].
  - inversion Hsel as [|? ? Hnotin Hsel']; subst.
    destruct (IH Hsel') as (Hnd & Hincl & Hlen).
    split; [|split].
    + constructor; [|exact Hnd]. intros Hin.
      destruct (Forall2_in_r _ _ _ _ Hall Hin) as (q & Hq & j' & Hj1' & Hj2').
      assert (j = j').
      { apply (proj1 (NoDup_nth_error shares) Hshares).
        - apply nth_error_Some. rewrite Hj2. discriminate.
        - now rewrite Hj2, Hj2'. }
      subst j'. rewrite Hj1 in Hj1'. inversion Hj1'; subst q. contradiction.
    + intros x [<-|Hx]; [|now apply Hincl].
      eapply nth_error_In. exact Hj2.
    + simpl. now rewrite Hlen.
Qed.

(* ================================================================== *)
(** ** Splitting and recombining a key                                 *)
(* ================================================================== *)

Lemma Split_valid coeff secret n t :
  (1 <= t <= n)%Z -> (n <= 255)%Z -> secret <> [] ->
  Shamir.Split (Shamir.Draws coeff) secret n t
  = inr (map (Shamir.make_share coeff (Z.to_nat t) secret)
             (Shamir.identities (Z.to_nat n))).
Proof.
  intros Ht Hn Hs. unfold Shamir.Split, Shamir.valid_parameters.
  destruct secret as [|s secret]; [contradiction|].
  replace (1 <=? t)%Z with true by (symmetry; apply Z.leb_le; lia).
  replace (t <=? n)%Z with true by (symmetry; apply Z.leb_le; lia).
  replace (n <=? 255)%Z with true by (symmetry; apply Z.leb_le; lia).
  reflexivity.
Qed.

Lemma Split_invalid rnd secret n t :
  (t = 0 \/ t > n \/ n > 255)%Z ->
  Shamir.Split rnd secret n t = inl InvalidParameters.
Proof.
  intros H. unfold Shamir.Split, Shamir.valid_parameters.
  destruct ((1 <=? t)%Z) eqn:E1; [|reflexivity].
  destruct ((t <=? n)%Z) eqn:E2; [|reflexivity].
  destruct ((n <=? 255)%Z) eqn:E3; [|reflexivity].
  apply Z.leb_le in E1, E2, E3. lia.
Qed.

(** C5. With [t = 0], [t > n] or [n > 255], [Split] fails with
    [InvalidParameters], whatever the secret and the entropy source, and
    [SplitKeyAndWriteShares] returns that error wrapped, without writing
    anything; with [1 <= t <= n <= 255], a secret that is not empty and an
    entropy source that delivers, [Split] succeeds and returns exactly [n]
    shares. *)
Theorem Split_parameters rnd secret n t :
  ((t = 0 \/ t > n \/ n > 255)%Z ->
     Shamir.Split rnd secret n t = inl InvalidParameters
     /\ forall env privKey sharePaths st,
          Z.of_nat (List.length sharePaths) = n ->
          x509_marshal env privKey = Some secret ->
          rand_split env = rnd ->
          SplitKeyAndWriteShares env privKey n t sharePaths st
          = (st, Err (Wrapped "shamir split error"
                        (ShamirFailed InvalidParameters))))
  /\ ((1 <= t <= n)%Z -> (n <= 255)%Z -> secret <> [] ->
      forall coeff, rnd = Shamir.Draws coeff ->
      exists shares,
        Shamir.Split rnd secret n t = inr shares
        /\ Z.of_nat (List.length shares) = n).
Proof.
  split.
  - intros Hbad. split; [now apply Split_invalid|].
    intros env privKey sharePaths st Hlen Hm Hrnd.
    unfold SplitKeyAndWriteShares, bindM, wrapM, MarshalECPrivateKey.
    rewrite Hlen, Z.eqb_refl, Hm. cbn. unfold ret.
    rewrite Hrnd, (Split_invalid _ _ _ _ Hbad). reflexivity.
  - intros Ht Hn Hs coeff ->. eexists. split; [now apply Split_valid|].
    rewrite length_map, ShamirFacts.length_identities. lia.
Qed.

Lemma Split_parameters_witness :
  Shamir.Split Shamir.Unavailable (list_ascii_of_string "ABCDEFGH") 5 0
  = inl InvalidParameters
  /\ exists shares,
       Shamir.Split (Shamir.Draws Sample.coeff)
         (list_ascii_of_string "ABCDEFGH") 5 3 = inr shares
       /\ Z.of_nat (List.length shares) = 5%Z.
Proof.
  split.
  - apply (proj1 (Split_parameters Shamir.Unavailable
                    (list_ascii_of_string "ABCDEFGH") 5 0)).
    left. reflexivity.
  - apply (proj2 (Split_parameters (Shamir.Draws Sample.coeff)
                    (list_ascii_of_string "ABCDEFGH") 5 3)
             ltac:(lia) ltac:(lia) ltac:(discriminate) Sample.coeff eq_refl).
Defined.

(** C1. For every secret of length at least 1 and every (n, t) with
    1 <= t <= n <= 255, whatever coefficients the entropy source draws,
    [Split] returns [n] shares, and [Combine] on any [t] distinct ones, in
    any order, returns the secret.  Through the files: when the file system
    accepts the writes, [SplitKeyAndWriteShares] succeeds, and
    [CombineSharesFromFiles] on any [t] distinct share files among those it
    wrote returns the marshalled key bytes, leaving the state as it is. *)
Theorem split_then_combine coeff secret n t :
  secret <> [] -> (1 <= t <= n)%Z -> (n <= 255)%Z ->
  (exists shares,
     Shamir.Split (Shamir.Draws coeff) secret n t = inr shares
     /\ Z.of_nat (List.length shares) = n
     /\ forall sel,
          NoDup sel -> incl sel shares ->
          List.length sel = Z.to_nat t ->
          Shamir.Combine sel = inr secret)
  /\ forall env privKey sharePaths st,
       x509_marshal env privKey = Some secret ->
       rand_split env = Shamir.Draws coeff ->
       Z.of_nat (List.length sharePaths) = n ->
       (forall k p, write_ok env k p = true) ->
       exists st',
         SplitKeyAndWriteShares env privKey n t sharePaths st = (st', Ok tt)
         /\ forall sel,
              NoDup sel -> incl sel sharePaths ->
              List.length sel = Z.to_nat t ->
              CombineSharesFromFiles sel st' = (st', Ok secret).
Proof.
  intros Hs Ht Hn.
  pose proof (Split_valid coeff secret n t Ht Hn Hs) as Hsplit.
  set (shares := map (Shamir.make_share coeff (Z.to_nat t) secret)
                     (Shamir.identities (Z.to_nat n))) in *.
  clearbody shares.
  destruct (ShamirFacts.Split_NoDup _ _ _ _ _ Hsplit) as (Hnd & Hlen).
  split.
  - exists shares. split; [exact Hsplit|]. split; [lia|].
    intros sel Hsel Hincl Hsize.
    apply ShamirFacts.Combine_Split with (1 := Hsplit); auto. lia.
  - intros env privKey sharePaths st Hm Hrnd Hpaths Hok.
    destruct (write_shares_succeeds env Hok shares sharePaths st)
      as (st' & Hw); [lia|].
    exists st'. split.
    + unfold SplitKeyAndWriteShares, bindM, wrapM, MarshalECPrivateKey.
      rewrite Hpaths, Z.eqb_refl, Hm. cbn. unfold ret.
      rewrite Hrnd, Hsplit. exact Hw.
    + intros sel Hsel Hincl Hsize.
      destruct (read_shares_selected sharePaths shares st' sel)
        as (shs & Hread & Hall).
      { intros p Hp. apply (write_shares_files _ _ _ _ _ Hw); [lia|].
        now apply Hincl. }
      destruct (selected_shares_NoDup _ _ _ _ Hnd Hsel Hall)
        as (Hshs & Hin & Hcount).
      unfold CombineSharesFromFiles, bindM. rewrite Hread.
      unfold wrapM.
      rewrite (ShamirFacts.Combine_Split _ _ _ _ _ shs Hsplit Hshs Hin)
        by lia.
      reflexivity.
Qed.

Lemma split_then_combine_witness :
  exists st',
    SplitKeyAndWriteShares Sample.env Sample.key 5 3
      ["s1"; "s2"; "s3"; "s4"; "s5"] Sample.empty = (st', Ok tt)
    /\ CombineSharesFromFiles ["s5"; "s1"; "s3"] st' = (st', Ok ["*"%char]).
Proof.
  destruct (proj2 (split_then_combine Sample.coeff ["*"%char] 5 3
                     ltac:(discriminate) ltac:(lia) ltac:(lia))
              Sample.env Sample.key ["s1"; "s2"; "s3"; "s4"; "s5"]
              Sample.empty eq_refl eq_refl eq_refl (fun _ _ => eq_refl))
    as (st' & Hsplit & Hcombine).
  exists st'. split; [exact Hsplit|]. apply Hcombine.
  - repeat constructor; simpl; intuition discriminate.
  - intros p Hp. simpl in *. intuition.
  - reflexivity.
Defined.

(* ================================================================== *)
(** * Further properties                                                *)
(* ================================================================== *)

(** ** Comma-separated paths: the guard, joins and the form entries    *)

Module PathFacts.

Import GoStrings GoStringsFacts.

Lemma trim_loop_clean encs fuel s :
  strip_one encs s = None -> trim_loop encs fuel s = s.
Proof. intros H. destruct fuel; simpl; [reflexivity|]. now rewrite H. Qed.

Lemma TrimSpaceBytes_clean s :
  strip_one space_encodings s = None ->
  strip_one (map (@rev ascii) space_encodings) (rev s) = None ->
  TrimSpaceBytes s = s.
Proof.
  intros Hl Hr. unfold TrimSpaceBytes, trimRight, trimLeft.
  rewrite (trim_loop_clean _ _ s Hl), (trim_loop_clean _ _ (rev s) Hr).
  apply rev_involutive.
Qed.

Lemma leading_space_false s :
  leading_space s = false ->
  strip_one space_encodings (list_ascii_of_string s) = None.
Proof.
  unfold leading_space.
  destruct (strip_one space_encodings (list_ascii_of_string s));
    [discriminate|reflexivity].
Qed.

Lemma trailing_space_false s :
  trailing_space s = false ->
  strip_one (map (@rev ascii) space_encodings)
    (rev (list_ascii_of_string s)) = None.
Proof.
  unfold trailing_space.
  destruct (strip_one (map (@rev ascii) space_encodings)
              (rev (list_ascii_of_string s))); [discriminate|reflexivity].
Qed.

(** [TrimSpace] leaves a string without blank runes at its ends as it is. *)
Lemma TrimSpace_clean s :
  leading_space s = false -> trailing_space s = false -> TrimSpace s = s.
Proof.
  intros Hl Hr. unfold TrimSpace.
  rewrite TrimSpaceBytes_clean
    by (apply leading_space_false || apply trailing_space_false; assumption).
  apply string_of_list_ascii_of_string.
Qed.

Lemma all_blank_app encs s1 s2 :
  all_blank encs s1 -> all_blank encs s2 -> all_blank encs (s1 ++ s2).
Proof.
  induction 1 as [|e s He _ IH]; intros H2; [exact H2|].
  rewrite <- app_assoc. constructor; [exact He|now apply IH].
Qed.

Lemma all_blank_one encs e : In e encs -> all_blank encs e.
Proof.
  intros He. rewrite <- (app_nil_r e). constructor; [exact He|constructor].
Qed.

Lemma all_blank_rev encs s :
  all_blank (map (@rev ascii) encs) s -> all_blank encs (rev s).
Proof.
  induction 1 as [|e s He _ IH]; [constructor|].
  rewrite rev_app_distr. apply all_blank_app; [exact IH|].
  apply all_blank_one. apply in_map_iff in He.
  destruct He as (e0 & <- & He0). now rewrite rev_involutive.
Qed.

(** What the loop removes is made of blank runes. *)
Lemma trim_loop_removed encs : forall fuel s,
  exists pre, all_blank encs pre /\ s = pre ++ trim_loop encs fuel s.
Proof.
  induction fuel as [|fuel IH]; intros s; simpl.
  - exists []. split; [constructor|reflexivity].
  - destruct (strip_one encs s) as [r|] eqn:E.
    + destruct (strip_one_split _ _ _ E) as (e & He & ->).
      destruct (IH r) as (pre & Hpre & Hr). exists (e ++ pre). split.
      * now constructor.
      * rewrite <- app_assoc. now rewrite <- Hr.
    + exists []. split; [constructor|reflexivity].
Qed.

(** A byte sequence that [TrimSpace] empties is made of blank runes. *)
Lemma TrimSpaceBytes_empty s :
  TrimSpaceBytes s = [] -> all_blank space_encodings s.
Proof.
  unfold TrimSpaceBytes, trimRight, trimLeft. intros H.
  destruct (trim_loop_removed space_encodings (List.length s) s)
    as (pre & Hpre & Hs).
  set (l := trim_loop space_encodings (List.length s) s) in *.
  destruct (trim_loop_removed (map (@rev ascii) space_encodings)
              (List.length (rev l)) (rev l)) as (suf & Hsuf & Hl).
  assert (E : trim_loop (map (@rev ascii) space_encodings)
                (List.length (rev l)) (rev l) = []).
  { apply (f_equal (@rev ascii)) in H. rewrite rev_involutive in H.
    exact H. }
  rewrite E, app_nil_r in Hl. rewrite Hs. apply all_blank_app; [exact Hpre|].
  rewrite <- (rev_involutive l), Hl. now apply all_blank_rev.
Qed.

Lemma encodings_comma_free :
  forallb (fun e => negb (existsb (Ascii.eqb comma) e)) space_encodings = true.
Proof. reflexivity. Qed.

Lemma encoding_no_comma e : In e space_encodings -> ~ In comma e.
Proof.
  intros He Hin.
  pose proof (proj1 (forallb_forall _ _) encodings_comma_free e He) as H.
  apply negb_true_iff in H.
  assert (T : existsb (Ascii.eqb comma) e = true).
  { apply existsb_exists. exists comma. split; [exact Hin|].
    apply Ascii.eqb_refl. }
  rewrite T in H. discriminate.
Qed.

Lemma all_blank_no_comma s : all_blank space_encodings s -> ~ In comma s.
Proof.
  induction 1 as [|e s He _ IH]; [intros []|]. intros Hin.
  apply in_app_or in Hin. destruct Hin as [Hin|Hin]; [|contradiction].
  now apply (encoding_no_comma e He).
Qed.

Lemma split_comma_no_comma s : ~ In comma s -> split_comma s = [s].
Proof.
  induction s as [|c s IH]; intros H; simpl; [reflexivity|].
  destruct (Ascii.eqb_spec c comma) as [->|Hc].
  - exfalso. apply H. now left.
  - rewrite IH; [reflexivity|]. intros Hin. apply H. now right.
Qed.

Lemma split_comma_cons p rest :
  ~ In comma p -> split_comma (p ++ comma :: rest) = p :: split_comma rest.
Proof.
  induction p as [|c p IH]; intros H; simpl.
  - reflexivity.
  - destruct (Ascii.eqb_spec c comma) as [->|Hc].
    + exfalso. apply H. now left.
    + rewrite IH; [reflexivity|]. intros Hin. apply H. now right.
Qed.

Lemma list_ascii_of_string_app a b :
  list_ascii_of_string (a ++ b)
  = list_ascii_of_string a ++ list_ascii_of_string b.
Proof. induction a as [|c a IH]; simpl; [reflexivity|]. now rewrite IH. Qed.

Lemma string_of_list_ascii_empty l : string_of_list_ascii l = "" -> l = [].
Proof. destruct l; [reflexivity|discriminate]. Qed.

(** A blank input is one blank segment. *)
Lemma blank_segments (input : string) :
  TrimSpace input = "" ->
  filter nonempty (map TrimSpace (SplitComma input)) = [].
Proof.
  intros E. unfold SplitComma.
  assert (Hc : ~ In comma (list_ascii_of_string input)).
  { apply all_blank_no_comma, TrimSpaceBytes_empty.
    apply string_of_list_ascii_empty. exact E. }
  rewrite (split_comma_no_comma _ Hc). simpl.
  rewrite string_of_list_ascii_of_string, E. reflexivity.
Qed.

(** The result without the guard at the head of the function. *)
Lemma parse_filter (input : string) :
  ParseCommaSeparatedPaths input
  = filter nonempty (map TrimSpace (SplitComma input)).
Proof.
  unfold ParseCommaSeparatedPaths.
  destruct (nonempty (TrimSpace input)) eqn:E;
    [apply keep_trimmed_filter|].
  apply nonempty_false in E. now rewrite blank_segments.
Qed.

Lemma split_comma_joinb : forall parts,
  parts <> [] ->
  Forall (fun p => ~ In comma p) parts ->
  split_comma (joinb parts) = parts.
Proof.
  induction parts as [|p rest IH]; intros Hne Hall; [contradiction|].
  inversion Hall as [|? ? Hp Hrest]; subst.
  destruct rest as [|q rest].
  - simpl. now apply split_comma_no_comma.
  - change (joinb (p :: q :: rest)) with (p ++ comma :: joinb (q :: rest)).
    rewrite split_comma_cons by exact Hp.
    rewrite IH; [reflexivity|discriminate|exact Hrest].
Qed.

Lemma concat_joinb parts :
  list_ascii_of_string (String.concat "," parts)
  = joinb (map list_ascii_of_string parts).
Proof.
  induction parts as [|p rest IH]; [reflexivity|].
  destruct rest as [|q rest]; [reflexivity|].
  change (String.concat "," (p :: q :: rest))
    with (p ++ "," ++ String.concat "," (q :: rest))%string.
  rewrite list_ascii_of_string_app.
  change (list_ascii_of_string ("," ++ String.concat "," (q :: rest)))
    with (comma :: list_ascii_of_string (String.concat "," (q :: rest))).
  rewrite IH. reflexivity.
Qed.

Lemma map_string_of_bytes (l : list string) :
  map string_of_list_ascii (map list_ascii_of_string l) = l.
Proof.
  rewrite map_map. rewrite <- (map_id l) at 2. apply map_ext.
  intros a. apply string_of_list_ascii_of_string.
Qed.

(** Splitting a join of comma-free strings gives the strings back. *)
Lemma SplitComma_concat parts :
  parts <> [] ->
  Forall comma_free parts ->
  SplitComma (String.concat "," parts) = parts.
Proof.
  intros Hne Hall. unfold SplitComma. rewrite concat_joinb.
  rewrite split_comma_joinb.
  - apply map_string_of_bytes.
  - destruct parts; [contradiction|discriminate].
  - apply Forall_map. exact Hall.
Qed.

Lemma map_TrimSpace_clean parts :
  Forall clean parts -> map TrimSpace parts = parts.
Proof.
  induction 1 as [|p rest (_ & Hl & Hr) _ IH]; simpl; [reflexivity|].
  now rewrite IH, TrimSpace_clean.
Qed.

Lemma filter_nonempty_clean parts :
  Forall clean parts -> filter nonempty parts = parts.
Proof.
  induction 1 as [|p rest (Hne & _) _ IH]; simpl; [reflexivity|].
  apply nonempty_true in Hne. now rewrite Hne, IH.
Qed.

(** Parsing a join of clean comma-free paths gives the paths back. *)
Lemma parse_concat parts :
  Forall clean parts -> Forall comma_free parts ->
  ParseCommaSeparatedPaths (String.concat "," parts) = parts.
Proof.
  intros Hclean Hfree. rewrite parse_filter.
  destruct parts as [|p rest]; [reflexivity|].
  rewrite SplitComma_concat by (discriminate || assumption).
  now rewrite map_TrimSpace_clean, filter_nonempty_clean.
Qed.

Lemma split_comma_segments s : Forall (fun p => ~ In comma p) (split_comma s).
Proof.
  induction s as [|c s IH]; simpl.
  - constructor; [intros []|constructor].
  - destruct (Ascii.eqb_spec c comma) as [->|Hc].
    + constructor; [intros []|exact IH].
    + destruct (split_comma s) as [|h t]; [repeat constructor|].
      * intros [E|[]]. now apply Hc.
      * inversion IH as [|? ? Hh Ht]; subst. constructor; [|exact Ht].
        intros [E|Hin]; [now apply Hc|contradiction].
Qed.

(** [TrimSpace] only removes bytes. *)
Lemma TrimSpaceBytes_incl s c : In c (TrimSpaceBytes s) -> In c s.
Proof.
  unfold TrimSpaceBytes, trimRight. intros H.
  destruct (trimLeft_suffix space_encodings s) as (pre & Hs).
  set (l := trimLeft space_encodings s) in *.
  destruct (trimLeft_suffix (map (@rev ascii) space_encodings) (rev l))
    as (suf & Hl).
  rewrite Hs. apply in_or_app. right.
  apply in_rev. rewrite Hl. apply in_or_app. right.
  now apply in_rev in H.
Qed.

Lemma parse_clean input : Forall clean (ParseCommaSeparatedPaths input).
Proof.
  rewrite parse_filter. apply Forall_forall. intros p Hp.
  apply filter_In in Hp. destruct Hp as [Hin Hne].
  apply in_map_iff in Hin. destruct Hin as (seg & <- & _).
  split; [now apply nonempty_true|].
  split; [apply TrimSpace_no_leading|apply TrimSpace_no_trailing].
Qed.

Lemma parse_comma_free input :
  Forall comma_free (ParseCommaSeparatedPaths input).
Proof.
  rewrite parse_filter. apply Forall_forall. intros p Hp.
  apply filter_In in Hp. destruct Hp as [Hin _].
  apply in_map_iff in Hin. destruct Hin as (seg & <- & Hseg).
  unfold SplitComma in Hseg. apply in_map_iff in Hseg.
  destruct Hseg as (b & <- & Hb).
  pose proof (proj1 (Forall_forall _ _)
                (split_comma_segments (list_ascii_of_string input)) b Hb)
    as Hfree.
  unfold comma_free, TrimSpace.
  rewrite !list_ascii_of_string_of_list_ascii. intros Hin.
  now apply TrimSpaceBytes_incl in Hin.
Qed.

Lemma string_app_assoc (a b c : string) :
  ((a ++ b) ++ c = a ++ (b ++ c))%string.
Proof. induction a as [|x a IH]; simpl; [reflexivity|]. now rewrite IH. Qed.

Lemma appendPath_nonempty acc p : acc <> "" -> appendPath acc p <> "".
Proof.
  intros Hacc. unfold appendPath. apply String.eqb_neq in Hacc.
  rewrite Hacc. destruct acc; [now apply String.eqb_neq in Hacc|discriminate].
Qed.

Lemma fold_appendPath : forall paths acc,
  acc <> "" ->
  fold_left appendPath paths acc = String.concat "," (acc :: paths).
Proof.
  induction paths as [|p rest IH]; intros acc Hacc; [reflexivity|].
  cbn [fold_left]. rewrite IH by now apply appendPath_nonempty.
  unfold appendPath. apply String.eqb_neq in Hacc. rewrite Hacc.
  destruct rest as [|q rest]; [reflexivity|].
  change (String.concat "," ((acc ++ "," ++ p)%string :: q :: rest))
    with ((acc ++ "," ++ p) ++ "," ++ String.concat "," (q :: rest))%string.
  change (String.concat "," (acc :: p :: q :: rest))
    with (acc ++ "," ++ (p ++ "," ++ String.concat "," (q :: rest)))%string.
  rewrite string_app_assoc. reflexivity.
Qed.

(** Adding paths that are not empty one by one joins them with commas. *)
Lemma entry_after_concat paths :
  Forall (fun p => p <> "") paths ->
  entry_after paths = String.concat "," paths.
Proof.
  unfold entry_after. destruct 1 as [|p rest Hp _]; [reflexivity|].
  cbn [fold_left]. unfold appendPath at 2. simpl String.eqb.
  now apply fold_appendPath.
Qed.

Lemma strip_prefix_before_comma e : forall p r x,
  ~ In comma e ->
  strip_prefix e (p ++ comma :: r) = Some x ->
  exists y, strip_prefix e p = Some y.
Proof.
  induction e as [|a e IH]; intros p r x He H; simpl in *.
  - now exists p.
  - destruct p as [|b p]; simpl in H.
    + destruct (Ascii.eqb_spec a comma) as [->|]; [|discriminate].
      exfalso. apply He. now left.
    + destruct (Ascii.eqb a b); [|discriminate].
      apply IH with r x; [|exact H]. intros Hin. apply He. now right.
Qed.

Lemma strip_one_before_comma encs p r :
  Forall (fun e => ~ In comma e) encs ->
  strip_one encs p = None ->
  strip_one encs (p ++ comma :: r) = None.
Proof.
  induction 1 as [|e encs He _ IH]; intros H; simpl in *; [reflexivity|].
  destruct (strip_prefix e p) as [y|] eqn:Ep; [discriminate|].
  destruct (strip_prefix e (p ++ comma :: r)) as [x|] eqn:E.
  - destruct (strip_prefix_before_comma e p r x He E) as (y & Hy).
    rewrite Hy in Ep. discriminate.
  - now apply IH.
Qed.

Lemma strip_one_joinb encs p rest :
  Forall (fun e => ~ In comma e) encs ->
  strip_one encs p = None ->
  strip_one encs (joinb (p :: rest)) = None.
Proof.
  intros Hencs Hp. destruct rest as [|q rest]; [exact Hp|].
  change (joinb (p :: q :: rest)) with (p ++ comma :: joinb (q :: rest)).
  now apply strip_one_before_comma.
Qed.

Lemma joinb_snoc : forall l x,
  l <> [] -> joinb (l ++ [x]) = joinb l ++ comma :: x.
Proof.
  induction l as [|p rest IH]; intros x Hne; [contradiction|].
  destruct rest as [|q rest]; [reflexivity|].
  change (joinb ((p :: q :: rest) ++ [x]))
    with (p ++ comma :: joinb ((q :: rest) ++ [x])).
  rewrite IH by discriminate.
  change (joinb (p :: q :: rest)) with (p ++ comma :: joinb (q :: rest)).
  now rewrite <- app_assoc.
Qed.

Lemma rev_joinb : forall l, rev (joinb l) = joinb (map (@rev ascii) (rev l)).
Proof.
  induction l as [|p rest IH]; [reflexivity|].
  destruct rest as [|q rest]; [reflexivity|].
  change (joinb (p :: q :: rest)) with (p ++ comma :: joinb (q :: rest)).
  rewrite rev_app_distr. cbn [rev]. rewrite <- app_assoc. cbn [app].
  rewrite IH. change (rev (p :: q :: rest)) with (rev (q :: rest) ++ [p]).
  rewrite map_app. cbn [map]. rewrite joinb_snoc; [reflexivity|].
  intros H. apply map_eq_nil in H. simpl in H.
  destruct (rev rest); discriminate.
Qed.

Lemma reversed_encodings_comma_free :
  Forall (fun e => ~ In comma e) (map (@rev ascii) space_encodings).
Proof.
  apply Forall_forall. intros e He Hin. apply in_map_iff in He.
  destruct He as (e0 & <- & He0). apply in_rev in Hin.
  now apply (encoding_no_comma e0).
Qed.

Lemma encodings_comma_free_all :
  Forall (fun e => ~ In comma e) space_encodings.
Proof. apply Forall_forall. intros e He. now apply encoding_no_comma. Qed.

(** A join of clean strings has no blank rune at its ends. *)
Lemma TrimSpace_concat parts :
  Forall clean parts -> TrimSpace (String.concat "," parts)
                        = String.concat "," parts.
Proof.
  intros Hall. destruct parts as [|p rest]; [reflexivity|].
  unfold TrimSpace. rewrite concat_joinb, TrimSpaceBytes_clean.
  - rewrite <- concat_joinb. apply string_of_list_ascii_of_string.
  - cbn [map]. apply strip_one_joinb; [apply encodings_comma_free_all|].
    inversion Hall as [|? ? (_ & Hl & _) _]; subst.
    now apply leading_space_false.
  - rewrite rev_joinb.
    assert (Hlast : exists l x, p :: rest = l ++ [x])
      by (destruct (exists_last (l := p :: rest)) as (l & x & E);
          [discriminate|now exists l, x]).
    destruct Hlast as (l & x & E). rewrite E, map_app, rev_app_distr.
    cbn [map rev app]. apply strip_one_joinb;
      [apply reversed_encodings_comma_free|].
    assert (Hx : clean x).
    { apply (proj1 (Forall_forall _ _) Hall). rewrite E.
      apply in_or_app. right. now left. }
    destruct Hx as (_ & _ & Hr). now apply trailing_space_false.
Qed.

End PathFacts.

(** X1. The guard at the head of [ParseCommaSeparatedPaths] changes no
    result: for every input, blank or not, the function returns the
    trimmed comma-separated segments without the empty ones, in order. *)
Theorem ParseCommaSeparatedPaths_is_filter (input : string) :
  ParseCommaSeparatedPaths input
  = filter nonempty (map GoStrings.TrimSpace (GoStrings.SplitComma input)).
Proof.
  unfold ParseCommaSeparatedPaths.
  destruct (nonempty (GoStrings.TrimSpace input)) eqn:E.
  - apply keep_trimmed_filter.
  - apply nonempty_false in E. symmetry.
    now apply PathFacts.blank_segments.
Qed.

(** X2. Joining paths with commas and parsing the result gives the paths
    back, when no path contains a comma, none is empty and none starts or
    ends with a blank rune. *)
Theorem ParseCommaSeparatedPaths_join (paths : list string) :
  Forall clean paths -> Forall comma_free paths ->
  ParseCommaSeparatedPaths (String.concat "," paths) = paths.
Proof.
  intros Hclean Hfree. rewrite PathFacts.parse_filter.
  destruct paths as [|p rest]; [reflexivity|].
  rewrite PathFacts.SplitComma_concat by (discriminate || assumption).
  rewrite PathFacts.map_TrimSpace_clean by exact Hclean.
  now apply PathFacts.filter_nonempty_clean.
Qed.

Lemma ParseCommaSeparatedPaths_join_witness :
  ParseCommaSeparatedPaths
    (String.concat "," ["root-share1.txt"; "dir/share 2.txt"])
  = ["root-share1.txt"; "dir/share 2.txt"].
Proof.
  apply ParseCommaSeparatedPaths_join.
  - repeat constructor; discriminate.
  - repeat constructor; vm_compute; intuition discriminate.
Defined.

(** X3. No entry returned by [ParseCommaSeparatedPaths] contains a comma,
    and parsing is idempotent: joining the result with commas and parsing
    it again returns the same list. *)
Theorem ParseCommaSeparatedPaths_idempotent (input : string) :
  Forall comma_free (ParseCommaSeparatedPaths input)
  /\ ParseCommaSeparatedPaths
       (String.concat "," (ParseCommaSeparatedPaths input))
     = ParseCommaSeparatedPaths input.
Proof.
  split; [apply PathFacts.parse_comma_free|].
  apply PathFacts.parse_concat.
  - apply PathFacts.parse_clean.
  - apply PathFacts.parse_comma_free.
Qed.


(** X4. The share entries of the form: after paths are added one by one
    with an "Add ..." button, starting from an empty entry, the handlers
    read back exactly these paths, in order, when no path contains a comma,
    none is empty and none starts or ends with a blank rune. *)
Theorem split_entry_after (paths : list string) :
  paths <> [] -> Forall clean paths -> Forall comma_free paths ->
  split_entry (entry_after paths) = paths.
Proof.
  intros Hne Hclean Hfree. unfold split_entry.
  rewrite PathFacts.entry_after_concat.
  - rewrite PathFacts.TrimSpace_concat by exact Hclean.
    now apply PathFacts.SplitComma_concat.
  - eapply Forall_impl; [|exact Hclean]. intros p (Hp & _). exact Hp.
Qed.

Lemma split_entry_after_witness :
  split_entry (entry_after ["/tmp/s1.txt"; "/tmp/s2.txt"; "/tmp/s3.txt"])
  = ["/tmp/s1.txt"; "/tmp/s2.txt"; "/tmp/s3.txt"].
Proof.
  apply split_entry_after.
  - discriminate.
  - repeat constructor; discriminate.
  - repeat constructor; vm_compute; intuition discriminate.
Defined.

(* ================================================================== *)
(** ** More on [BuildSubject] and [GenerateKeyAndCert]                 *)
(* ================================================================== *)

(** X5. The two front-ends build the same subject: when [BuildSubject]
    succeeds, its result is what [createSubjectFromInputs] builds from the
    same six values, and its common name is not empty; it fails only for an
    empty common name, with the error "common name (CN) is required".  An
    optional attribute is present exactly when its value is not empty. *)
Theorem BuildSubject_createSubjectFromInputs (f : Flags) :
  let s := createSubjectFromInputs (flag_cn f) (flag_org f) (flag_ou f)
             (flag_locality f) (flag_province f) (flag_country f) in
  (flag_cn f <> "" -> BuildSubject f = Ok s)
  /\ (flag_cn f = "" -> BuildSubject f = Err CommonNameRequired)
  /\ CommonName s = flag_cn f
  /\ (Organization s = [] <-> flag_org f = "")
  /\ (OrganizationalUnit s = [] <-> flag_ou f = "")
  /\ (Locality s = [] <-> flag_locality f = "")
  /\ (Province s = [] <-> flag_province f = "")
  /\ (Country s = [] <-> flag_country f = "").
Proof.
  assert (A : forall v, attribute v = [] <-> v = "").
  { intros v. unfold attribute. destruct (String.eqb_spec v "") as [->|Hv].
    - tauto.
    - split; [discriminate|contradiction]. }
  cbv zeta. unfold BuildSubject, createSubjectFromInputs. cbn [CommonName
    Organization OrganizationalUnit Locality Province Country].
  split; [|split].
  - intros H. apply String.eqb_neq in H. now rewrite H.
  - intros H. now rewrite H.
  - split; [reflexivity|]. repeat split; apply A.
Qed.

Lemma BuildSubject_createSubjectFromInputs_witness :
  BuildSubject Sample.create_root
  = Ok (createSubjectFromInputs "RootCA" "MyOrg" "" "" "" "").
Proof.
  apply (proj1 (BuildSubject_createSubjectFromInputs Sample.create_root)).
  discriminate.
Defined.

(** X6. Who signs: the certificate is issued under the parent's subject
    and signed with the parent key only when both the parent certificate
    and the parent key are given; when either is missing the certificate is
    self-signed (issuer = subject, signed with its own new key), without an
    error.  In both cases the certificate carries the new public key. *)
Theorem GenerateKeyAndCert_signer env subject parentCert parentKey isCA d ku
    st st' cert priv :
  GenerateKeyAndCert env subject parentCert parentKey isCA d ku st
  = (st', Ok (cert, priv)) ->
  Subject cert = subject
  /\ SubjectKey cert = Public priv
  /\ match parentCert, parentKey with
     | Some parent, Some key =>
         Issuer cert = Subject parent /\ SignedBy cert = Public key
     | _, _ => Issuer cert = Subject cert /\ SignedBy cert = Public priv
     end.
Proof.
  unfold GenerateKeyAndCert, bindM, wrapM, GenerateKey, NewSerialNumber,
    CreateCertificate, log, ret, fail.
  destruct (rand_key env) as [k|]; [|discriminate].
  destruct (rand_serial env) as [serial|]; [|discriminate].
  destruct parentCert as [pc|], parentKey as [pk|];
    destruct (x509_create_ok env); simpl; intros H; inversion H; subst;
    simpl; repeat split; reflexivity.
Qed.

Lemma GenerateKeyAndCert_signer_witness :
  exists st' cert priv,
    GenerateKeyAndCert Sample.env Sample.subject
      (Some {| SerialNumber := 1; Subject := Sample.subject;
               NotBefore := 0; NotAfter := 0; IsCA := true;
               BasicConstraintsValid := true; MaxPathLen := 1;
               MaxPathLenZero := false; KeyUsage := 37;
               Issuer := Sample.subject; SubjectKey := PublicOf 7;
               SignedBy := PublicOf 7 |})
      None false 365%Z 1%Z Sample.empty = (st', Ok (cert, priv))
    /\ Issuer cert = Subject cert /\ SignedBy cert = Public priv.
Proof.
  do 3 eexists.
  assert (H : GenerateKeyAndCert Sample.env Sample.subject
                (Some {| SerialNumber := 1; Subject := Sample.subject;
                         NotBefore := 0; NotAfter := 0; IsCA := true;
                         BasicConstraintsValid := true; MaxPathLen := 1;
                         MaxPathLenZero := false; KeyUsage := 37;
                         Issuer := Sample.subject; SubjectKey := PublicOf 7;
                         SignedBy := PublicOf 7 |})
                None false 365%Z 1%Z Sample.empty = (_, Ok (_, _)))
    by (vm_compute; reflexivity).
  split; [exact H|].
  exact (proj2 (proj2 (GenerateKeyAndCert_signer _ _ _ _ _ _ _ _ _ _ _ H))).
Defined.

(** X7. What a failed call leaves behind: no file is touched; when the key
    generation itself fails nothing has happened; when the serial number or
    the creation of the certificate fails, a key pair has been generated
    and is dropped with the error. *)
Theorem GenerateKeyAndCert_failure env subject parentCert parentKey isCA d ku
    st st' e :
  GenerateKeyAndCert env subject parentCert parentKey isCA d ku st
  = (st', Err e) ->
  files st' = files st
  /\ ((root_cause e = KeyGenerationFailed
       /\ rand_key env = None /\ trace st' = trace st)
      \/ (exists k,
            rand_key env = Some k
            /\ trace st' = trace st ++ [KeyGenerated k]
            /\ ((root_cause e = SerialNumberFailed /\ rand_serial env = None)
                \/ (root_cause e = CreateCertificateFailed
                    /\ x509_create_ok env = false)))).
Proof.
  unfold GenerateKeyAndCert, bindM, wrapM, GenerateKey, NewSerialNumber,
    CreateCertificate, log, ret, fail.
  destruct (rand_key env) as [k|];
    [|simpl; intros H; inversion H; subst; auto].
  destruct (rand_serial env) as [serial|];
    [|simpl; intros H; inversion H; subst; simpl; split; [reflexivity|];
      right; exists k; auto].
  destruct parentCert as [pc|], parentKey as [pk|];
    destruct (x509_create_ok env); simpl; intros H; inversion H; subst;
    simpl; (split; [reflexivity|]); right; exists k; auto.
Qed.

Lemma GenerateKeyAndCert_failure_witness :
  exists st' e,
    GenerateKeyAndCert
      {| now := 0; rand_key := Some Sample.key; rand_serial := None;
         rand_split := Shamir.Unavailable; x509_create_ok := true;
         x509_marshal := Sample.marshal; x509_parse_key := Sample.parse_key;
         write_ok := fun _ _ => true |}
      Sample.subject None None true 365%Z 5%Z Sample.empty = (st', Err e)
    /\ trace st' = [KeyGenerated Sample.key]
    /\ root_cause e = SerialNumberFailed.
Proof.
  do 2 eexists.
  assert (H : GenerateKeyAndCert
      {| now := 0; rand_key := Some Sample.key; rand_serial := None;
         rand_split := Shamir.Unavailable; x509_create_ok := true;
         x509_marshal := Sample.marshal; x509_parse_key := Sample.parse_key;
         write_ok := fun _ _ => true |}
      Sample.subject None None true 365%Z 5%Z Sample.empty = (_, Err _))
    by (vm_compute; reflexivity).
  split; [exact H|].
  destruct (GenerateKeyAndCert_failure _ _ _ _ _ _ _ _ _ _ H) as (_ & D).
  destruct D as [(C & _)|(k & Hk & Htr & _)]; [discriminate C|].
  inversion Hk; subst k. split; [exact Htr|reflexivity].
Defined.

(** X8. The validity in days is not checked.  For a day count [d] between
    -106751 and 106751 the window ends before it starts exactly when [d]
    is negative and is empty exactly when [d] is zero; the certificate is
    issued all the same. *)
Theorem GenerateKeyAndCert_nonpositive_days env subject parentCert parentKey
    isCA d ku st st' cert priv :
  (-106751 <= d <= 106751)%Z ->
  GenerateKeyAndCert env subject parentCert parentKey isCA d ku st
  = (st', Ok (cert, priv)) ->
  ((NotAfter cert < NotBefore cert)%Z <-> (d < 0)%Z)
  /\ (NotAfter cert = NotBefore cert <-> d = 0%Z).
Proof.
  intros Hd H. apply GenerateKeyAndCert_ok in H.
  destruct H as (_ & _ & _ & _ & Hnb & Hna & _).
  rewrite Hna, Hnb. unfold Hour.
  rewrite (wrap64_small (d * 24)) by lia.
  rewrite wrap64_small by lia. lia.
Qed.

Lemma GenerateKeyAndCert_nonpositive_days_witness :
  exists st' cert priv,
    GenerateKeyAndCert Sample.env Sample.subject None None true (-1)%Z 5%Z
      Sample.empty = (st', Ok (cert, priv))
    /\ (NotAfter cert < NotBefore cert)%Z.
Proof.
  do 3 eexists.
  assert (H : GenerateKeyAndCert Sample.env Sample.subject None None true
                (-1)%Z 5%Z Sample.empty = (_, Ok (_, _)))
    by (vm_compute; reflexivity).
  split; [exact H|].
  apply (proj1 (GenerateKeyAndCert_nonpositive_days _ _ _ _ _ (-1)%Z _ _ _
                  _ _ ltac:(lia) H)).
  lia.
Defined.

(* ================================================================== *)
(** ** What the operations write                                       *)
(* ================================================================== *)

Lemma shares_only_pure {A} paths (m : M A) : pure m -> shares_only paths m.
Proof.
  intros Hm st st' r H. apply Hm in H. subst st'. exists [].
  split; [now rewrite app_nil_r|]. split; [intros k []|].
  split; [intros p d []|reflexivity].
Qed.

Lemma shares_only_wrapM {A} paths context (m : M A) :
  shares_only paths m -> shares_only paths (wrapM context m).
Proof.
  intros Hm st st' r H. apply wrapM_inv in H. destruct H as (r0 & H & _).
  now apply Hm in H.
Qed.

Lemma shares_only_bindM {A B} paths (m : M A) (f : A -> M B) :
  shares_only paths m -> (forall a, shares_only paths (f a)) ->
  shares_only paths (bindM m f).
Proof.
  intros Hm Hf st st' r H. apply bindM_inv in H.
  destruct H as [(a & st1 & H1 & H2)|(e & H1 & _)]; [|now apply Hm in H1].
  apply Hm in H1. apply Hf in H2.
  destruct H1 as (evs1 & Ht1 & Hk1 & Hw1 & Hf1).
  destruct H2 as (evs2 & Ht2 & Hk2 & Hw2 & Hf2).
  exists (evs1 ++ evs2). split; [now rewrite Ht2, Ht1, app_assoc|].
  split; [|split].
  - intros k Hin. apply in_app_or in Hin.
    destruct Hin as [Hin|Hin]; [now apply Hk1 in Hin|now apply Hk2 in Hin].
  - intros p d Hin. apply in_app_or in Hin.
    destruct Hin as [Hin|Hin]; [now apply Hw1|now apply Hw2].
  - intros p Hp. now rewrite Hf2, Hf1.
Qed.

Lemma shares_only_WriteFile env paths path s :
  In path paths ->
  shares_only paths (WriteFile env path (Bytes (Base64.EncodeToString s))).
Proof.
  intros Hin st st' r H. apply WriteFile_inv in H.
  destruct H as [(_ & _ & Htr & Hf)|(_ & _ & Htr & Hf)].
  - exists [Wrote path (Bytes (Base64.EncodeToString s))].
    split; [exact Htr|].
    split; [intros k [E|[]]; discriminate|]. split.
    + intros p d [E|[]]. inversion E; subst. split; [exact Hin|now exists s].
    + intros p Hp. rewrite Hf. apply update_other. intros ->. contradiction.
  - exists [WriteFailed path]. split; [exact Htr|].
    split; [intros k [E|[]]; discriminate|].
    split; [intros p d [E|[]]; discriminate|].
    intros p _. now rewrite Hf.
Qed.

Lemma shares_only_write_shares env all : forall shares paths,
  incl paths all -> shares_only all (write_shares env shares paths).
Proof.
  induction shares as [|s shares IH]; intros paths Hincl; cbn [write_shares].
  - apply shares_only_pure, pure_ret.
  - destruct paths as [|path paths]; [apply shares_only_pure, pure_fail|].
    apply shares_only_bindM.
    + apply shares_only_wrapM, shares_only_WriteFile. apply Hincl. now left.
    + intros _. apply IH. intros p Hp. apply Hincl. now right.
Qed.

Lemma shares_only_SplitKeyAndWriteShares env key n t paths :
  shares_only paths (SplitKeyAndWriteShares env key n t paths).
Proof.
  unfold SplitKeyAndWriteShares.
  destruct (negb (Z.of_nat (List.length paths) =? n)%Z);
    [apply shares_only_pure, pure_fail|].
  apply shares_only_bindM;
    [apply shares_only_pure, pure_MarshalECPrivateKey|].
  intros keyBytes. apply shares_only_bindM.
  - apply shares_only_pure, pure_wrapM, pure_of_shamir.
  - intros shares. apply shares_only_write_shares. intros p Hp. exact Hp.
Qed.

(** X9. [SplitKeyAndWriteShares] touches the share destinations only:
    whatever the outcome, every file it writes is base64 text at one of
    [sharePaths], every other file is left as it is, and it generates no
    key; with a count of destinations different from [n] it fails at once
    and writes nothing. *)
Theorem SplitKeyAndWriteShares_frame env privKey n t sharePaths st st' r :
  SplitKeyAndWriteShares env privKey n t sharePaths st = (st', r) ->
  (exists evs,
     trace st' = trace st ++ evs
     /\ (forall k, ~ In (KeyGenerated k) evs)
     /\ (forall p d, In (Wrote p d) evs ->
           In p sharePaths /\ exists s, d = Bytes (Base64.EncodeToString s)))
  /\ (forall p, ~ In p sharePaths -> files st' p = files st p)
  /\ (Z.of_nat (List.length sharePaths) <> n ->
      st' = st /\ r = Err (ShareCountMismatch (List.length sharePaths) n)).
Proof.
  intros H.
  destruct (shares_only_SplitKeyAndWriteShares _ _ _ _ _ _ _ _ H)
    as (evs & Htr & Hk & Hw & Hf).
  split; [now exists evs|]. split; [exact Hf|].
  intros Hn. revert H. unfold SplitKeyAndWriteShares.
  apply Z.eqb_neq in Hn. rewrite Hn. simpl. intros H. now inversion H.
Qed.

Lemma SplitKeyAndWriteShares_frame_witness :
  (exists st',
     SplitKeyAndWriteShares Sample.env Sample.key 3 2
       ["a.txt"; "b.txt"; "c.txt"] Sample.empty = (st', Ok tt)
     /\ files st' "rootCA.pem" = files Sample.empty "rootCA.pem")
  /\ SplitKeyAndWriteShares Sample.env Sample.key 3 2 ["a.txt"; "b.txt"]
       Sample.empty
     = (Sample.empty, Err (ShareCountMismatch 2 3)).
Proof.
  split.
  - assert (R : exists st',
               SplitKeyAndWriteShares Sample.env Sample.key 3 2
                 ["a.txt"; "b.txt"; "c.txt"] Sample.empty = (st', Ok tt))
      by (eexists; vm_compute; reflexivity).
    destruct R as (st' & R). exists st'. split; [exact R|].
    destruct (SplitKeyAndWriteShares_frame _ _ _ _ _ _ _ _ R)
      as (_ & Hframe & _).
    apply Hframe. intros [E|[E|[E|[]]]]; discriminate.
  - destruct (SplitKeyAndWriteShares Sample.env Sample.key 3 2
                ["a.txt"; "b.txt"] Sample.empty) as [st' r] eqn:R.
    destruct (SplitKeyAndWriteShares_frame _ _ _ _ _ _ _ _ R)
      as (_ & _ & Hcount).
    destruct Hcount as [-> ->]; [discriminate|reflexivity].
Defined.

Lemma writes_only_pure {A} Q (m : M A) : pure m -> writes_only Q m.
Proof.
  intros Hm st st' r H. apply Hm in H. subst st'. exists [].
  split; [now rewrite app_nil_r|]. split; [intros k []|intros p d []].
Qed.

Lemma writes_only_wrapM {A} Q context (m : M A) :
  writes_only Q m -> writes_only Q (wrapM context m).
Proof.
  intros Hm st st' r H. apply wrapM_inv in H. destruct H as (r0 & H & _).
  now apply Hm in H.
Qed.

Lemma writes_only_bindM {A B} Q (m : M A) (f : A -> M B) :
  writes_only Q m -> (forall a, writes_only Q (f a)) ->
  writes_only Q (bindM m f).
Proof.
  intros Hm Hf st st' r H. apply bindM_inv in H.
  destruct H as [(a & st1 & H1 & H2)|(e & H1 & _)]; [|now apply Hm in H1].
  apply Hm in H1. apply Hf in H2.
  destruct H1 as (evs1 & Ht1 & Hk1 & Hw1).
  destruct H2 as (evs2 & Ht2 & Hk2 & Hw2).
  exists (evs1 ++ evs2). split; [now rewrite Ht2, Ht1, app_assoc|]. split.
  - intros k Hin. apply in_app_or in Hin.
    destruct Hin as [Hin|Hin]; [now apply Hk1 in Hin|now apply Hk2 in Hin].
  - intros p d Hin. apply in_app_or in Hin.
    destruct Hin as [Hin|Hin]; [now apply Hw1|now apply Hw2].
Qed.

Lemma writes_only_WriteFile env (Q : string -> FileData -> Prop) path d :
  Q path d -> writes_only Q (WriteFile env path d).
Proof.
  intros HQ st st' r H. apply WriteFile_inv in H.
  destruct H as [(_ & _ & Htr & _)|(_ & _ & Htr & _)].
  - exists [Wrote path d]. split; [exact Htr|].
    split; [intros k [E|[]]; discriminate|].
    intros p d' [E|[]]. now inversion E; subst.
  - exists [WriteFailed path]. split; [exact Htr|].
    split; [intros k [E|[]]; discriminate|intros p d' [E|[]]; discriminate].
Qed.

Lemma writes_only_shares {A} paths (m : M A) :
  shares_only paths m -> writes_only (share_file paths) m.
Proof.
  intros Hm st st' r H. apply Hm in H.
  destruct H as (evs & Htr & Hk & Hw & _). exists evs.
  split; [exact Htr|]. split; [exact Hk|]. intros p d Hin. now apply Hw.
Qed.

(** The export of the leaf key writes the key file, if asked to. *)
Lemma writes_only_key_export env key keyOut context :
  writes_only (key_file keyOut)
    (if negb (is_empty keyOut)
     then wrapM context (WriteECPrivateKeyToFile env key keyOut)
     else ret tt).
Proof.
  destruct (is_empty keyOut) eqn:E; simpl;
    [apply writes_only_pure, pure_ret|].
  apply is_empty_false in E. apply writes_only_wrapM.
  unfold WriteECPrivateKeyToFile. apply writes_only_bindM.
  - apply writes_only_pure, pure_MarshalECPrivateKey.
  - intros der. apply writes_only_WriteFile. split; [exact E|].
    split; [reflexivity|now exists der].
Qed.

Lemma GenerateKeyAndCert_issued env subject parentCert parentKey isCA d ku
    st st' cert priv :
  GenerateKeyAndCert env subject parentCert parentKey isCA d ku st
  = (st', Ok (cert, priv)) ->
  issued env subject parentCert parentKey isCA d ku cert.
Proof.
  intros H.
  pose proof (GenerateKeyAndCert_ok _ _ _ _ _ _ _ _ _ _ _ H)
    as (Hk & _ & _ & Hs & Hnb & Hna & Hca & Hku & Hlen & _ & Hpub).
  repeat (split; [assumption|]). exists priv.
  split; [exact Hk|]. split; [exact Hpub|].
  revert H.
  unfold GenerateKeyAndCert, bindM, wrapM, GenerateKey, NewSerialNumber,
    CreateCertificate, log, ret, fail.
  destruct (rand_key env) as [k|]; [|discriminate].
  destruct (rand_serial env) as [serial|]; [|discriminate].
  destruct parentCert as [pc|], parentKey as [pk|];
    destruct (x509_create_ok env); simpl; intros H; inversion H; subst;
    simpl; split; reflexivity.
Qed.

(** The common part of the six handlers, from the generation of the key
    pair on: generate, check the output path ([check]), write the
    certificate, do the rest with the new key ([rest]). *)
Lemma issuance_tail env context1 context2 subject parentCert parentKey isCA
    days ku certOut Q (check : M unit) (rest : PrivateKey -> M unit)
    st st' r :
  pure check ->
  (forall key, writes_only Q (rest key)) ->
  (generated <--
     wrapM context1
       (GenerateKeyAndCert env subject parentCert parentKey isCA days ku) ;;;
   let '(certPEM, key) := generated in
   check ;;;
   wrapM context2 (WriteCertificateToFile env certPEM certOut) ;;;
   rest key) st = (st', r) ->
  issuance env certOut
    (issued env subject parentCert parentKey isCA days ku) Q st st'.
Proof.
  intros Hcheck Hrest H. unfold issuance. step H as [cert priv] st0 Hgen.
  - apply wrapM_ok in Hgen.
    pose proof (GenerateKeyAndCert_issued _ _ _ _ _ _ _ _ _ _ _ Hgen) as Hc.
    apply GenerateKeyAndCert_ok in Hgen.
    destruct Hgen as (Hkey & _ & Htrace & _).
    exists [KeyGenerated priv].
    assert (Hone : [KeyGenerated priv] = []
                   \/ exists k, rand_key env = Some k
                                /\ [KeyGenerated priv] = [KeyGenerated k])
      by (right; now exists priv).
    pure_step H as [].
    + step H as [] st1 Hcert.
      * apply wrapM_ok, WriteFile_inv in Hcert.
        destruct Hcert as [(_ & _ & Htr1 & _)|(? & _)]; [|discriminate].
        apply Hrest in H. destruct H as (evs2 & Htr2 & Hk2 & Hw2).
        exists (Wrote certOut (CertificatePEM cert) :: evs2).
        split; [rewrite Htr2, Htr1, Htrace, <- !app_assoc; reflexivity|].
        split; [exact Hone|]. split.
        -- intros k [E|Hin]; [discriminate|]. now apply Hk2 in Hin.
        -- intros p d [E|Hin]; [|right; now apply Hw2].
           inversion E; subst. left. split; [reflexivity|]. now exists cert.
      * apply wrapM_inv in Hcert. destruct Hcert as (r0 & Hw & _).
        apply WriteFile_inv in Hw.
        destruct Hw as [(_ & _ & Htr1 & _)|(_ & _ & Htr1 & _)].
        -- exists [Wrote certOut (CertificatePEM cert)].
           split; [rewrite Htr1, Htrace, <- app_assoc; reflexivity|].
           split; [exact Hone|]. split.
           ++ intros k [E|[]]. discriminate.
           ++ intros p d [E|[]]. inversion E; subst.
              left. split; [reflexivity|]. now exists cert.
        -- exists [WriteFailed certOut].
           split; [rewrite Htr1, Htrace, <- app_assoc; reflexivity|].
           split; [exact Hone|]. split.
           ++ intros k [E|[]]. discriminate.
           ++ intros p d [E|[]]. discriminate.
    + exists []. split; [now rewrite app_nil_r|]. split; [exact Hone|].
      split; [intros k []|intros p d []].
  - apply wrapM_inv in Hgen. destruct Hgen as (r0 & Hg & _).
    apply GenerateKeyAndCert_effects in Hg.
    destruct Hg as (_ & [Htr|(k & Hk & Htr)]).
    + exists [], []. split; [now rewrite app_nil_r|]. split; [now left|].
      split; [intros k []|intros p d []].
    + exists [KeyGenerated k], []. split; [now rewrite app_nil_r|].
      split; [right; now exists k|].
      split; [intros k' []|intros p d []].
Qed.

Lemma issuance_nothing env certOut P Q st : issuance env certOut P Q st st.
Proof.
  exists [], []. split; [now rewrite app_nil_r|]. split; [now left|].
  split; [intros k []|intros p d []].
Qed.

Lemma issuance_weaken env certOut (P P' : Certificate -> Prop) Q st st' :
  (forall c, P c -> P' c) ->
  issuance env certOut P Q st st' -> issuance env certOut P' Q st st'.
Proof.
  intros HP (keys & writes & Htr & Hone & Hk & Hw). exists keys, writes.
  split; [exact Htr|]. split; [exact Hone|]. split; [exact Hk|].
  intros p d Hin.
  destruct (Hw p d Hin) as [(-> & c & -> & Hc)|HQ]; [left|now right].
  split; [reflexivity|]. exists c. split; [reflexivity|now apply HP].
Qed.

(** A step without effects whose equation is kept as [K]. *)
Tactic Notation "pure_step" hyp(H) "as" simple_intropattern(a)
    "keeping" ident(K) :=
  let st1 := fresh "st" in
  let H1 := fresh "Hpure" in
  apply bindM_inv in H;
  destruct H as [(a & st1 & H1 & H)|(? & H1 & H)];
  [ pose proof H1 as K; use_pure H1; subst st1 | use_pure H1; subst ].

Lemma BuildSubject_ok f s st st' :
  lift (BuildSubject f) st = (st', Ok s) ->
  s = subject_of_flags f /\ flag_cn f <> "".
Proof.
  unfold lift, BuildSubject, subject_of_flags, createSubjectFromInputs.
  destruct (String.eqb_spec (flag_cn f) ""); intros H; inversion H.
  split; [reflexivity|assumption].
Qed.

Lemma atoi_ok context field text st st' v :
  atoi context field text st = (st', Ok v) -> Atoi text = Some v.
Proof.
  unfold atoi, ret, fail. destruct (Atoi text); intros H; inversion H.
  reflexivity.
Qed.

Lemma ParseCertificateFromFile_ok context path st st' c :
  wrapM context (ParseCertificateFromFile path) st = (st', Ok c) ->
  files st path = Some (CertificatePEM c).
Proof.
  intros H. apply wrapM_ok in H. unfold ParseCertificateFromFile in H.
  apply bindM_ok in H. destruct H as (d & st1 & Hr & H).
  apply wrapM_ok in Hr. unfold ReadFile in Hr.
  destruct (files st path) as [d'|]; [|discriminate].
  inversion Hr; subst. destruct d; inversion H. reflexivity.
Qed.

Lemma ParseECPrivateKey_ok env context der st st' key :
  wrapM context (ParseECPrivateKey env der) st = (st', Ok key) ->
  x509_parse_key env der = Some key.
Proof.
  intros H. apply wrapM_ok in H. unfold ParseECPrivateKey, ret, fail in H.
  destruct (x509_parse_key env der); inversion H. reflexivity.
Qed.







(** X13. The key usage of a leaf certificate has exactly the bits of the
    switches that are on: bit 0 digital signature, 2 key encipherment,
    3 data encipherment, 4 key agreement, 6 CRL signing, 7 encipher-only,
    8 decipher-only.  The certificate-signing bit (5) and the
    content-commitment bit (1) are never set, nor any bit above 8. *)
Theorem leaf_usage_bits (ds ke de ka crl eo do : bool) :
  let ku := leaf_usage ds ke de ka crl eo do in
  Z.testbit ku 0 = ds /\ Z.testbit ku 2 = ke /\ Z.testbit ku 3 = de
  /\ Z.testbit ku 4 = ka /\ Z.testbit ku 6 = crl /\ Z.testbit ku 7 = eo
  /\ Z.testbit ku 8 = do
  /\ Z.testbit ku 1 = false /\ Z.testbit ku 5 = false
  /\ Z.land ku KeyUsageCertSign = 0%Z
  /\ (0 <= ku < 2 ^ 9)%Z.
Proof.
  destruct ds, ke, de, ka, crl, eo, do; cbv zeta;
    repeat split; try reflexivity; try discriminate.
Qed.

(* ================================================================== *)
(** ** Reading the shares back                                         *)
(* ================================================================== *)

(** A failed run of the loop of [CombineSharesFromFiles]: it stops at the
    first path whose file is missing or is not base64 text. *)
Lemma read_shares_error : forall paths st st' e,
  read_shares paths st = (st', Err e) ->
  exists before p after,
    paths = before ++ p :: after
    /\ (forall q, In q before ->
          exists text s, files st q = Some (Bytes text)
                         /\ Base64.DecodeString text = Some s)
    /\ ((files st p = None /\ root_cause e = CannotReadFile p)
        \/ (exists d, files st p = Some d
                      /\ (forall text, d = Bytes text ->
                            Base64.DecodeString text = None)
                      /\ root_cause e = CorruptBase64 p)).
Proof.
  induction paths as [|path rest IH]; intros st st' e H;
    cbn [read_shares] in H; [discriminate|].
  step H as raw st1 Hr.
  - assert (st1 = st) by (revert Hr; apply pure_wrapM, pure_ReadFile).
    subst st1. apply wrapM_ok in Hr. unfold ReadFile in Hr.
    destruct (files st path) as [d|] eqn:Hfile; [|discriminate].
    inversion Hr; subst raw. clear Hr.
    step H as decoded st1 Hd.
    + assert (Hdec : exists text, d = Bytes text
                       /\ Base64.DecodeString text = Some decoded
                       /\ st1 = st).
      { apply wrapM_ok in Hd. destruct d as [c|der|text];
          try discriminate.
        exists text. destruct (Base64.DecodeString text);
          inversion Hd; subst; auto. }
      destruct Hdec as (text & -> & Hdec & ->).
      step H as shares st1 Hs; [inversion H|].
      assert (E : read_shares rest st = (st', Err e))
        by (inversion H; subst; exact Hs).
      apply IH in E. destruct E as (before & p & after & -> & Hb & Hp).
      exists (path :: before), p, after. split; [reflexivity|].
      split; [|exact Hp].
      intros q [<-|Hq]; [now exists text, decoded|now apply Hb].
    + exists [], path, rest. split; [reflexivity|].
      split; [intros q []|right]. exists d. split; [exact Hfile|].
      apply wrapM_inv in Hd. destruct Hd as (r0 & Hd & Hr0).
      inversion H; subst. split.
      * intros text ->. destruct (Base64.DecodeString text);
          [|reflexivity]. inversion Hd; subst. discriminate Hr0.
      * destruct d as [c|der|text];
          [| |destruct (Base64.DecodeString text)];
          inversion Hd; subst; inversion Hr0; subst; reflexivity.
  - exists [], path, rest. split; [reflexivity|]. split; [intros q []|left].
    apply wrapM_inv in Hr. destruct Hr as (r0 & Hr & Hr0).
    unfold ReadFile in Hr.
    destruct (files st path) eqn:Hfile; inversion Hr; subst;
      [discriminate Hr0|].
    inversion H; subst. inversion Hr0; subst. split; reflexivity.
Qed.

(** X14. [CombineSharesFromFiles] changes nothing, whatever the outcome.
    When it fails, either the combination itself failed, or the error
    names the first path, in the order given, whose file is missing or is
    not base64 text; the files before it were read and decoded. *)
Theorem CombineSharesFromFiles_errors paths st st' r :
  CombineSharesFromFiles paths st = (st', r) ->
  st' = st
  /\ forall e, r = Err e ->
       (exists cause, root_cause e = ShamirFailed cause)
       \/ exists before p after,
            paths = before ++ p :: after
            /\ (forall q, In q before ->
                  exists text s, files st q = Some (Bytes text)
                                 /\ Base64.DecodeString text = Some s)
            /\ ((files st p = None /\ root_cause e = CannotReadFile p)
                \/ (exists d, files st p = Some d
                              /\ (forall text, d = Bytes text ->
                                    Base64.DecodeString text = None)
                              /\ root_cause e = CorruptBase64 p)).
Proof.
  intros H. split; [now apply pure_CombineSharesFromFiles in H|].
  intros e ->. unfold CombineSharesFromFiles in H.
  step H as shares st1 Hs.
  - left. apply wrapM_inv in H. destruct H as (r0 & H & Hr0).
    destruct (Shamir.Combine shares) as [cause|secret];
      inversion H; subst; inversion Hr0. now exists cause.
  - right. inversion H; subst. now apply read_shares_error in Hs.
Qed.

Lemma CombineSharesFromFiles_errors_witness :
  exists e,
    CombineSharesFromFiles ["root-share1.txt"; "lost.txt"] Sample.with_root
    = (Sample.with_root, Err e)
    /\ root_cause e = CannotReadFile "lost.txt".
Proof.
  assert (R : exists st' e,
             CombineSharesFromFiles ["root-share1.txt"; "lost.txt"]
               Sample.with_root = (st', Err e)
             /\ root_cause e = CannotReadFile "lost.txt")
    by (do 2 eexists; split; vm_compute; reflexivity).
  destruct R as (st' & e & R & Hroot). exists e.
  destruct (CombineSharesFromFiles_errors _ _ _ _ R) as (-> & _).
  split; [exact R|exact Hroot].
Defined.

(** X15. Share text and line breaks: decoding the text that
    [SplitKeyAndWriteShares] writes gives the share back, and so does
    decoding that text followed by a line feed or by a carriage return and
    a line feed, as an editor may leave it; the text itself is four
    characters for every three bytes started and has no line break. *)
Theorem share_text_round_trip (share : list ascii) :
  Base64.DecodeString (Base64.EncodeToString share) = Some share
  /\ Base64.DecodeString
       (Base64.EncodeToString share ++ String (ascii_of_N 10) "")
     = Some share
  /\ Base64.DecodeString
       (Base64.EncodeToString share
        ++ String (ascii_of_N 13) (String (ascii_of_N 10) ""))
     = Some share
  /\ String.length (Base64.EncodeToString share)
     = 4 * ((List.length share + 2) / 3).
Proof.
  assert (D : forall tail,
            forallb Base64.is_newline (list_ascii_of_string tail) = true ->
            Base64.DecodeString (Base64.EncodeToString share ++ tail)
            = Some share).
  { intros tail Ht. unfold Base64.DecodeString, Base64.EncodeToString.
    rewrite PathFacts.list_ascii_of_string_app.
    rewrite list_ascii_of_string_of_list_ascii, filter_app.
    rewrite Base64Facts.filter_all by apply Base64Facts.encode_no_newline.
    replace (filter (fun c => negb (Base64.is_newline c))
               (list_ascii_of_string tail)) with (@nil ascii).
    - rewrite app_nil_r. apply Base64Facts.decode_encode.
    - symmetry. induction (list_ascii_of_string tail) as [|c l IH];
        [reflexivity|]. simpl in *. apply andb_prop in Ht.
      destruct Ht as [Hc Hl]. rewrite Hc. simpl. now apply IH. }
  split; [apply Base64Facts.DecodeString_EncodeToString|].
  split; [now apply D|]. split; [now apply D|].
  unfold Base64.EncodeToString.
  assert (L : forall l, String.length (string_of_list_ascii l)
                        = List.length l)
    by (induction l as [|c l IH]; simpl; [reflexivity|now rewrite IH]).
  rewrite L. clear D L.
  induction share as [|a|a b|a b c rest IH] using Base64Facts.list_ind3;
    try reflexivity.
  cbn [Base64.encode List.length]. rewrite IH.
  replace (S (S (S (List.length rest))) + 2)
    with ((List.length rest + 2) + 1 * 3) by lia.
  rewrite Nat.div_add by discriminate. lia.
Qed.

(* ================================================================== *)
(** ** What the handlers check, and when                               *)
(* ================================================================== *)

(** X16. Issue-Root validates before it acts: a run of [createRootCmd]
    or of the "Create Root CA" button that changes anything had a PEM
    destination and a share count equal to the number of share
    destinations; from the command line it also had a common name and at
    least one destination, from the form three entries that read as
    numbers. *)
Theorem root_validated_before_effects env st st' r :
  st' <> st ->
  (forall f,
     createRootCmd env f st = (st', r) ->
     flag_cn f <> ""
     /\ flag_pem_out f <> ""
     /\ ParseCommaSeparatedPaths (flag_shares_out f) <> []
     /\ flag_n f
        = Z.of_nat
            (List.length (ParseCommaSeparatedPaths (flag_shares_out f))))
  /\ (forall w,
        createRootTab env w st = (st', r) ->
        pemOutEntry w <> ""
        /\ (exists days, Atoi (daysEntry w) = Some days)
        /\ (exists t, Atoi (tEntry w) = Some t)
        /\ Atoi (nEntry w)
           = Some (Z.of_nat
                     (List.length (split_entry (sharesOutEntry w))))).
Proof.
  intros Hne. split.
  - intros f H. unfold createRootCmd in H.
    pure_step H as subject keeping Hs; [|now elim Hne].
    apply BuildSubject_ok in Hs. destruct Hs as [_ Hcn].
    pure_step H as [] keeping K1; [|now elim Hne].
    pure_step H as [] keeping K2; [|now elim Hne].
    pure_step H as [] keeping K3; [|now elim Hne].
    pure_step H as [] keeping K4; [|now elim Hne].
    apply when_inv in K1, K3, K4.
    destruct K1 as (_ & [[K1 _]|[_ K1]]); [|discriminate].
    destruct K3 as (_ & [[K3 _]|[_ K3]]); [|discriminate].
    destruct K4 as (_ & [[K4 _]|[_ K4]]); [|discriminate].
    split; [exact Hcn|]. split; [now apply is_empty_false|].
    split.
    + intros E. rewrite E in K3. discriminate.
    + now apply negb_false_iff, Z.eqb_eq in K4.
  - intros w H. unfold createRootTab in H.
    pure_step H as days keeping Kd; [|now elim Hne].
    pure_step H as n keeping Kn; [|now elim Hne].
    pure_step H as t keeping Kt; [|now elim Hne].
    pure_step H as [] keeping K1; [|now elim Hne].
    pure_step H as [] keeping K2; [|now elim Hne].
    apply atoi_ok in Kd, Kn, Kt. apply when_inv in K1, K2.
    destruct K1 as (_ & [[K1 _]|[_ K1]]); [|discriminate].
    destruct K2 as (_ & [[K2 _]|[_ K2]]); [|discriminate].
    split; [now apply is_empty_false|]. split; [now exists days|].
    split; [now exists t|].
    apply negb_false_iff, Z.eqb_eq in K2. now rewrite K2.
Qed.

Lemma root_validated_before_effects_witness :
  flag_cn Sample.create_root <> ""
  /\ flag_pem_out Sample.create_root <> ""
  /\ ParseCommaSeparatedPaths (flag_shares_out Sample.create_root) <> []
  /\ flag_n Sample.create_root
     = Z.of_nat
         (List.length
            (ParseCommaSeparatedPaths (flag_shares_out Sample.create_root))).
Proof.
  assert (R : exists st',
             createRootCmd Sample.env Sample.create_root Sample.empty
             = (st', Ok tt)
             /\ trace st' <> trace Sample.empty)
    by (eexists; split; [vm_compute; reflexivity|vm_compute; discriminate]).
  destruct R as (st' & R & Hne).
  apply (proj1 (root_validated_before_effects Sample.env Sample.empty st'
                  (Ok tt) (fun E => Hne (f_equal trace E)))
           Sample.create_root R).
Defined.

(** A failed step whose error is not the one at hand. *)
Ltac other_cause K H :=
  exfalso; inversion H; subst; clear H;
  first
    [ apply wrapM_inv in K; destruct K as ([?|?] & _ & K); discriminate K
    | apply when_inv in K; destruct K as (_ & [[_ K]|[_ K]]); discriminate K
    | unfold lift, BuildSubject in K;
      destruct (String.eqb _ _) in K; discriminate K
    | unfold atoi, ret, fail in K; destruct (Atoi _) in K; discriminate K ].

(** A step without effects that, had it failed, would have failed with
    another error. *)
Tactic Notation "pass" hyp(H) "as" simple_intropattern(a) ident(K) :=
  let st1 := fresh "st" in
  let x := fresh "x" in
  let P := fresh "P" in
  apply bindM_inv in H;
  destruct H as [(a & st1 & K & H)|(x & K & H)];
  [ pose proof K as P; use_pure P; subst st1 | other_cause K H ].

Lemma generated_only_intro env context subject parentCert parentKey isCA d ku
    st st' c k :
  wrapM context (GenerateKeyAndCert env subject parentCert parentKey isCA d ku)
    st = (st', Ok (c, k)) ->
  generated_only env st st'.
Proof.
  intros H. apply wrapM_ok, GenerateKeyAndCert_ok in H.
  destruct H as (Hk & Hf & Htr & _). split; [exact Hf|]. now exists k.
Qed.

(** X17. Issue-Subordinate and Issue-Leaf look at the destination of the
    certificate late: when they report that it is missing, the signing
    certificate has been read, the signing key has been put together from
    its shares and parsed, and a new key pair has been generated; nothing
    has been written. *)
Theorem output_path_checked_after_generation env st st' :
  (forall f,
     createSubCACmd env f st
     = (st', Err (MustSpecify "--pem-out to store the subCA certificate")) ->
     flag_pem_out f = ""
     /\ (exists der key,
           CombineSharesFromFiles
             (ParseCommaSeparatedPaths (flag_parent_shares_in f)) st
           = (st, Ok der)
           /\ x509_parse_key env der = Some key)
     /\ generated_only env st st')
  /\ (forall f,
        signCmd env f st
        = (st', Err (MustSpecify "--cert-out for the signed certificate")) ->
        flag_cert_out f = ""
        /\ (exists der key,
              CombineSharesFromFiles
                (ParseCommaSeparatedPaths (flag_shares_in f)) st
              = (st, Ok der)
              /\ x509_parse_key env der = Some key)
        /\ generated_only env st st')
  /\ (forall w,
        createSubCATab env w st
        = (st', Err (MustSpecify "output path for subCA cert")) ->
        pemOutEntry w = ""
        /\ (exists der key,
              CombineSharesFromFiles (split_entry (parentSharesEntry w)) st
              = (st, Ok der)
              /\ x509_parse_key env der = Some key)
        /\ generated_only env st st')
  /\ (forall w,
        signTab env w st
        = (st', Err (MustSpecify "leaf cert output path")) ->
        certOutEntry w = ""
        /\ (exists der key,
              CombineSharesFromFiles (split_entry (sharesInEntry w)) st
              = (st, Ok der)
              /\ x509_parse_key env der = Some key)
        /\ generated_only env st st').
Proof.
  split; [|split; [|split]].
  - intros f H. unfold createSubCACmd in H.
    pass H as subject Ks. pass H as [] K1. pass H as parent Kp.
    pass H as [] K2. pass H as der Kc. pass H as key Kk.
    step H as [cert priv] st1 Kg; [|other_cause Kg H].
    apply generated_only_intro in Kg.
    apply ParseECPrivateKey_ok in Kk.
    assert (Hc : CombineSharesFromFiles
                   (ParseCommaSeparatedPaths (flag_parent_shares_in f)) st
                 = (st, Ok der)) by (now apply wrapM_ok in Kc).
    step H as [] st2 Ko.
    + exfalso. step H as [] st3 Kw; [|other_cause Kw H].
      step H as [] st4 Kn; [|other_cause Kn H].
      apply wrapM_inv in H. destruct H as ([?|?] & _ & H); discriminate H.
    + apply when_inv in Ko. destruct Ko as (-> & [[_ Ko]|[Ko _]]);
        [discriminate|].
      split; [now apply is_empty_true|]. split; [now exists der, key|].
      exact Kg.
  - intros f H. unfold signCmd in H.
    pass H as subject Ks. pass H as [] K1. pass H as ca Kp.
    pass H as [] K2. pass H as der Kc. pass H as key Kk.
    step H as [cert priv] st1 Kg; [|other_cause Kg H].
    apply generated_only_intro in Kg.
    apply ParseECPrivateKey_ok in Kk.
    assert (Hc : CombineSharesFromFiles
                   (ParseCommaSeparatedPaths (flag_shares_in f)) st
                 = (st, Ok der)) by (now apply wrapM_ok in Kc).
    step H as [] st2 Ko.
    + exfalso. step H as [] st3 Kw; [|other_cause Kw H].
      destruct (negb (is_empty (flag_key_out f))); [|discriminate H].
      apply wrapM_inv in H. destruct H as ([?|?] & _ & H); discriminate H.
    + apply when_inv in Ko. destruct Ko as (-> & [[_ Ko]|[Ko _]]);
        [discriminate|].
      split; [now apply is_empty_true|]. split; [now exists der, key|].
      exact Kg.
  - intros w H. unfold createSubCATab in H.
    pass H as days Kd. pass H as [] K1. pass H as parent Kp.
    pass H as [] K2. pass H as der Kc. pass H as key Kk.
    step H as [cert priv] st1 Kg; [|other_cause Kg H].
    apply generated_only_intro in Kg.
    apply ParseECPrivateKey_ok in Kk.
    assert (Hc : CombineSharesFromFiles
                   (split_entry (parentSharesEntry w)) st
                 = (st, Ok der)) by (now apply wrapM_ok in Kc).
    step H as [] st2 Ko.
    + exfalso. step H as [] st3 Kw; [|other_cause Kw H].
      step H as n st4 Kn; [|other_cause Kn H].
      step H as t st5 Kt; [|other_cause Kt H].
      step H as [] st6 Km; [|other_cause Km H].
      apply wrapM_inv in H. destruct H as ([?|?] & _ & H); discriminate H.
    + apply when_inv in Ko. destruct Ko as (-> & [[_ Ko]|[Ko _]]);
        [discriminate|].
      split; [now apply is_empty_true|]. split; [now exists der, key|].
      exact Kg.
  - intros w H. unfold signTab in H.
    pass H as days Kd. pass H as [] K1. pass H as ca Kp.
    pass H as [] K2. pass H as der Kc. pass H as key Kk.
    step H as [cert priv] st1 Kg; [|other_cause Kg H].
    apply generated_only_intro in Kg.
    apply ParseECPrivateKey_ok in Kk.
    assert (Hc : CombineSharesFromFiles (split_entry (sharesInEntry w)) st
                 = (st, Ok der)) by (now apply wrapM_ok in Kc).
    step H as [] st2 Ko.
    + exfalso. step H as [] st3 Kw; [|other_cause Kw H].
      destruct (negb (is_empty (keyOutEntry w))); [|discriminate H].
      apply wrapM_inv in H. destruct H as ([?|?] & _ & H); discriminate H.
    + apply when_inv in Ko. destruct Ko as (-> & [[_ Ko]|[Ko _]]);
        [discriminate|].
      split; [now apply is_empty_true|]. split; [now exists der, key|].
      exact Kg.
Qed.

Lemma output_path_checked_after_generation_witness :
  exists st',
    createSubCACmd Sample.env Sample.subca_without_pem_out Sample.with_root
    = (st', Err (MustSpecify "--pem-out to store the subCA certificate"))
    /\ generated_only Sample.env Sample.with_root st'.
Proof.
  assert (R : exists st',
             createSubCACmd Sample.env Sample.subca_without_pem_out
               Sample.with_root
             = (st', Err (MustSpecify
                            "--pem-out to store the subCA certificate")))
    by (eexists; vm_compute; reflexivity).
  destruct R as (st' & R). exists st'. split; [exact R|].
  exact (proj2 (proj2 (proj1 (output_path_checked_after_generation
                                Sample.env Sample.with_root st')
                         Sample.subca_without_pem_out R))).
Defined.

Lemma split_comma_length s :
  List.length (GoStrings.split_comma s)
  = S (count_occ ascii_dec s GoStrings.comma).
Proof.
  induction s as [|c s IH]; [reflexivity|].
  cbn [GoStrings.split_comma count_occ].
  destruct (Ascii.eqb_spec c GoStrings.comma) as [->|Hc].
  - destruct (ascii_dec GoStrings.comma GoStrings.comma) as [_|N];
      [|now elim N]. cbn [List.length]. now rewrite IH.
  - destruct (ascii_dec c GoStrings.comma) as [E|_]; [contradiction|].
    rewrite <- IH. destruct (GoStrings.split_comma s);
      [discriminate IH|reflexivity].
Qed.

(** X18. The form reads a share entry as one path more than the trimmed
    text has commas, so as one path at least, the empty one when the entry
    is empty: the "no parent shares selected" and "no CA key shares
    selected" guards of the two buttons never fire, whatever the entries
    and the files. *)
Theorem form_share_guard_never_fires env w st st' r :
  (forall text,
     List.length (split_entry text)
     = S (count_occ ascii_dec
            (list_ascii_of_string (GoStrings.TrimSpace text))
            GoStrings.comma))
  /\ (createSubCATab env w st = (st', r) ->
      r <> Err (NoValidPaths "parent shares"))
  /\ (signTab env w st = (st', r) ->
      r <> Err (NoValidPaths "CA key shares")).
Proof.
  assert (L : forall text,
            List.length (split_entry text)
            = S (count_occ ascii_dec
                   (list_ascii_of_string (GoStrings.TrimSpace text))
                   GoStrings.comma)).
  { intros text. unfold split_entry, GoStrings.SplitComma.
    rewrite length_map. apply split_comma_length. }
  split; [exact L|]. split.
  - intros H E. subst r. unfold createSubCATab in H.
    pass H as days Kd. pass H as [] K1. pass H as parent Kp.
    step H as [] st1 K2.
    + step H as der st2 Kc; [|other_cause Kc H].
      step H as key st3 Kk; [|other_cause Kk H].
      step H as [cert priv] st4 Kg; [|other_cause Kg H].
      step H as [] st5 Ko; [|other_cause Ko H].
      step H as [] st6 Kw; [|other_cause Kw H].
      step H as n st7 Kn; [|other_cause Kn H].
      step H as t st8 Kt; [|other_cause Kt H].
      step H as [] st9 Km; [|other_cause Km H].
      apply wrapM_inv in H. destruct H as ([?|?] & _ & H); discriminate H.
    + apply when_inv in K2. destruct K2 as (_ & [[_ K2]|[K2 _]]);
        [discriminate|]. rewrite L in K2. discriminate.
  - intros H E. subst r. unfold signTab in H.
    pass H as days Kd. pass H as [] K1. pass H as ca Kp.
    step H as [] st1 K2.
    + step H as der st2 Kc; [|other_cause Kc H].
      step H as key st3 Kk; [|other_cause Kk H].
      step H as [cert priv] st4 Kg; [|other_cause Kg H].
      step H as [] st5 Ko; [|other_cause Ko H].
      step H as [] st6 Kw; [|other_cause Kw H].
      destruct (negb (is_empty (keyOutEntry w))); [|discriminate H].
      apply wrapM_inv in H. destruct H as ([?|?] & _ & H); discriminate H.
    + apply when_inv in K2. destruct K2 as (_ & [[_ K2]|[K2 _]]);
        [discriminate|]. rewrite L in K2. discriminate.
Qed.

Lemma form_share_guard_never_fires_witness :
  exists st' e,
    createSubCATab Sample.env Sample.subca_tab_without_shares
      Sample.with_root = (st', Err e)
    /\ root_cause e = CannotReadFile ""
    /\ @Err unit e <> Err (NoValidPaths "parent shares").
Proof.
  assert (R : exists st' e,
             createSubCATab Sample.env Sample.subca_tab_without_shares
               Sample.with_root = (st', Err e)
             /\ root_cause e = CannotReadFile "")
    by (do 2 eexists; split; vm_compute; reflexivity).
  destruct R as (st' & e & R & Hroot). exists st', e.
  split; [exact R|]. split; [exact Hroot|].
  exact (proj1 (proj2 (form_share_guard_never_fires Sample.env
                         Sample.subca_tab_without_shares Sample.with_root
                         st' (Err e))) R).
Defined.
